(** * Swagger Navigator (swan): a shallow embedding of the content scripts

    The extension is made of four JavaScript modules, each an immediately
    invoked closure that exports a record of functions:

    - [StorageManager]  (scripts/storage.js): route keys and the starred set
      kept under one key of [chrome.storage.sync];
    - [DOMParser]       (scripts/dom-parser.js): reads operations out of the
      Swagger UI markup;
    - [SidebarUI]       (scripts/sidebar-ui.js): filters, groups and renders
      the operations in the injected panel;
    - [MutationHandler] (the mutation handler module): observes the page,
      debounces bursts of mutations and injects the star buttons.

    Each module below keeps the JavaScript names.  JavaScript strings are
    modelled by [string]; the built-in string methods used by the code are
    defined in [JS] on the ASCII range.  The DOM is a rose tree of elements
    and text nodes, queried in document order. *)

From Stdlib Require Import List String Ascii Bool Arith ZArith Lia.
From Stdlib Require Import Permutation.
Import ListNotations.
Open Scope string_scope.
Open Scope list_scope.
Set Warnings "-register-all".

(** ** JavaScript built-ins used by the scripts *)

Module JS.

Local Open Scope nat_scope.

Definition code (c : ascii) : nat := nat_of_ascii c.

Definition isLower (c : ascii) : bool := (97 <=? code c) && (code c <=? 122).
Definition isUpper (c : ascii) : bool := (65 <=? code c) && (code c <=? 90).
Definition isDigit (c : ascii) : bool := (48 <=? code c) && (code c <=? 57).

(** The characters removed by [String.prototype.trim] and matched by the
    regular expression class [\s], on the ASCII range: tab, line feed,
    vertical tab, form feed, carriage return and space. *)
Definition isSpace (c : ascii) : bool :=
  ((9 <=? code c) && (code c <=? 13)) || (code c =? 32).

Definition upperChar (c : ascii) : ascii :=
  if isLower c then ascii_of_nat (code c - 32) else c.
Definition lowerChar (c : ascii) : ascii :=
  if isUpper c then ascii_of_nat (code c + 32) else c.

Fixpoint mapChars (f : ascii -> ascii) (s : string) : string :=
  match s with
  | EmptyString => EmptyString
  | String c r => String (f c) (mapChars f r)
  end.

(** [s.toUpperCase()] and [s.toLowerCase()] *)
Definition toUpperCase : string -> string := mapChars upperChar.
Definition toLowerCase : string -> string := mapChars lowerChar.

(** [s.trimStart()], [s.trimEnd()], [s.trim()] *)
Fixpoint trimStart (s : string) : string :=
  match s with
  | EmptyString => EmptyString
  | String c r => if isSpace c then trimStart r else s
  end.

Fixpoint trimEnd (s : string) : string :=
  match s with
  | EmptyString => EmptyString
  | String c r =>
      match trimEnd r with
      | EmptyString => if isSpace c then EmptyString else String c EmptyString
      | r' => String c r'
      end
  end.

Definition trim (s : string) : string := trimEnd (trimStart s).

(** [s.startsWith(p)] *)
Fixpoint startsWith (s p : string) {struct p} : bool :=
  match p, s with
  | EmptyString, _ => true
  | String _ _, EmptyString => false
  | String b p', String a s' => Ascii.eqb a b && startsWith s' p'
  end.

(** [s.includes(t)]: [t] occurs in [s] as a contiguous substring. *)
Fixpoint includes (s t : string) : bool :=
  startsWith s t ||
  match s with
  | EmptyString => false
  | String _ r => includes r t
  end.

(** A string in a boolean position: only the empty string is falsy. *)
Definition truthy (s : string) : bool :=
  match s with EmptyString => false | _ => true end.

(** [a || b] on strings *)
Definition orElse (a b : string) : string := if truthy a then a else b.

(** [s.replace(/[^a-zA-Z0-9-]/g, '-')] *)
Definition isIdChar (c : ascii) : bool :=
  isLower c || isUpper c || isDigit c || (code c =? 45).
Definition replaceNonId (s : string) : string :=
  mapChars (fun c => if isIdChar c then c else "-"%char) s.

(** [s.replace(/\s+/g, '-')]: every maximal run of white space becomes one
    dash. *)
Fixpoint replaceSpacesFrom (inRun : bool) (s : string) : string :=
  match s with
  | EmptyString => EmptyString
  | String c r =>
      if isSpace c
      then (if inRun then replaceSpacesFrom true r
            else String "-"%char (replaceSpacesFrom true r))
      else String c (replaceSpacesFrom false r)
  end.
Definition replaceSpaces : string -> string := replaceSpacesFrom false.

(** The strings on which the definitions of this module are those of
    JavaScript: every character lies in the ASCII range, so that a character
    is one UTF-16 code unit, the letters with a case are [a]-[z] and [A]-[Z],
    and the white space is the six characters of [isSpace].  Outside that
    range [toLowerCase], [toUpperCase], [trim] and the classes of the
    regular expressions follow Unicode, which this module does not model. *)
Definition isAsciiChar (c : ascii) : bool := code c <? 128.

Fixpoint isAscii (s : string) : bool :=
  match s with
  | EmptyString => true
  | String c r => isAsciiChar c && isAscii r
  end.

End JS.

(** ** The DOM: elements and text nodes in document order *)

Module DOM.

Local Open Scope nat_scope.

(** An element carries its tag name, its [id], the tokens of its [class]
    attribute, its other attributes ([title], [data-*], ...) and its child
    nodes. *)
Inductive node : Type :=
| Text (data : string)
| Elem (tagName : string) (id : string) (classList : list string)
       (attributes : list (string * string)) (childNodes : list node).

Definition childNodes (n : node) : list node :=
  match n with
  | Text _ => []
  | Elem _ _ _ _ ch => ch
  end.

Definition nodeId (n : node) : string :=
  match n with
  | Text _ => ""
  | Elem _ i _ _ _ => i
  end.

Definition classes (n : node) : list string :=
  match n with
  | Text _ => []
  | Elem _ _ cl _ _ => cl
  end.

(** [node.nodeType === Node.ELEMENT_NODE] *)
Definition isElement (n : node) : bool :=
  match n with
  | Text _ => false
  | Elem _ _ _ _ _ => true
  end.

(** Induction on nodes, with the property available for every child. *)
Section NodeInduction.
Variable P : node -> Prop.
Hypothesis Htext : forall s, P (Text s).
Hypothesis Helem : forall t i cl a ch, Forall P ch -> P (Elem t i cl a ch).

Fixpoint node_induction (n : node) : P n :=
  match n with
  | Text s => Htext s
  | Elem t i cl a ch =>
      Helem t i cl a ch
        ((fix children (l : list node) : Forall P l :=
            match l with
            | [] => Forall_nil P
            | c :: r => Forall_cons c (node_induction c) (children r)
            end) ch)
  end.
End NodeInduction.

(** [el.classList.contains(c)] *)
Definition classList_contains (n : node) (c : string) : bool :=
  existsb (String.eqb c) (classes n).

(** The selectors that occur in the scripts: [.c], [tag[class*="sub"]]
    and comma-separated lists of those. *)
Inductive selector : Type :=
| ByClass (c : string)
| ByTagClassSubstring (tag sub : string)
| OrSel (s1 s2 : selector).

(** [el.matches(sel)].  A [class*=] substring without white space occurs
    in the attribute exactly when it occurs in one of its tokens. *)
Fixpoint matches (sel : selector) (n : node) : bool :=
  match sel with
  | ByClass c => classList_contains n c
  | ByTagClassSubstring tag sub =>
      match n with
      | Text _ => false
      | Elem t _ cl _ _ =>
          String.eqb t tag && existsb (fun c => JS.includes c sub) cl
      end
  | OrSel s1 s2 => matches s1 n || matches s2 n
  end.

(** A node followed by all its descendants, in document order. *)
Fixpoint subtree (n : node) : list node :=
  n :: match n with
       | Text _ => []
       | Elem _ _ _ _ ch => flat_map subtree ch
       end.

(** All nodes of a forest, in document order. *)
Definition nodes (f : list node) : list node := flat_map subtree f.

(** The nodes of a forest that match [sel], in document order. *)
Definition select (sel : selector) (f : list node) : list node :=
  filter (matches sel) (nodes f).

(** [el.querySelectorAll(sel)]: the descendants of [el], not [el]. *)
Definition querySelectorAll (sel : selector) (el : node) : list node :=
  select sel (childNodes el).

(** [el.querySelector(sel)]: the first match in document order, or null. *)
Definition querySelector (sel : selector) (el : node) : option node :=
  hd_error (querySelectorAll sel el).

(** [node.textContent]: the text of all descendant text nodes. *)
Fixpoint textContent (n : node) : string :=
  match n with
  | Text s => s
  | Elem _ _ _ _ ch =>
      fold_right (fun c acc => String.append (textContent c) acc) "" ch
  end.

(** *** Edits *)

Section Scan.
Context {A : Type}.
Variable g : A -> option A.
(** Replace the first element of a list on which [g] succeeds. *)
Fixpoint firstSome (l : list A) : option (list A) :=
  match l with
  | [] => None
  | x :: r =>
      match g x with
      | Some x' => Some (x' :: r)
      | None => option_map (cons x) (firstSome r)
      end
  end.
End Scan.

Section EditFirst.
Variable sel : selector.
Variable f : node -> node.

(** Apply [f] to the first node of the subtree of [n] that matches. *)
Fixpoint editFirstSelf (n : node) : option node :=
  if matches sel n then Some (f n)
  else match n with
       | Text _ => None
       | Elem t i cl a ch =>
           option_map (Elem t i cl a) (firstSome editFirstSelf ch)
       end.

(** [const x = el.querySelector(sel); if (x) { ...edit x... }]:
    [None] when [el] has no matching descendant. *)
Definition editFirst (el : node) : option node :=
  match el with
  | Text _ => None
  | Elem t i cl a ch =>
      option_map (Elem t i cl a) (firstSome editFirstSelf ch)
  end.
End EditFirst.

Section InsertBefore.
Variable sel : selector.
Variable new : node.

Section InsertScan.
Variable inner : node -> option node.
Fixpoint insertScan (l : list node) : option (list node) :=
  match l with
  | [] => None
  | c :: r =>
      if matches sel c then Some (new :: c :: r)
      else match inner c with
           | Some c' => Some (c' :: r)
           | None => option_map (cons c) (insertScan r)
           end
  end.
End InsertScan.

(** [const x = el.querySelector(sel);
     if (x) x.parentNode.insertBefore(new, x)]:
    [None] when [el] has no matching descendant. *)
Fixpoint insertBeforeFirst (el : node) : option node :=
  match el with
  | Text _ => None
  | Elem t i cl a ch =>
      option_map (Elem t i cl a) (insertScan insertBeforeFirst ch)
  end.
End InsertBefore.

(** [el.appendChild(new)] *)
Definition appendChild (el new : node) : node :=
  match el with
  | Text _ => el
  | Elem t i cl a ch => Elem t i cl a (ch ++ [new])
  end.

Section EditNth.
Variable sel : selector.
Variable f : node -> node.

(** Number of matches in the subtree of a node. *)
Definition countIn (n : node) : nat := List.length (select sel [n]).

Section NthScan.
Variable inner : nat -> node -> node.
Fixpoint nthScan (k : nat) (l : list node) : list node :=
  match l with
  | [] => []
  | c :: r =>
      if k <? countIn c then inner k c :: r
      else c :: nthScan (k - countIn c) r
  end.
End NthScan.

(** Apply [f] to the [k]-th match (from 0, in document order) of the
    subtree of [n]: the element at index [k] of the static list
    [select sel [n]], edited in the live tree. *)
Fixpoint editNthSelf (k : nat) (n : node) : node :=
  match n with
  | Text _ => n
  | Elem t i cl a ch =>
      if matches sel n
      then match k with
           | O => f n
           | S k' => Elem t i cl a (nthScan editNthSelf k' ch)
           end
      else Elem t i cl a (nthScan editNthSelf k ch)
  end.

End EditNth.

(** The page: [window.location.origin] and [window.location.pathname],
    [document.title], and the tree under [document.documentElement]. *)
Record Document : Type := {
  origin : string;
  title : string;
  pathname : string;
  documentElement : node
}.

(** [document.querySelectorAll(sel)] *)
Definition document_querySelectorAll (sel : selector) (d : Document)
  : list node :=
  select sel [documentElement d].

(** Two simple selectors outside [selector], as tests on a node: [#i] and
    [[class*="sub"]] for a substring without white space. *)
Definition hasId (i : string) (n : node) : bool :=
  isElement n && String.eqb (nodeId n) i.
Definition classIncludes (sub : string) (n : node) : bool :=
  existsb (fun c => JS.includes c sub) (classes n).

(** [document.querySelector(...) !== null], for a test on nodes. *)
Definition document_some (p : node -> bool) (d : Document) : bool :=
  existsb p (subtree (documentElement d)).

End DOM.

(** ** JavaScript [Set] of strings and the synced storage area *)

Module JSSet.

(** A [Set] iterates in insertion order and holds no value twice. *)
Definition t : Type := list string.

Definition has (s : t) (k : string) : bool := existsb (String.eqb k) s.
Definition add (s : t) (k : string) : t := if has s k then s else s ++ [k].
Definition delete (s : t) (k : string) : t :=
  filter (fun x => negb (String.eqb x k)) s.
(** [new Set(array)] *)
Definition ofArray (a : list string) : t := fold_left add a [].
(** [Array.from(set)] *)
Definition toArray (s : t) : list string := s.
Definition size (s : t) : nat := List.length s.

End JSSet.

Module Chrome.

(** [chrome.storage.sync]: items by key.  The extension only stores arrays
    of strings.  Reads and writes complete; quota and transport failures of
    the browser are outside the model. *)
Definition storage : Type := list (string * list string).

Definition get (st : storage) (key : string) : option (list string) :=
  option_map snd (find (fun kv => String.eqb (fst kv) key) st).

Definition set (st : storage) (key : string) (v : list string) : storage :=
  (key, v) :: filter (fun kv => negb (String.eqb (fst kv) key)) st.

End Chrome.

(** ** scripts/storage.js *)

Module StorageManager.
Import DOM.

Definition STORAGE_KEY : string := "swagger_starred_routes".

Definition getSpecIdentifier (document : Document) : string :=
  let title := title document in
  if JS.truthy title && negb (String.eqb title "Swagger UI") then title
  else
    let url := pathname document in
    JS.orElse url "default-spec".

Definition generateRouteKey (document : Document) (method path : string)
  : string :=
  let specId := getSpecIdentifier document in
  specId ++ "::" ++ method ++ "::" ++ path.

Definition getStarredRoutes (st : Chrome.storage) : JSSet.t :=
  let routes :=
    match Chrome.get st STORAGE_KEY with
    | Some r => r
    | None => []
    end in
  JSSet.ofArray routes.

(** The promise of [toggleStarred] resolves to the new starred state; the
    second component is the storage area after the write. *)
Definition toggleStarred (document : Document) (st : Chrome.storage)
           (method path : string) : bool * Chrome.storage :=
  let routeKey := generateRouteKey document method path in
  let starredRoutes := getStarredRoutes st in
  let starredRoutes :=
    if JSSet.has starredRoutes routeKey
    then JSSet.delete starredRoutes routeKey
    else JSSet.add starredRoutes routeKey in
  (JSSet.has starredRoutes routeKey,
   Chrome.set st STORAGE_KEY (JSSet.toArray starredRoutes)).

Definition isStarred (document : Document) (st : Chrome.storage)
           (method path : string) : bool :=
  let routeKey := generateRouteKey document method path in
  let starredRoutes := getStarredRoutes st in
  JSSet.has starredRoutes routeKey.

Definition clearStarredRoutes (document : Document) (st : Chrome.storage)
  : Chrome.storage :=
  let specId := getSpecIdentifier document in
  let allStarred := getStarredRoutes st in
  let filtered :=
    filter (fun key => negb (JS.startsWith key (specId ++ "::")))
           (JSSet.toArray allStarred) in
  Chrome.set st STORAGE_KEY filtered.

End StorageManager.

(** ** scripts/dom-parser.js *)

Module DOMParser.
Import DOM.

Definition SELECTORS_operations : selector := ByClass "opblock".
Definition SELECTORS_operationTag : selector := ByClass "opblock-tag-section".
Definition SELECTORS_tagHeader : selector := ByClass "opblock-tag".
Definition SELECTORS_method : selector := ByClass "opblock-summary-method".
Definition SELECTORS_path : selector := ByClass "opblock-summary-path".
Definition SELECTORS_summary : selector :=
  ByClass "opblock-summary-description".
Definition SELECTORS_operationId : selector :=
  ByClass "opblock-summary-operation-id".
Definition SELECTORS_deprecated : selector := ByClass "opblock-deprecated".

(** The object built by [parseOperation]; [extractAllOperations] spreads
    it and adds [tagName] and [tagId], which are absent ([None]) before. *)
Record Operation : Type := {
  method : string;
  path : string;
  summary : string;
  operationId : string;
  isDeprecated : bool;
  element : node;
  id : string;
  tagName : option string;
  tagId : option string
}.

Record Tag : Type := {
  name : string;
  tag_id : string;
  tag_element : node
}.

Definition extractTags (document : Document) : list Tag :=
  let tagElements := document_querySelectorAll SELECTORS_operationTag document in
  fold_left
    (fun tags tagElement =>
       match querySelector SELECTORS_tagHeader tagElement with
       | None => tags
       | Some tagHeader =>
           let tagName := JS.trim (textContent tagHeader) in
           let tagId :=
             JS.orElse (nodeId tagElement)
                       ("tag-" ++ JS.replaceSpaces (JS.toLowerCase tagName)) in
           tags ++ [ {| name := tagName; tag_id := tagId;
                        tag_element := tagElement |} ]
       end)
    tagElements [].

Definition parseOperation (opblock : node) : option Operation :=
  let methodElement := querySelector SELECTORS_method opblock in
  let pathElement := querySelector SELECTORS_path opblock in
  match methodElement, pathElement with
  | Some methodElement, Some pathElement =>
      let method := JS.toUpperCase (JS.trim (textContent methodElement)) in
      let path := JS.trim (textContent pathElement) in
      let summaryElement := querySelector SELECTORS_summary opblock in
      let operationIdElement := querySelector SELECTORS_operationId opblock in
      let summary :=
        match summaryElement with
        | Some e => JS.trim (textContent e)
        | None => ""
        end in
      let operationId :=
        match operationIdElement with
        | Some e => JS.trim (textContent e)
        | None => ""
        end in
      let isDeprecated :=
        classList_contains opblock "deprecated" ||
        match querySelector SELECTORS_deprecated opblock with
        | Some _ => true
        | None => false
        end in
      Some {| method := method;
              path := path;
              summary := summary;
              operationId := operationId;
              isDeprecated := isDeprecated;
              element := opblock;
              id := JS.orElse (nodeId opblock)
                              (JS.replaceNonId (method ++ "-" ++ path));
              tagName := None;
              tagId := None |}
  | _, _ => None
  end.

Definition extractOperationsForTag (tagElement : node) : list Operation :=
  let opblocks := querySelectorAll SELECTORS_operations tagElement in
  fold_left
    (fun operations opblock =>
       match parseOperation opblock with
       | Some operation => operations ++ [operation]
       | None => operations
       end)
    opblocks [].

Definition withTag (op : Operation) (tag : Tag) : Operation :=
  {| method := method op; path := path op; summary := summary op;
     operationId := operationId op; isDeprecated := isDeprecated op;
     element := element op; id := id op;
     tagName := Some (name tag); tagId := Some (tag_id tag) |}.

Definition extractAllOperations (document : Document) : list Operation :=
  let tags := extractTags document in
  fold_left
    (fun allOperations tag =>
       let operations := extractOperationsForTag (tag_element tag) in
       fold_left (fun all op => all ++ [withTag op tag])
                 operations allOperations)
    tags [].

(** [x?.textContent.trim()]: [None] stands for [undefined]. *)
Definition opMethodOf (op : node) : option string :=
  option_map (fun e => JS.toUpperCase (JS.trim (textContent e)))
             (querySelector SELECTORS_method op).
Definition opPathOf (op : node) : option string :=
  option_map (fun e => JS.trim (textContent e))
             (querySelector SELECTORS_path op).

(** [a === b] where [a] may be [undefined] *)
Definition strictEq (a : option string) (b : string) : bool :=
  match a with
  | Some x => String.eqb x b
  | None => false
  end.

(** The test of the loop body of [findOperationElement]. *)
Definition isOperation (method path : string) (op : node) : bool :=
  strictEq (opMethodOf op) (JS.toUpperCase method) &&
  strictEq (opPathOf op) path.

(** The [for ... of] loop with its early [return op]. *)
Fixpoint findIn (method path : string) (operations : list node)
  : option node :=
  match operations with
  | [] => None
  | op :: rest =>
      if isOperation method path op then Some op
      else findIn method path rest
  end.

Definition findOperationElement (document : Document) (method path : string)
  : option node :=
  let operations := document_querySelectorAll SELECTORS_operations document in
  findIn method path operations.

Definition isSwaggerUI (document : Document) : bool :=
  document_some (hasId "swagger-ui") document ||
  document_some (matches (ByClass "swagger-ui")) document ||
  document_some (classIncludes "swagger") document.

End DOMParser.

(** ** JavaScript objects used as dictionaries *)

Module JSObject.

Local Open Scope N_scope.

(** Own string-keyed properties in creation order. *)
Definition t (V : Type) : Type := list (string * V).

(** The properties every plain object inherits from [Object.prototype];
    reading one of them on an object that does not define it yields a
    function or an object, never a dictionary entry. *)
Definition inheritedKeys : list string :=
  [ "constructor"; "__proto__"; "hasOwnProperty"; "isPrototypeOf";
    "propertyIsEnumerable"; "toLocaleString"; "toString"; "valueOf";
    "__defineGetter__"; "__defineSetter__";
    "__lookupGetter__"; "__lookupSetter__" ].

Definition isInherited (k : string) : bool :=
  existsb (String.eqb k) inheritedKeys.

Definition getOwn {V} (o : t V) (k : string) : option V :=
  option_map snd (find (fun kv => String.eqb (fst kv) k) o).

Fixpoint digitsValue (acc : N) (s : string) : option N :=
  match s with
  | EmptyString => Some acc
  | String c r =>
      if JS.isDigit c
      then digitsValue (10 * acc + (N.of_nat (JS.code c) - 48)) r
      else None
  end.

(** A key is an array index when it is the canonical decimal form of an
    integer below [2^32 - 1]. *)
Definition arrayIndex (k : string) : option N :=
  match k with
  | EmptyString => None
  | String c r =>
      if Ascii.eqb c "0"%char && JS.truthy r then None
      else match digitsValue 0 k with
           | Some v => if v <? 4294967295 then Some v else None
           | None => None
           end
  end.

Fixpoint insertSorted (x : N * string) (l : list (N * string))
  : list (N * string) :=
  match l with
  | [] => [x]
  | y :: r => if fst x <? fst y then x :: l else y :: insertSorted x r
  end.

(** [Object.keys(o)]: array-index keys in ascending numeric order, then
    the other keys in creation order. *)
Definition keys {V} (o : t V) : list string :=
  let ks := map fst o in
  let indexKeys :=
    fold_left
      (fun acc k =>
         match arrayIndex k with
         | Some v => insertSorted (v, k) acc
         | None => acc
         end) ks [] in
  map snd indexKeys ++
  filter (fun k => match arrayIndex k with Some _ => false | None => true end)
         ks.

End JSObject.

(** ** scripts/dom-parser.js: the colour class of a method *)

Module MethodColor.

Definition colorMap : JSObject.t string :=
  [ ("get", "method-get"); ("post", "method-post"); ("put", "method-put");
    ("delete", "method-delete"); ("patch", "method-patch");
    ("options", "method-options"); ("head", "method-head") ].

(** [getMethodColor].  [colorMap[methodLower]] reads an own entry, an
    inherited property or [undefined]; [None] is the case where the result
    is an inherited property, which is truthy and not a class name. *)
Definition getMethodColor (method : string) : option string :=
  let methodLower := JS.toLowerCase method in
  match JSObject.getOwn colorMap methodLower with
  | Some c => Some (JS.orElse c "method-default")
  | None =>
      if JSObject.isInherited methodLower then None
      else Some "method-default"
  end.

End MethodColor.

(** ** scripts/sidebar-ui.js *)

Module SidebarUI.
Import DOM DOMParser.

(** What the panel shows for one operation: the values that
    [renderOperation] interpolates into the markup of the item, and whether
    its star button carries the class [starred].  The markup is parsed by
    [innerHTML]; [attributeValue], [itemDataset] and [textPlain] below say
    what the parsed elements hold for the interpolated values. *)
Record Item : Type := {
  data_method : string;
  data_path : string;
  item_summary : string;
  item_deprecated : bool;
  item_starred : bool
}.

(** One [div.tag-section] of the rendered list.  The markup is produced as
    an HTML string and parsed by [innerHTML]; the record keeps the parts the
    scripts read back: the class tokens of the section, the [data-tag-id]
    of its header, the name, the count, the description and the items. *)
Record TagSection : Type := {
  section_classes : list string;
  data_tag_id : string;
  tag_name : string;
  tag_count : nat;
  tag_description : string;
  items : list Item
}.

(** The content of [#swagger-nav-list]. *)
Inductive ListContent : Type :=
| LoadingState
| EmptyState
| Rendered (sections : list TagSection).

(** The variables of the module closure.  [sidebarElement] is [None] while
    the variable is [null]; otherwise it holds the content of the list. *)
Record State : Type := {
  sidebarElement : option ListContent;
  isCollapsed : bool;
  activeTagId : option string;
  searchTerm : string;
  allOperations : list Operation;
  starredRouteKeys : JSSet.t
}.

Definition initialState : State :=
  {| sidebarElement := None; isCollapsed := false; activeTagId := None;
     searchTerm := ""; allOperations := []; starredRouteKeys := [] |}.

Definition nl : string := String "010"%char "".

(** The template literal of [filterOperations], before [toLowerCase]. *)
Definition searchableText (op : Operation) : string :=
  nl ++ "        " ++ method op ++ " " ++
  nl ++ "        " ++ path op ++ " " ++
  nl ++ "        " ++ summary op ++ " " ++
  nl ++ "        " ++ operationId op ++
  nl ++ "      ".

Definition filterOperations (operations : list Operation) (term : string)
  : list Operation :=
  if negb (JS.truthy term) then operations
  else
    filter (fun op =>
              let searchableText := JS.toLowerCase (searchableText op) in
              JS.includes searchableText term)
           operations.

Record Group : Type := {
  operations : list Operation;
  description : string
}.

Definition tagOf (op : Operation) : string :=
  match tagName op with
  | Some t => JS.orElse t "Untagged"
  | None => "Untagged"
  end.

Fixpoint pushTo (tag : string) (op : Operation) (o : JSObject.t Group)
  : JSObject.t Group :=
  match o with
  | [] => []
  | (k, g) :: r =>
      if String.eqb k tag
      then (k, {| operations := operations g ++ [op];
                  description := description g |}) :: r
      else (k, g) :: pushTo tag op r
  end.

(** [groupOperationsByTag].  [None] is the [TypeError] raised by
    [grouped[tag].operations.push(op)] when [tag] names an inherited
    property: [!grouped[tag]] is then false although no group exists. *)
Definition groupOperationsByTag (operations : list Operation)
  : option (JSObject.t Group) :=
  fold_left
    (fun acc op =>
       match acc with
       | None => None
       | Some grouped =>
           let tag := tagOf op in
           match JSObject.getOwn grouped tag with
           | Some _ => Some (pushTo tag op grouped)
           | None =>
               if JSObject.isInherited tag then None
               else
                 Some (pushTo tag op
                         (grouped ++
                            [(tag, {| operations := [];
                                      description := "" |})]))
           end
       end)
    operations (Some []).

Definition renderOperation (document : Document) (starredRouteKeys : JSSet.t)
           (op : Operation) (isInStarredSection : bool) : Item :=
  let routeKey :=
    StorageManager.generateRouteKey document (method op) (path op) in
  let isStarred := JSSet.has starredRouteKeys routeKey in
  {| data_method := method op;
     data_path := path op;
     item_summary := summary op;
     item_deprecated := isDeprecated op;
     item_starred := isStarred |}.

Definition renderStarredSection (document : Document)
           (starredRouteKeys : JSSet.t) (starredOps : list Operation)
  : TagSection :=
  {| section_classes := ["tag-section"; "starred-section"];
     data_tag_id := "starred";
     tag_name := "Starred Routes";
     tag_count := List.length starredOps;
     tag_description := "";
     items := map (fun op => renderOperation document starredRouteKeys op true)
                  starredOps |}.

Definition renderTag (document : Document) (starredRouteKeys : JSSet.t)
           (tagName : string) (operations : list Operation)
           (tagDescription : string) : TagSection :=
  let tagId := ("tag-" ++ JS.replaceSpaces (JS.toLowerCase tagName))%string in
  {| section_classes := ["tag-section"; "collapsed"];
     data_tag_id := tagId;
     tag_name := tagName;
     tag_count := List.length operations;
     tag_description := tagDescription;
     items := map (fun op => renderOperation document starredRouteKeys op false)
                  operations |}.

Definition withList (s : State) (c : ListContent) : State :=
  {| sidebarElement := Some c; isCollapsed := isCollapsed s;
     activeTagId := activeTagId s; searchTerm := searchTerm s;
     allOperations := allOperations s;
     starredRouteKeys := starredRouteKeys s |}.

(** [renderOperations].  [None] is a [TypeError]: [sidebarElement] is
    [null], or grouping raised. *)
Definition renderOperations (document : Document) (s : State) : option State :=
  match sidebarElement s with
  | None => None
  | Some _ =>
      let filteredOps := filterOperations (allOperations s) (searchTerm s) in
      match groupOperationsByTag filteredOps with
      | None => None
      | Some groupedByTag =>
          let starredOps :=
            filter (fun op =>
                      let routeKey :=
                        StorageManager.generateRouteKey
                          document (method op) (path op) in
                      JSSet.has (starredRouteKeys s) routeKey)
                   filteredOps in
          let html :=
            (if (0 <? List.length starredOps)%nat
             then [renderStarredSection document (starredRouteKeys s) starredOps]
             else []) in
          let html :=
            fold_left
              (fun html tagName =>
                 match JSObject.getOwn groupedByTag tagName with
                 | Some tagData =>
                     html ++ [renderTag document (starredRouteKeys s) tagName
                                        (operations tagData)
                                        (description tagData)]
                 | None => html
                 end)
              (JSObject.keys groupedByTag) html in
          Some (withList s (match html with
                            | [] => EmptyState
                            | _ => Rendered html
                            end))
      end
  end.

(** [handleSearch]: the input event of the search field. *)
Definition handleSearch (document : Document) (value : string) (s : State)
  : option State :=
  renderOperations document
    {| sidebarElement := sidebarElement s; isCollapsed := isCollapsed s;
       activeTagId := activeTagId s;
       searchTerm := JS.trim (JS.toLowerCase value);
       allOperations := allOperations s;
       starredRouteKeys := starredRouteKeys s |}.

(** [refreshOperations]: both assignments are made before rendering. *)
Definition refreshed (document : Document) (st : Chrome.storage) (s : State)
  : State :=
  {| sidebarElement := sidebarElement s; isCollapsed := isCollapsed s;
     activeTagId := activeTagId s; searchTerm := searchTerm s;
     allOperations := extractAllOperations document;
     starredRouteKeys := StorageManager.getStarredRoutes st |}.

Definition refreshOperations (document : Document) (st : Chrome.storage)
           (s : State) : option State :=
  renderOperations document (refreshed document st s).

(** *** The markup as [innerHTML] reads it

    [renderOperation] writes [data-method="${op.method}"] and
    [data-path="${op.path}"] without escaping, and the listeners read
    [dataset.method] and [dataset.path] back from the parsed elements. *)

(** The value of an attribute written [name="${s}"]: the parser ends the
    value at the first double quote of [s].  Before that quote an ampersand
    may start a character reference, a carriage return is turned into a line
    feed and NUL is replaced; the value is then outside the model ([None]). *)
Fixpoint attributeValue (s : string) : option string :=
  match s with
  | EmptyString => Some EmptyString
  | String c r =>
      if (JS.code c =? 34)%nat then Some EmptyString
      else if (JS.code c =? 38)%nat || (JS.code c =? 13)%nat
              || (JS.code c =? 0)%nat
      then None
      else option_map (String c) (attributeValue r)
  end.

(** A value that an attribute gives back as it is. *)
Definition attrPlain (s : string) : bool :=
  match attributeValue s with
  | Some v => String.eqb v s
  | None => false
  end.

(** A value that, interpolated as the content of an element, is parsed as
    one text with that value: it holds no [<], no ampersand, no carriage
    return and no NUL. *)
Fixpoint textPlain (s : string) : bool :=
  match s with
  | EmptyString => true
  | String c r =>
      negb ((JS.code c =? 60)%nat || (JS.code c =? 38)%nat
            || (JS.code c =? 13)%nat || (JS.code c =? 0)%nat)
      && textPlain r
  end.

(** [item.dataset.method] and [item.dataset.path] of the parsed
    [.operation-item].  When the method ends its attribute early, what
    follows it is read as further attributes, among which [data-path] may
    occur: outside the model ([None]). *)
Definition itemDataset (item : Item) : option (string * string) :=
  if attrPlain (data_method item)
  then option_map (fun path => (data_method item, path))
                  (attributeValue (data_path item))
  else None.

(** The click listener of an [.operation-item], for a click outside the
    star button: the element that is looked up by [item.dataset.method] and
    [item.dataset.path] and, when found, scrolled to.  The outer [None] is
    that of [itemDataset]. *)
Definition operationItemClick (document : Document) (item : Item)
  : option (option node) :=
  match itemDataset item with
  | Some (method, path) => Some (findOperationElement document method path)
  | None => None
  end.

(** [el.classList.toggle(c)] *)
Definition classList_toggle (cl : list string) (c : string) : list string :=
  if existsb (String.eqb c) cl
  then filter (fun x => negb (String.eqb x c)) cl
  else cl ++ [c].

Definition toggleSection (sec : TagSection) : TagSection :=
  {| section_classes := classList_toggle (section_classes sec) "collapsed";
     data_tag_id := data_tag_id sec; tag_name := tag_name sec;
     tag_count := tag_count sec; tag_description := tag_description sec;
     items := items sec |}.

Fixpoint toggleAt (k : nat) (l : list TagSection) : list TagSection :=
  match l, k with
  | [], _ => []
  | sec :: r, O => toggleSection sec :: r
  | sec :: r, S k' => sec :: toggleAt k' r
  end.

(** The click listener that [attachOperationListeners] puts on every
    [.tag-header]: the click on the header of the [k]-th section toggles the
    class [collapsed] of that section, and nothing else. *)
Definition clickTagHeader (k : nat) (s : State) : State :=
  match sidebarElement s with
  | Some (Rendered sections) => withList s (Rendered (toggleAt k sections))
  | _ => s
  end.

(** A section shows its operations unless it carries [collapsed]. *)
Definition isExpanded (sec : TagSection) : bool :=
  negb (existsb (String.eqb "collapsed") (section_classes sec)).

Definition sectionsOf (s : State) : list TagSection :=
  match sidebarElement s with
  | Some (Rendered sections) => sections
  | _ => []
  end.

(** [destroy] *)
Definition destroy (s : State) : State :=
  {| sidebarElement := None; isCollapsed := isCollapsed s;
     activeTagId := activeTagId s; searchTerm := searchTerm s;
     allOperations := allOperations s;
     starredRouteKeys := starredRouteKeys s |}.

(** [clearSearch]: the click on the clear button of the search field. *)
Definition clearSearch (document : Document) (s : State) : option State :=
  renderOperations document
    {| sidebarElement := sidebarElement s; isCollapsed := isCollapsed s;
       activeTagId := activeTagId s;
       searchTerm := "";
       allOperations := allOperations s;
       starredRouteKeys := starredRouteKeys s |}.

Definition SIDEBAR_ID : string := "swagger-nav-sidebar".

(** How an [async] function of the module ends: its promise is resolved,
    or rejected by a [TypeError], with the variables as they are then. *)
Inductive Settled : Type :=
| Resolved (s : State)
| Rejected (s : State).

(** [createSidebar].  The panel is kept in [State], not in the tree of the
    page, so that an element of the tree with the id of the panel is a
    foreign one.  The module would take it for its panel; what follows then
    depends on that element and is outside the model ([None]). *)
Definition createSidebar (document : Document) (s : State) : option State :=
  if document_some (hasId SIDEBAR_ID) document then None
  else Some (withList s LoadingState).

(** [init].  [setupKeyboardShortcuts] and [setupIntersectionObserver], which
    end it, register listeners and change no variable. *)
Definition init (document : Document) (st : Chrome.storage) (s : State)
  : option Settled :=
  match sidebarElement s with
  | Some _ => Some (Resolved s)
  | None =>
      let s :=
        {| sidebarElement := sidebarElement s; isCollapsed := isCollapsed s;
           activeTagId := activeTagId s; searchTerm := searchTerm s;
           allOperations := allOperations s;
           starredRouteKeys := StorageManager.getStarredRoutes st |} in
      match createSidebar document s with
      | None => None
      | Some s =>
          match refreshOperations document st s with
          | Some s' => Some (Resolved s')
          | None => Some (Rejected (refreshed document st s))
          end
      end
  end.

End SidebarUI.

(** ** The mutation handler module *)

Module MutationHandler.
Import DOM.

Local Open Scope nat_scope.

Definition DEBOUNCE_DELAY : nat := 300.

Definition starSelector : selector := ByClass "swagger-nav-star".
Definition summarySelector : selector := ByClass "opblock-summary".
Definition expandSelector : selector :=
  OrSel (ByClass "opblock-summary-control") (ByTagClassSubstring "svg" "arrow").

Definition starPoints : string :=
  "12 2 15.09 8.26 22 9.27 17 14.14 18.18 21.02 12 17.77 5.82 21.02 7 14.14 2 9.27 8.91 8.26 12 2".

(** [createStarButton]: the button element with its parsed [innerHTML]. *)
Definition createStarButton (method path : string) (isStarred : bool) : node :=
  Elem "button" ""
    (if isStarred then ["swagger-nav-star"; "starred"]
     else ["swagger-nav-star"])
    [ ("title", if isStarred then "Unstar this route" else "Star this route");
      ("data-method", method);
      ("data-path", path) ]
    [ Text (SidebarUI.nl ++ "      ");
      Elem "svg" "" []
        [ ("width", "20"); ("height", "20"); ("viewBox", "0 0 24 24");
          ("fill", if isStarred then "currentColor" else "none");
          ("stroke", "currentColor"); ("stroke-width", "2");
          ("stroke-linecap", "round"); ("stroke-linejoin", "round") ]
        [ Text (SidebarUI.nl ++ "        ");
          Elem "polygon" "" [] [("points", starPoints)] [];
          Text (SidebarUI.nl ++ "      ") ];
      Text (SidebarUI.nl ++ "    ") ].

(** The body of the [forEach] callback of [injectStarsIntoOperations],
    as a function of the live operation block. *)
Definition injectStar (document : Document) (starredRoutes : JSSet.t)
           (opBlock : node) : node :=
  match querySelector starSelector opBlock with
  | Some _ => opBlock
  | None =>
      match DOMParser.parseOperation opBlock with
      | None => opBlock
      | Some operation =>
          let routeKey :=
            StorageManager.generateRouteKey
              document (DOMParser.method operation) (DOMParser.path operation) in
          let isStarred := JSSet.has starredRoutes routeKey in
          let starButton :=
            createStarButton (DOMParser.method operation)
                             (DOMParser.path operation) isStarred in
          match
            editFirst summarySelector
              (fun summary =>
                 match insertBeforeFirst expandSelector starButton summary with
                 | Some summary' => summary'
                 | None => appendChild summary starButton
                 end)
              opBlock
          with
          | Some opBlock' => opBlock'
          | None => opBlock
          end
      end
  end.

(** [injectStarsIntoOperations].  [operations] is the static list returned
    by [querySelectorAll]; the callback then runs on its elements in order,
    each time on the tree as the previous calls left it.  An injection
    changes neither the number nor the order of the operation blocks, so the
    [k]-th element of the list is the [k]-th block of the live tree. *)
Definition injectStarsIntoOperations (st : Chrome.storage)
           (document : Document) : Document :=
  let operations := document_querySelectorAll (ByClass "opblock") document in
  let starredRoutes := StorageManager.getStarredRoutes st in
  let root :=
    fold_left
      (fun root k =>
         editNthSelf (ByClass "opblock")
                     (injectStar document starredRoutes) k root)
      (seq 0 (List.length operations))
      (documentElement document) in
  {| origin := origin document; title := title document;
     pathname := pathname document; documentElement := root |}.

(** A [MutationRecord] of type [childList]. *)
Record MutationRecord : Type := { addedNodes : list node }.

(** The two nested loops of [handleMutations], which stop at the first
    added element that is, or contains, an operation block. *)
Definition shouldReinit (mutations : list MutationRecord) : bool :=
  existsb
    (fun mutation =>
       existsb
         (fun node =>
            isElement node &&
            (matches (OrSel (ByClass "opblock") (ByClass "opblock-tag-section"))
                     node
             || match querySelector (ByClass "opblock") node with
                | Some _ => true
                | None => false
                end))
         (addedNodes mutation))
    mutations.

(** *** Timers and the state of the page *)

(** The timers of the window: the pending [setTimeout] tasks as
    [(id, due time)] in creation order.  The only callback the module
    registers is the one of [debouncedReinit]. *)
Record Timers : Type := {
  now : nat;
  pending : list (nat * nat);
  nextTimerId : nat
}.

(** The variables of the module closure. *)
Record Vars : Type := {
  observer : bool;
  isInitialized : bool;
  debounceTimer : option nat
}.

(** What the timer callback does, as seen from outside: the two calls, and
    the rejection of the promise of [refreshOperations] when rendering
    raises. *)
Inductive Call : Type :=
| CallInjectStars
| CallRefreshOperations
| RefreshRejected.

Record World : Type := {
  timers : Timers;
  vars : Vars;
  windowSidebarUI : bool;
  document : Document;
  storage : Chrome.storage;
  sidebar : SidebarUI.State;
  calls : list (nat * Call)
}.

Definition setTimers (w : World) (t : Timers) : World :=
  {| timers := t; vars := vars w; windowSidebarUI := windowSidebarUI w;
     document := document w; storage := storage w; sidebar := sidebar w;
     calls := calls w |}.

Definition setVars (w : World) (v : Vars) : World :=
  {| timers := timers w; vars := v; windowSidebarUI := windowSidebarUI w;
     document := document w; storage := storage w; sidebar := sidebar w;
     calls := calls w |}.

(** [setTimeout(callback, delay)] *)
Definition setTimeout (delay : nat) (t : Timers) : nat * Timers :=
  (nextTimerId t,
   {| now := now t;
      pending := pending t ++ [(nextTimerId t, now t + delay)];
      nextTimerId := S (nextTimerId t) |}).

(** [clearTimeout(id)]; [clearTimeout(null)] does nothing. *)
Definition clearTimeout (id : option nat) (t : Timers) : Timers :=
  match id with
  | None => t
  | Some i =>
      {| now := now t;
         pending := filter (fun p => negb (fst p =? i)) (pending t);
         nextTimerId := nextTimerId t |}
  end.

(** [injectStarsIntoOperations()] called and run to completion. *)
Definition runInjectStars (w : World) : World :=
  {| timers := timers w; vars := vars w;
     windowSidebarUI := windowSidebarUI w;
     document := injectStarsIntoOperations (storage w) (document w);
     storage := storage w; sidebar := sidebar w;
     calls := calls w ++ [(now (timers w), CallInjectStars)] |}.

(** [if (window.SidebarUI) window.SidebarUI.refreshOperations()]. The
    promise is not awaited: when rendering raises, the assignments made
    before it remain and the promise is rejected with nobody to handle it. *)
Definition runRefresh (w : World) : World :=
  if windowSidebarUI w then
    match SidebarUI.refreshOperations (document w) (storage w) (sidebar w) with
    | Some s =>
        {| timers := timers w; vars := vars w;
           windowSidebarUI := windowSidebarUI w;
           document := document w; storage := storage w;
           sidebar := s;
           calls := calls w ++ [(now (timers w), CallRefreshOperations)] |}
    | None =>
        {| timers := timers w; vars := vars w;
           windowSidebarUI := windowSidebarUI w;
           document := document w; storage := storage w;
           sidebar := SidebarUI.refreshed (document w) (storage w) (sidebar w);
           calls := calls w ++ [(now (timers w), CallRefreshOperations);
                                (now (timers w), RefreshRejected)] |}
    end
  else w.

(** The callback that [debouncedReinit] hands to [setTimeout]. *)
Definition reinit (w : World) : World := runRefresh (runInjectStars w).

Definition debouncedReinit (w : World) : World :=
  let w := setTimers w (clearTimeout (debounceTimer (vars w)) (timers w)) in
  let '(id, t) := setTimeout DEBOUNCE_DELAY (timers w) in
  setVars (setTimers w t)
          {| observer := observer (vars w);
             isInitialized := isInitialized (vars w);
             debounceTimer := Some id |}.

Definition handleMutations (mutations : list MutationRecord) (w : World)
  : World :=
  if shouldReinit mutations then debouncedReinit w else w.

Definition init (w : World) : World :=
  if isInitialized (vars w) then w
  else
    (* setupMutationObserver *)
    let w := setVars w {| observer := true;
                          isInitialized := isInitialized (vars w);
                          debounceTimer := debounceTimer (vars w) |} in
    (* setupStarInjection *)
    let w := runInjectStars w in
    setVars w {| observer := observer (vars w);
                 isInitialized := true;
                 debounceTimer := debounceTimer (vars w) |}.

Definition destroy (w : World) : World :=
  setVars w {| observer := false;
               isInitialized := false;
               debounceTimer := debounceTimer (vars w) |}.

Definition reinitialize (w : World) : World := runRefresh (runInjectStars w).

(** *** The event loop *)

Fixpoint insertByDue (x : nat * nat) (l : list (nat * nat))
  : list (nat * nat) :=
  match l with
  | [] => [x]
  | y :: r => if snd x <? snd y then x :: l else y :: insertByDue x r
  end.

(** The pending timers that are due at time [t], earliest first, timers
    with the same due time in creation order. *)
Definition dueAt (t : nat) (ts : Timers) : list (nat * nat) :=
  fold_left (fun acc p => insertByDue p acc)
            (filter (fun p => snd p <=? t) (pending ts)) [].

(** Run one due timer: it leaves the queue, the clock shows its due time
    and the callback runs.  A timer cleared meanwhile does not run. *)
Definition fire (w : World) (p : nat * nat) : World :=
  if existsb (fun q => fst q =? fst p) (pending (timers w)) then
    reinit
      (setTimers w
         {| now := Nat.max (now (timers w)) (snd p);
            pending := filter (fun q => negb (fst q =? fst p))
                              (pending (timers w));
            nextTimerId := nextTimerId (timers w) |})
  else w.

(** Let the time pass until [t]: the timers due by then run in order. *)
Definition advanceTo (t : nat) (w : World) : World :=
  let w := fold_left fire (dueAt t (timers w)) w in
  setTimers w {| now := Nat.max (now (timers w)) t;
                 pending := pending (timers w);
                 nextTimerId := nextTimerId (timers w) |}.

(** [cleanup] of the content script: [SidebarUI.destroy()] and then
    [MutationHandler.destroy()]. *)
Definition cleanup (w : World) : World :=
  destroy
    {| timers := timers w; vars := vars w;
       windowSidebarUI := windowSidebarUI w;
       document := document w; storage := storage w;
       sidebar := SidebarUI.destroy (sidebar w);
       calls := calls w |}.

(** What can happen to the module from outside. *)
Inductive Event : Type :=
| ObserverCallback (mutations : list MutationRecord)
| Init
| Destroy
| Cleanup
| Reinitialize.

(** The mutation observer calls back only while it is connected. *)
Definition handle (e : Event) (w : World) : World :=
  match e with
  | ObserverCallback mutations =>
      if observer (vars w) then handleMutations mutations w else w
  | Init => init w
  | Destroy => destroy w
  | Cleanup => cleanup w
  | Reinitialize => reinitialize w
  end.

(** Events arrive with their time; the timers due before an event run
    before it. *)
Definition step (w : World) (te : nat * Event) : World :=
  handle (snd te) (advanceTo (fst te) w).

Definition run (events : list (nat * Event)) (w : World) : World :=
  fold_left step events w.

(** The reconciliations recorded in a world: the times at which
    [injectStarsIntoOperations] was called, and those at which the sidebar
    was refreshed. *)
Definition injectTimes (w : World) : list nat :=
  map fst (filter (fun c => match snd c with
                            | CallInjectStars => true
                            | _ => false
                            end) (calls w)).
Definition rejections (w : World) : list nat :=
  map fst (filter (fun c => match snd c with
                            | RefreshRejected => true
                            | _ => false
                            end) (calls w)).
Definition refreshTimes (w : World) : list nat :=
  map fst (filter (fun c => match snd c with
                            | CallRefreshOperations => true
                            | _ => false
                            end) (calls w)).

End MutationHandler.

(** ** Vocabulary of the statements *)

(** A string without the character [:], as every HTTP method token is. *)
Definition colonFree (s : string) : bool := negb (JS.includes s ":").

Module Examples.
Import DOM.

Definition emptyPage : node := Elem "html" "" [] [] [].

Definition petsDoc : Document :=
  {| origin := "https://pets.example"; title := "Pets API";
     pathname := "/docs"; documentElement := emptyPage |}.

(** Two documents whose titles differ by a suffix that starts with [::]. *)
Definition apiDoc : Document :=
  {| origin := "https://api.example"; title := "API";
     pathname := "/docs"; documentElement := emptyPage |}.
Definition apiV2Doc : Document :=
  {| origin := "https://api.example"; title := "API::v2";
     pathname := "/v2/docs"; documentElement := emptyPage |}.

(** Two deployments that keep the default title and the same path. *)
Definition defaultDocA : Document :=
  {| origin := "https://a.example"; title := "Swagger UI";
     pathname := "/swagger-ui/index.html"; documentElement := emptyPage |}.
Definition defaultDocB : Document :=
  {| origin := "https://b.example"; title := "Swagger UI";
     pathname := "/swagger-ui/index.html"; documentElement := emptyPage |}.

Definition petsStore : Chrome.storage :=
  [(StorageManager.STORAGE_KEY, ["Pets API::GET::/pets"])].

(** An operation block as Swagger UI renders it: the summary row holds the
    method, the path, the description and the expand control. *)
Definition opblock (m p s : string) : node :=
  Elem "div" "" ["opblock"] []
    [ Elem "div" "" ["opblock-summary"] []
        [ Elem "span" "" ["opblock-summary-method"] [] [Text m];
          Elem "span" "" ["opblock-summary-path"] [] [Text p];
          Elem "div" "" ["opblock-summary-description"] [] [Text s];
          Elem "button" "" ["opblock-summary-control"] [] [] ] ].

(** A block whose method cell has not been rendered yet. *)
Definition partialBlock (p : string) : node :=
  Elem "div" "" ["opblock"] []
    [ Elem "div" "" ["opblock-summary"] []
        [ Elem "span" "" ["opblock-summary-path"] [] [Text p] ] ].

Definition tagSection (tag : string) (blocks : list node) : node :=
  Elem "div" "" ["opblock-tag-section"] []
    (Elem "h3" "" ["opblock-tag"] [] [Text tag] :: blocks).

(** A page with two tag groups.  The first group holds a block that is
    only partly rendered; both groups list GET /pets. *)
Definition petsPage : node :=
  Elem "html" "" [] []
    [ Elem "body" "" [] []
        [ Elem "div" "swagger-ui" ["swagger-ui"] []
            [ tagSection "pets"
                [ opblock "get" "/pets" "List pets";
                  partialBlock "/pets/{id}";
                  opblock "post" "/pets" "Create a pet" ];
              tagSection "store"
                [ opblock "get" "/pets" "Pets on sale";
                  opblock "get" "/orders" "" ] ] ] ].

Definition petsPageDoc : Document :=
  {| origin := "https://pets.example"; title := "Pets API";
     pathname := "/docs"; documentElement := petsPage |}.

(** The panel right after [createSidebar], before the first rendering. *)
Definition freshPanel : SidebarUI.State :=
  {| SidebarUI.sidebarElement := Some SidebarUI.LoadingState;
     SidebarUI.isCollapsed := false;
     SidebarUI.activeTagId := None;
     SidebarUI.searchTerm := "";
     SidebarUI.allOperations := [];
     SidebarUI.starredRouteKeys := [] |}.

(** The state of the page once the panel and the mutation handler are
    initialised and idle. *)
Definition idleWorld : MutationHandler.World :=
  {| MutationHandler.timers :=
       {| MutationHandler.now := 0; MutationHandler.pending := [];
          MutationHandler.nextTimerId := 1 |};
     MutationHandler.vars :=
       {| MutationHandler.observer := true;
          MutationHandler.isInitialized := true;
          MutationHandler.debounceTimer := None |};
     MutationHandler.windowSidebarUI := true;
     MutationHandler.document := petsPageDoc;
     MutationHandler.storage := [];
     MutationHandler.sidebar := freshPanel;
     MutationHandler.calls := [] |}.

(** The host page adds an operation block. *)
Definition blockAdded : list MutationHandler.MutationRecord :=
  [ {| MutationHandler.addedNodes := [opblock "put" "/pets/{id}" ""] |} ].

Definition getPets : DOMParser.Operation :=
  {| DOMParser.method := "GET"; DOMParser.path := "/pets";
     DOMParser.summary := ""; DOMParser.operationId := "";
     DOMParser.isDeprecated := false;
     DOMParser.element := opblock "get" "/pets" "";
     DOMParser.id := "GET--pets";
     DOMParser.tagName := Some "pets"; DOMParser.tagId := Some "tag-pets" |}.

Definition postPets : DOMParser.Operation :=
  {| DOMParser.method := "POST"; DOMParser.path := "/pets";
     DOMParser.summary := "Create a pet"; DOMParser.operationId := "";
     DOMParser.isDeprecated := false;
     DOMParser.element := opblock "post" "/pets" "Create a pet";
     DOMParser.id := "POST--pets";
     DOMParser.tagName := Some "pets"; DOMParser.tagId := Some "tag-pets" |}.

End Examples.

(** [text] contains [term] up to the case of letters: some substring of
[text] and [term] have the same lower-case form. *)
Definition ciSubstring (text term : string) : Prop :=
  exists pre mid post,
    text = (pre ++ mid ++ post)%string /\
    JS.toLowerCase mid = JS.toLowerCase term.


(** The decision procedure for [ciSubstring]. *)
Definition ciIncludes (text term : string) : bool :=
  JS.includes (JS.toLowerCase text) (JS.toLowerCase term).

(** The operations that [parseOperation] reads out of a list of blocks, in
    the order of the blocks; a block without operation contributes nothing. *)
Definition parsedOperations (blocks : list DOM.node)
  : list DOMParser.Operation :=
  flat_map (fun b => match DOMParser.parseOperation b with
                     | Some op => [op]
                     | None => []
                     end) blocks.

(** A burst of observer callbacks: each arrives not before, and less than
    the debounce delay after, the previous one, which arrived at [t]. *)
Fixpoint burst (t : nat) (later : list nat) : Prop :=
  match later with
  | [] => True
  | t' :: r =>
      (t <= t' /\ t' < t + MutationHandler.DEBOUNCE_DELAY)%nat /\ burst t' r
  end.

(** The observer callbacks of a burst as timed events. *)
Definition callbacks (l : list (nat * list MutationHandler.MutationRecord))
  : list (nat * MutationHandler.Event) :=
  map (fun tm => (fst tm, MutationHandler.ObserverCallback (snd tm))) l.

(** The world [w] in the state pending-reconcile: the clock shows [t] and
    the one pending timer, number [i], is due one debounce delay later. *)
Definition armed (w : MutationHandler.World) (i t : nat) : MutationHandler.World :=
  MutationHandler.setVars
    (MutationHandler.setTimers w
       {| MutationHandler.now := t;
          MutationHandler.pending := [(i, t + MutationHandler.DEBOUNCE_DELAY)];
          MutationHandler.nextTimerId := S i |})
    {| MutationHandler.observer := MutationHandler.observer (MutationHandler.vars w);
       MutationHandler.isInitialized :=
         MutationHandler.isInitialized (MutationHandler.vars w);
       MutationHandler.debounceTimer := Some i |}.

(** ** Vocabulary of the injection statements *)

Module Injection.
Import DOM.

Definition opblockSelector : selector := ByClass "opblock".

(** The operation blocks of a page, in document order. *)
Definition blocks (d : Document) : list node :=
  document_querySelectorAll opblockSelector d.

(** Number of injected star controls inside a block. *)
Definition starCount (b : node) : nat :=
  List.length (querySelectorAll MutationHandler.starSelector b).

Definition present (sel : selector) (b : node) : bool :=
  match querySelector sel b with
  | Some _ => true
  | None => false
  end.

(** A block with method, path and summary elements. *)
Definition wellFormed (b : node) : bool :=
  present DOMParser.SELECTORS_method b &&
  present DOMParser.SELECTORS_path b &&
  present MutationHandler.summarySelector b.

(** The blocks that the callback of [injectStarsIntoOperations] leaves as
    they are: those that carry a star, those that do not parse, and those
    without summary element. *)
Definition settled (b : node) : bool :=
  present MutationHandler.starSelector b ||
  negb (present DOMParser.SELECTORS_method b) ||
  negb (present DOMParser.SELECTORS_path b) ||
  negb (present MutationHandler.summarySelector b).

(** Operation blocks do not contain operation blocks, as in the markup of
    Swagger UI. *)
Definition flat (root : node) : Prop :=
  Forall (fun b => querySelectorAll opblockSelector b = [])
         (select opblockSelector [root]).

(** The selectors under which no node of a star button falls. *)
Definition inert (s : selector) : Prop :=
  forall m p flag, select s [MutationHandler.createStarButton m p flag] = [].

(** [b'] is [b] with star buttons added among its descendants, as far as
    the tests of the callback can tell: the selectors that no star button
    matches select as many descendants as before, and the stars have not
    become fewer. *)
Definition grown (b b' : node) : Prop :=
  (forall s, inert s ->
             List.length (select s (childNodes b'))
             = List.length (select s (childNodes b))) /\
  (List.length (select MutationHandler.starSelector (childNodes b))
   <= List.length (select MutationHandler.starSelector (childNodes b')))%nat.

(** Apply [f] to the element at index [k] of a list. *)
Fixpoint updateAt {A : Type} (k : nat) (f : A -> A) (l : list A) {struct l}
  : list A :=
  match l with
  | [] => []
  | x :: r =>
      match k with
      | O => f x :: r
      | S k' => x :: updateAt k' f r
      end
  end.

End Injection.

(** ** scripts/content-script.js *)

Module ContentScript.
Import DOM.

(** The selectors [#swagger-ui], [.swagger-ui], [.information-container]
    and [.opblock-tag-section]. *)
Definition indicators : list (node -> bool) :=
  [ hasId "swagger-ui";
    matches (ByClass "swagger-ui");
    matches (ByClass "information-container");
    matches (ByClass "opblock-tag-section") ].

(** [detectSwaggerUI]: the loop returns at the first indicator found; the
    title is looked at when none is. *)
Definition detectSwaggerUI (document : Document) : bool :=
  if existsb (fun selector => document_some selector document) indicators
  then true
  else if JS.includes (JS.toLowerCase (title document)) "swagger" then true
  else false.

Definition withSidebar (w : MutationHandler.World) (s : SidebarUI.State)
  : MutationHandler.World :=
  {| MutationHandler.timers := MutationHandler.timers w;
     MutationHandler.vars := MutationHandler.vars w;
     MutationHandler.windowSidebarUI := MutationHandler.windowSidebarUI w;
     MutationHandler.document := MutationHandler.document w;
     MutationHandler.storage := MutationHandler.storage w;
     MutationHandler.sidebar := s;
     MutationHandler.calls := MutationHandler.calls w |}.

(** [initialize], from the moment at which the promise of
    [waitForSwaggerUI] is resolved.  A [TypeError] inside the [try] block,
    from a missing [window.SidebarUI] or from the rejected promise of
    [SidebarUI.init], is caught and logged, and the statements after it do
    not run.  The load indicator that ends the block is, like the panel, an
    element of the extension and not part of the tree of the page.  [None]
    as for [SidebarUI.createSidebar]. *)
Definition initialize (w : MutationHandler.World)
  : option MutationHandler.World :=
  match document_querySelectorAll (ByClass "opblock")
                                  (MutationHandler.document w) with
  | [] => Some w
  | _ :: _ =>
      if MutationHandler.windowSidebarUI w then
        match SidebarUI.init (MutationHandler.document w)
                             (MutationHandler.storage w)
                             (MutationHandler.sidebar w) with
        | None => None
        | Some (SidebarUI.Resolved s) =>
            Some (MutationHandler.init (withSidebar w s))
        | Some (SidebarUI.Rejected s) => Some (withSidebar w s)
        end
      else Some w
  end.

End ContentScript.

(** Every character of a string passes a test. *)
Fixpoint allChars (p : ascii -> bool) (s : string) : bool :=
  match s with
  | EmptyString => true
  | String c r => p c && allChars p r
  end.

(** ** Vocabulary of the grouping statements *)

Module Grouping.
Import DOMParser SidebarUI.

(** The operations filed under a tag. *)
Definition ofTag (tag : string) (op : Operation) : bool :=
  String.eqb (tagOf op) tag.

(** One round of the loop of [groupOperationsByTag]. *)
Definition groupStep (acc : option (JSObject.t Group)) (op : Operation)
  : option (JSObject.t Group) :=
  match acc with
  | None => None
  | Some grouped =>
      let tag := tagOf op in
      match JSObject.getOwn grouped tag with
      | Some _ => Some (pushTo tag op grouped)
      | None =>
          if JSObject.isInherited tag then None
          else
            Some (pushTo tag op
                    (grouped ++
                       [(tag, {| operations := [];
                                 description := "" |})]))
      end
  end.

(** The object [grouped] after the operations [seen]: its keys are the
    tags in the order of their first operation, and each group holds the
    operations of its tag in their order. *)
Definition groupedAfter (seen : list Operation) (grouped : JSObject.t Group)
  : Prop :=
  map fst grouped = JSSet.ofArray (map tagOf seen) /\
  forall tag grp,
    In (tag, grp) grouped ->
    operations grp = filter (ofTag tag) seen /\ description grp = "".

(** The sections that [renderOperations] writes for the tags [tags]. *)
Definition tagSections (d : DOM.Document) (keys : JSSet.t)
           (shown : list Operation) (tags : list string) : list TagSection :=
  map (fun tag => renderTag d keys tag (filter (ofTag tag) shown) "") tags.

(** The starred operations among [shown]. *)
Definition starredAmong (d : DOM.Document) (keys : JSSet.t)
           (shown : list Operation) : list Operation :=
  filter (fun op =>
            JSSet.has keys
              (StorageManager.generateRouteKey d (method op) (path op)))
         shown.

End Grouping.

(** ** Vocabulary of the scheduling statements *)

(** At most one timer is pending, and it is the one that [debounceTimer]
    names. *)
Definition singleTimer (w : MutationHandler.World) : Prop :=
  match MutationHandler.pending (MutationHandler.timers w) with
  | [] => True
  | [(i, _)] =>
      MutationHandler.debounceTimer (MutationHandler.vars w) = Some i
  | _ :: _ :: _ => False
  end.


(** An added node that makes [handleMutations] schedule a reconciliation:
    a tag section, or a node with an operation block in its subtree. *)
Definition qualifying (n : DOM.node) : Prop :=
  DOM.matches (DOM.ByClass "opblock-tag-section") n = true \/
  DOM.select (DOM.ByClass "opblock") [n] <> [].

(** ** The click listeners of the star buttons

    The listener that [createStarButton] puts on a button of the page
    (the mutation handler module) and the listener that
    [attachOperationListeners] puts on a star of the panel, with
    [updateStarInSwaggerUI] (scripts/sidebar-ui.js).  A listener runs to
    completion: the [await]s inside it are not interleaved with other
    events. *)

Module Clicks.
Import DOM MutationHandler.

Local Open Scope nat_scope.

(** [el.classList.toggle(c, force)] on the tokens of the class attribute *)
Definition classList_toggle_force (cl : list string) (c : string)
           (force : bool) : list string :=
  if force
  then (if existsb (String.eqb c) cl then cl else cl ++ [c])
  else filter (fun x => negb (String.eqb x c)) cl.

(** [el.setAttribute(name, value)]: an attribute that exists keeps its
    place, a new one comes last. *)
Fixpoint setAttribute (a : list (string * string)) (name value : string)
  : list (string * string) :=
  match a with
  | [] => [(name, value)]
  | (k, v) :: r =>
      if String.eqb k name then (k, value) :: r
      else (k, v) :: setAttribute r name value
  end.

Definition toggleClass (el : node) (c : string) (force : bool) : node :=
  match el with
  | Text _ => el
  | Elem t i cl a ch => Elem t i (classList_toggle_force cl c force) a ch
  end.

Definition setAttr (el : node) (name value : string) : node :=
  match el with
  | Text _ => el
  | Elem t i cl a ch => Elem t i cl (setAttribute a name value) ch
  end.

(** The type selector [tag] *)
Definition hasTag (tag : string) (n : node) : bool :=
  match n with
  | Text _ => false
  | Elem t _ _ _ _ => String.eqb t tag
  end.

Section EditFirstBy.
Variable p : node -> bool.
Variable f : node -> node.

Fixpoint editFirstSelfBy (n : node) : option node :=
  if p n then Some (f n)
  else match n with
       | Text _ => None
       | Elem t i cl a ch =>
           option_map (Elem t i cl a) (firstSome editFirstSelfBy ch)
       end.

(** [const x = el.querySelector(...); ...edit x...] for a test on nodes:
    [None] when [el] has no such descendant. *)
Definition editFirstBy (el : node) : option node :=
  match el with
  | Text _ => None
  | Elem t i cl a ch =>
      option_map (Elem t i cl a) (firstSome editFirstSelfBy ch)
  end.
End EditFirstBy.

Definition titleOf (isStarred : bool) : string :=
  if isStarred then "Unstar this route" else "Star this route".
Definition fillOf (isStarred : bool) : string :=
  if isStarred then "currentColor" else "none".

(** [const svg = el.querySelector('svg'); svg.setAttribute('fill', ...)]:
    [None] when there is no [svg] element. *)
Definition fillSvg (isStarred : bool) (el : node) : option node :=
  editFirstBy (hasTag "svg") (fun svg => setAttr svg "fill" (fillOf isStarred)) el.


Definition withRoot (d : Document) (root : node) : Document :=
  {| origin := origin d; title := title d; pathname := pathname d;
     documentElement := root |}.


(** The index of the element that the loop of [findOperationElement]
    returns. *)
Fixpoint findIndex (method path : string) (operations : list node)
  : option nat :=
  match operations with
  | [] => None
  | op :: rest =>
      if DOMParser.isOperation method path op then Some 0
      else option_map S (findIndex method path rest)
  end.

(** What [updateStarInSwaggerUI] does to the star it found: the class and,
    when there is an [svg] element, its [fill]. *)
Definition updateStarIcon (isStarred : bool) (starIcon : node) : node :=
  let starIcon := toggleClass starIcon "starred" isStarred in
  match fillSvg isStarred starIcon with
  | Some starIcon' => starIcon'
  | None => starIcon
  end.

(** ... and to the operation element it found. *)
Definition updateStarOf (isStarred : bool) (opElement : node) : node :=
  match editFirst starSelector (updateStarIcon isStarred) opElement with
  | Some opElement' => opElement'
  | None => opElement
  end.

Definition updateStarInSwaggerUI (d : Document) (method path : string)
           (isStarred : bool) : Document :=
  let operations :=
    document_querySelectorAll DOMParser.SELECTORS_operations d in
  match findIndex method path operations with
  | None => d
  | Some k =>
      withRoot d (editNthSelf DOMParser.SELECTORS_operations
                              (updateStarOf isStarred) k (documentElement d))
  end.

(** The item of the [j]-th star button of the [i]-th section of the
    panel. *)
Definition itemAt (i j : nat) (s : SidebarUI.State) : option SidebarUI.Item :=
  match nth_error (SidebarUI.sectionsOf s) i with
  | Some sec => nth_error (SidebarUI.items sec) j
  | None => None
  end.

(** [btn.classList.toggle('starred', isNowStarred)] and the [fill] of its
    icon, on that button of the panel. *)
Definition setButton (i j : nat) (isNowStarred : bool) (s : SidebarUI.State)
  : SidebarUI.State :=
  match SidebarUI.sidebarElement s with
  | Some (SidebarUI.Rendered sections) =>
      SidebarUI.withList s
        (SidebarUI.Rendered
           (Injection.updateAt i
              (fun sec =>
                 {| SidebarUI.section_classes := SidebarUI.section_classes sec;
                    SidebarUI.data_tag_id := SidebarUI.data_tag_id sec;
                    SidebarUI.tag_name := SidebarUI.tag_name sec;
                    SidebarUI.tag_count := SidebarUI.tag_count sec;
                    SidebarUI.tag_description := SidebarUI.tag_description sec;
                    SidebarUI.items :=
                      Injection.updateAt j
                        (fun it =>
                           {| SidebarUI.data_method := SidebarUI.data_method it;
                              SidebarUI.data_path := SidebarUI.data_path it;
                              SidebarUI.item_summary := SidebarUI.item_summary it;
                              SidebarUI.item_deprecated :=
                                SidebarUI.item_deprecated it;
                              SidebarUI.item_starred := isNowStarred |})
                        (SidebarUI.items sec) |})
              sections))
  | _ => s
  end.

(** The click listener of the [j]-th star button of the [i]-th section of
    the panel.  When the rendering at its end raises, the promise of the
    listener is rejected after the storage, the page, the button and the
    variables have been written.  [btn.dataset] is read from the record of
    the item, which is what the parsed button holds when the values of the
    item stand for themselves in the markup. *)
Definition panelStarClick (i j : nat) (w : World) : World :=
  match itemAt i j (sidebar w) with
  | None => w
  | Some item =>
      let method := SidebarUI.data_method item in
      let path := SidebarUI.data_path item in
      let '(isNowStarred, st) :=
        StorageManager.toggleStarred (document w) (storage w) method path in
      let panel := setButton i j isNowStarred (sidebar w) in
      let d := updateStarInSwaggerUI (document w) method path isNowStarred in
      {| timers := timers w; vars := vars w;
         windowSidebarUI := windowSidebarUI w;
         document := d; storage := st;
         sidebar :=
           match SidebarUI.refreshOperations d st panel with
           | Some s => s
           | None => SidebarUI.refreshed d st panel
           end;
         calls := calls w |}
  end.

End Clicks.

(** ** Vocabulary of the statements on texts and on the markup of the panel *)



(** A tree whose texts and ids lie in the ASCII range. *)
Fixpoint asciiNode (n : DOM.node) : bool :=
  match n with
  | DOM.Text s => JS.isAscii s
  | DOM.Elem _ i _ _ ch => JS.isAscii i && forallb asciiNode ch
  end.

Module Markup.
Import DOMParser SidebarUI.

(** A value that stands for itself in the markup, between the double quotes
    of an attribute and as the content of an element. *)
Definition plainText (s : string) : bool := attrPlain s && textPlain s.

(** An item whose values the parsed markup holds as they are. *)
Definition plainItem (it : Item) : bool :=
  plainText (data_method it) && plainText (data_path it) &&
  textPlain (item_summary it).

(** An operation that [renderOperation] and [renderTag] show as it is. *)
Definition plainOperation (op : Operation) : bool :=
  plainText (method op) && plainText (path op) && textPlain (summary op) &&
  plainText (tagOf op).

Definition plainSection (sec : TagSection) : bool :=
  plainText (tag_name sec) && forallb plainItem (items sec).

(** A panel whose records are what its parsed markup holds. *)
Definition plainPanel (s : State) : bool := forallb plainSection (sectionsOf s).

End Markup.

(** ** Further pages *)

Module Pages.
Import DOM Examples.

(** An operation block that holds another one in its body. *)
Definition nestedBlock : node :=
  Elem "div" "" ["opblock"] []
    [ Elem "div" "" ["opblock-summary"] []
        [ Elem "span" "" ["opblock-summary-method"] [] [Text "get"];
          Elem "span" "" ["opblock-summary-path"] [] [Text "/outer"];
          Elem "div" "" ["opblock-summary-description"] [] [Text "Outer"] ];
      Elem "div" "" ["opblock-body"] [] [ opblock "get" "/inner" "Inner" ] ].

Definition nestedPageDoc : Document :=
  {| origin := "https://pets.example"; title := "Pets API";
     pathname := "/docs";
     documentElement :=
       Elem "html" "" [] []
         [ Elem "body" "" [] []
             [ Elem "div" "swagger-ui" ["swagger-ui"] []
                 [ tagSection "pets" [nestedBlock] ] ] ] |}.

(** A page whose only block already carries two star controls. *)
Definition twoStarsDoc : Document :=
  {| origin := "https://pets.example"; title := "Pets API";
     pathname := "/docs";
     documentElement :=
       Elem "html" "" [] []
         [ Elem "body" "" [] []
             [ Elem "div" "swagger-ui" ["swagger-ui"] []
                 [ tagSection "pets"
                     [ Elem "div" "" ["opblock"] []
                         [ Elem "div" "" ["opblock-summary"] []
                             [ Elem "span" "" ["opblock-summary-method"] []
                                 [Text "get"];
                               Elem "span" "" ["opblock-summary-path"] []
                                 [Text "/pets"];
                               MutationHandler.createStarButton
                                 "GET" "/pets" false;
                               MutationHandler.createStarButton
                                 "GET" "/pets" false ] ] ] ] ] ] |}.

(** The path made of [/q/], a double quote and [x]. *)
Definition quotedPath : string := "/q/" ++ String "034"%char "x".

(** A page on which GET with that path is rendered twice, with GET [/q/]
    between the two blocks. *)
Definition quotePageDoc : Document :=
  {| origin := "https://pets.example"; title := "Pets API";
     pathname := "/docs";
     documentElement :=
       Elem "html" "" [] []
         [ Elem "body" "" [] []
             [ Elem "div" "swagger-ui" ["swagger-ui"] []
                 [ tagSection "quotes"
                     [ opblock "get" quotedPath "First";
                       opblock "get" "/q/" "Other" ];
                   tagSection "more"
                     [ opblock "get" quotedPath "Second" ] ] ] ] |}.

(** A page with a tag group whose name is that of an inherited property. *)
Definition constructorPageDoc : Document :=
  {| origin := "https://pets.example"; title := "Pets API";
     pathname := "/docs";
     documentElement :=
       Elem "html" "" [] []
         [ Elem "body" "" [] []
             [ Elem "div" "swagger-ui" ["swagger-ui"] []
                 [ tagSection "pets" [ opblock "get" "/pets" "List pets" ];
                   tagSection "constructor"
                     [ opblock "post" "/build" "Build" ] ] ] ] |}.

(** The state of a page before the extension starts: no timer, the
    modules loaded and not initialised. *)
Definition startWorld (d : Document) (st : Chrome.storage)
  : MutationHandler.World :=
  {| MutationHandler.timers :=
       {| MutationHandler.now := 0; MutationHandler.pending := [];
          MutationHandler.nextTimerId := 1 |};
     MutationHandler.vars :=
       {| MutationHandler.observer := false;
          MutationHandler.isInitialized := false;
          MutationHandler.debounceTimer := None |};
     MutationHandler.windowSidebarUI := true;
     MutationHandler.document := d;
     MutationHandler.storage := st;
     MutationHandler.sidebar := SidebarUI.initialState;
     MutationHandler.calls := [] |}.

(** A panel in use: its list is rendered and the user has typed a term. *)
Definition searchingPanel : SidebarUI.State :=
  {| SidebarUI.sidebarElement := Some (SidebarUI.Rendered []);
     SidebarUI.isCollapsed := false;
     SidebarUI.activeTagId := None;
     SidebarUI.searchTerm := "create";
     SidebarUI.allOperations := [];
     SidebarUI.starredRouteKeys := [] |}.

End Pages.

(** The tag object that [extractTags] builds for a tag section and its
    header. *)
Definition sectionTag (tagElement tagHeader : DOM.node) : DOMParser.Tag :=
  {| DOMParser.name := JS.trim (DOM.textContent tagHeader);
     DOMParser.tag_id :=
       JS.orElse (DOM.nodeId tagElement)
         ("tag-" ++ JS.replaceSpaces
                      (JS.toLowerCase (JS.trim (DOM.textContent tagHeader))));
     DOMParser.tag_element := tagElement |}.

(** * Properties *)

(** ** Strings *)

Section StringFacts.

Lemma append_nil_r (s : string) : (s ++ "")%string = s.
Proof. induction s as [|c s IH]; simpl; [reflexivity | now rewrite IH]. Qed.

Lemma append_assoc (a b c : string) :
  ((a ++ b) ++ c)%string = (a ++ (b ++ c))%string.
Proof. induction a as [|x a IH]; simpl; [reflexivity | now rewrite IH]. Qed.

Lemma length_append (a b : string) :
  String.length (a ++ b) = String.length a + String.length b.
Proof. induction a as [|x a IH]; simpl; [reflexivity | now rewrite IH]. Qed.

Lemma append_inj_l (p a b : string) :
  (p ++ a)%string = (p ++ b)%string -> a = b.
Proof.
  induction p as [|x p IH]; simpl; intros H; [exact H|].
  injection H as H. now apply IH.
Qed.

Lemma append_inj_r (a b r : string) :
  (a ++ r)%string = (b ++ r)%string -> a = b.
Proof.
  revert b. induction a as [|x a IH]; intros [|y b] H; simpl in H.
  - reflexivity.
  - apply (f_equal String.length) in H. simpl in H.
    rewrite length_append in H. lia.
  - apply (f_equal String.length) in H. simpl in H.
    rewrite length_append in H. lia.
  - injection H as Hx H. subst y. f_equal. now apply IH.
Qed.

Lemma startsWith_append (p r : string) : JS.startsWith (p ++ r) p = true.
Proof.
  induction p as [|x p IH]; simpl; [reflexivity|].
  now rewrite Ascii.eqb_refl, IH.
Qed.

Lemma startsWith_split (s p : string) :
  JS.startsWith s p = true <-> exists r, s = (p ++ r)%string.
Proof.
  split.
  - revert s. induction p as [|x p IH]; intros s H.
    + now exists s.
    + destruct s as [|y s]; simpl in H; [discriminate|].
      apply andb_true_iff in H as [Hc Hs].
      apply Ascii.eqb_eq in Hc. subst y.
      destruct (IH _ Hs) as [r ->]. now exists r.
  - intros [r ->]. apply startsWith_append.
Qed.

End StringFacts.

(** ** The starred set and the storage area *)

Module SetFacts.
Import JSSet.

Lemma has_true (s : t) (k : string) : has s k = true <-> In k s.
Proof.
  unfold has. rewrite existsb_exists. split.
  - intros [x [Hx He]]. apply String.eqb_eq in He. now subst.
  - intros H. exists k. split; [exact H | apply String.eqb_refl].
Qed.

Lemma has_false (s : t) (k : string) : has s k = false <-> ~ In k s.
Proof.
  rewrite <- has_true. destruct (has s k); split; congruence.
Qed.

Lemma fold_add_fresh (l acc : list string) :
  NoDup (acc ++ l) -> fold_left add l acc = acc ++ l.
Proof.
  revert acc. induction l as [|x l IH]; intros acc H; simpl.
  - now rewrite app_nil_r.
  - assert (Hx : has acc x = false).
    { apply has_false. intros Hin.
      apply NoDup_remove_2 in H. apply H.
      apply in_or_app. now left. }
    unfold add at 2. rewrite Hx.
    rewrite IH; rewrite <- app_assoc; simpl; [reflexivity | exact H].
Qed.

Lemma ofArray_NoDup_id (l : list string) : NoDup l -> ofArray l = l.
Proof. intros H. unfold ofArray. now rewrite fold_add_fresh. Qed.

Lemma add_NoDup (s : t) (k : string) : NoDup s -> NoDup (add s k).
Proof.
  intros H. unfold add. destruct (has s k) eqn:E; [exact H|].
  apply has_false in E.
  apply NoDup_app; [exact H | repeat constructor; intros [] | ].
  intros x Hx [<- | []]. contradiction.
Qed.

Lemma fold_add_NoDup (l acc : list string) :
  NoDup acc -> NoDup (fold_left add l acc).
Proof.
  revert acc. induction l as [|x l IH]; intros acc H; simpl; [exact H|].
  apply IH. now apply add_NoDup.
Qed.

Lemma ofArray_NoDup (l : list string) : NoDup (ofArray l).
Proof. apply fold_add_NoDup. constructor. Qed.

Lemma ofArray_idem (l : list string) : ofArray (ofArray l) = ofArray l.
Proof. apply ofArray_NoDup_id, ofArray_NoDup. Qed.

Lemma In_add (s : t) (k x : string) : In x (add s k) <-> In x s \/ x = k.
Proof.
  unfold add. destruct (has s k) eqn:E.
  - apply has_true in E. split; [now left | intros [H | ->]; assumption].
  - rewrite in_app_iff. simpl. intuition.
Qed.

Lemma In_fold_add (l acc : list string) (x : string) :
  In x (fold_left add l acc) <-> In x acc \/ In x l.
Proof.
  revert acc. induction l as [|y l IH]; intros acc; simpl.
  - intuition.
  - rewrite IH, In_add. intuition.
Qed.

Lemma In_ofArray (l : list string) (x : string) : In x (ofArray l) <-> In x l.
Proof. unfold ofArray. rewrite In_fold_add. simpl. intuition. Qed.

Lemma delete_absent (s : t) (k : string) : ~ In k s -> delete s k = s.
Proof.
  intros H. unfold delete. induction s as [|x s IH]; simpl; [reflexivity|].
  destruct (String.eqb_spec x k) as [-> | Hne]; simpl.
  - exfalso. apply H. now left.
  - f_equal. apply IH. intros Hin. apply H. now right.
Qed.

Lemma delete_last (s : t) (k : string) : ~ In k s -> delete (s ++ [k]) k = s.
Proof.
  intros H. unfold delete. rewrite filter_app. simpl.
  rewrite String.eqb_refl. simpl. rewrite app_nil_r.
  now apply delete_absent.
Qed.

End SetFacts.

Module StorageFacts.
Import StorageManager.

Lemma get_set (st : Chrome.storage) (k : string) (v : list string) :
  Chrome.get (Chrome.set st k v) k = Some v.
Proof. unfold Chrome.get, Chrome.set. simpl. now rewrite String.eqb_refl. Qed.

Lemma get_set_other (st : Chrome.storage) (k k' : string) (v : list string) :
  k' <> k -> Chrome.get (Chrome.set st k v) k' = Chrome.get st k'.
Proof.
  intros Hne. unfold Chrome.get, Chrome.set. simpl.
  destruct (String.eqb_spec k k') as [-> | _]; [congruence|].
  f_equal. induction st as [|[a b] st IH]; simpl; [reflexivity|].
  destruct (String.eqb_spec a k) as [-> | Hak]; simpl.
  - destruct (String.eqb_spec k k'); [congruence | exact IH].
  - destruct (String.eqb_spec a k'); [reflexivity | exact IH].
Qed.

Lemma getStarredRoutes_set (st : Chrome.storage) (v : list string) :
  getStarredRoutes (Chrome.set st STORAGE_KEY v) = JSSet.ofArray v.
Proof. unfold getStarredRoutes. now rewrite get_set. Qed.

Lemma getStarredRoutes_NoDup (st : Chrome.storage) : NoDup (getStarredRoutes st).
Proof. apply SetFacts.ofArray_NoDup. Qed.

End StorageFacts.

(** ** Route keys *)

Section RouteKeys.
Import DOM StorageManager.

Lemma colonFree_cons (c : ascii) (s : string) :
  colonFree (String c s) = negb (Ascii.eqb c ":"%char) && colonFree s.
Proof.
  unfold colonFree. simpl. rewrite andb_true_r. now rewrite negb_orb.
Qed.

(** The first colon of a string splits it in one way only. *)
Lemma colon_split (a b x y : string) :
  colonFree a = true -> colonFree b = true ->
  (a ++ String ":"%char x)%string = (b ++ String ":"%char y)%string ->
  a = b /\ x = y.
Proof.
  revert b. induction a as [|c a IH]; intros [|d b] Ha Hb H; simpl in H.
  - injection H as H. now split.
  - injection H as Hd _. subst d.
    rewrite colonFree_cons, Ascii.eqb_refl in Hb. discriminate.
  - injection H as Hc _. subst c.
    rewrite colonFree_cons, Ascii.eqb_refl in Ha. discriminate.
  - injection H as Hc H. subst d.
    rewrite colonFree_cons in Ha, Hb.
    apply andb_true_iff in Ha as [_ Ha]. apply andb_true_iff in Hb as [_ Hb].
    destruct (IH b Ha Hb H) as [-> ->]. now split.
Qed.

Lemma generateRouteKey_eq (d : Document) (m p : string) :
  generateRouteKey d m p
  = (getSpecIdentifier d ++ "::" ++ m ++ "::" ++ p)%string.
Proof. reflexivity. Qed.

Lemma generateRouteKey_same_spec (d : Document) (m p m' p' : string) :
  generateRouteKey d m p = generateRouteKey d m' p' ->
  (m ++ "::" ++ p)%string = (m' ++ "::" ++ p')%string.
Proof.
  rewrite !generateRouteKey_eq. intros H.
  apply append_inj_l in H. simpl in H. now injection H.
Qed.

Lemma generateRouteKey_startsWith (d : Document) (m p : string) :
  JS.startsWith (generateRouteKey d m p) (getSpecIdentifier d ++ "::") = true.
Proof.
  rewrite generateRouteKey_eq.
  replace (getSpecIdentifier d ++ "::" ++ m ++ "::" ++ p)%string
    with ((getSpecIdentifier d ++ "::") ++ (m ++ "::" ++ p))%string
    by (now rewrite append_assoc).
  apply startsWith_append.
Qed.

(** Keys of a colon-free identifier start with another colon-free
    identifier followed by [::] only when the identifiers are equal. *)
Lemma startsWith_colonFree (s s' rest : string) :
  colonFree s = true -> colonFree s' = true ->
  JS.startsWith (s' ++ "::" ++ rest) (s ++ "::") = true -> s' = s.
Proof.
  intros Hs Hs' H. apply startsWith_split in H as [r Hr].
  rewrite append_assoc in Hr. simpl in Hr.
  now destruct (colon_split _ _ _ _ Hs' Hs Hr).
Qed.

End RouteKeys.

Section StorageClaims.
Import DOM StorageManager Examples.

(** C5, as stated, fails in two ways.  Documents are told apart by title or
    path only: two deployments that keep the default title and use the same
    path are different documents with one specIdentifier, so GET /pets has the
    same key in both.  And under one specIdentifier the operations
    (GET, ::/pets) and (GET::, /pets) differ in method and in path and receive
    the same key. *)
Lemma generateRouteKey_collision :
  (origin defaultDocA <> origin defaultDocB /\
   generateRouteKey defaultDocA "GET" "/pets"
   = generateRouteKey defaultDocB "GET" "/pets") /\
  (("GET", "::/pets") <> ("GET::", "/pets") /\
   generateRouteKey petsDoc "GET" "::/pets"
   = generateRouteKey petsDoc "GET::" "/pets").
Proof. repeat split; discriminate. Qed.

(** C5 (amended).  The route key depends on the title and the path of the
    page and on the method and path of the operation only, so repeated calls
    agree.  Operations with the same method and path under different
    specIdentifiers have different keys.  Under one specIdentifier the keys
    of two operations that differ in method or in path are different
    whenever both methods are free of colons, as HTTP method tokens are; they
    are also different when only the path, or only the method, differs. *)
Theorem generateRouteKey_distinct (d d' : Document) (m p m' p' : string) :
  (title d = title d' -> pathname d = pathname d' ->
   generateRouteKey d m p = generateRouteKey d' m p) /\
  (getSpecIdentifier d <> getSpecIdentifier d' ->
   generateRouteKey d m p <> generateRouteKey d' m p) /\
  (colonFree m = true -> colonFree m' = true -> (m, p) <> (m', p') ->
   generateRouteKey d m p <> generateRouteKey d m' p') /\
  (p <> p' -> generateRouteKey d m p <> generateRouteKey d m p') /\
  (m <> m' -> generateRouteKey d m p <> generateRouteKey d m' p).
Proof.
  repeat split.
  - intros Ht Hp. unfold generateRouteKey, getSpecIdentifier.
    now rewrite Ht, Hp.
  - intros Hne H. apply Hne. rewrite !generateRouteKey_eq in H.
    now apply append_inj_r in H.
  - intros Hm Hm' Hne H. apply Hne.
    apply generateRouteKey_same_spec in H. simpl in H.
    now destruct (colon_split _ _ _ _ Hm Hm' H) as [-> Hp]; injection Hp as ->.
  - intros Hne H. apply Hne.
    apply generateRouteKey_same_spec in H.
    apply append_inj_l in H. simpl in H. now injection H.
  - intros Hne H. apply Hne.
    apply generateRouteKey_same_spec in H.
    now apply (append_inj_r m m' ("::" ++ p)%string).
Qed.

Lemma generateRouteKey_distinct_witness :
  generateRouteKey petsDoc "GET" "/pets"
  <> generateRouteKey apiDoc "GET" "/pets" /\
  generateRouteKey petsDoc "GET" "/pets"
  <> generateRouteKey petsDoc "POST" "/pets/{id}".
Proof.
  destruct (generateRouteKey_distinct petsDoc apiDoc "GET" "/pets"
                                      "POST" "/pets/{id}")
    as (_ & Hspec & Hop & _).
  split.
  - apply Hspec. vm_compute. discriminate.
  - apply Hop; [reflexivity | reflexivity | discriminate].
Defined.

(** C6.  When the key of a route is not in the stored starred set, the
    first [toggleStarred] resolves to [true] and the stored set becomes the
    old one followed by that key; a second [toggleStarred] on the same route
    resolves to [false] and the stored set is the old one again, with the
    same size and the same keys in the same order.  A stored array without
    repetitions, which is all the extension ever writes, is restored as it
    was. *)
Theorem toggleStarred_round_trip (d : Document) (st : Chrome.storage)
        (m p : string) :
  let routeKey := generateRouteKey d m p in
  let starred := getStarredRoutes st in
  JSSet.has starred routeKey = false ->
  let first := toggleStarred d st m p in
  let second := toggleStarred d (snd first) m p in
  fst first = true /\
  getStarredRoutes (snd first) = starred ++ [routeKey] /\
  fst second = false /\
  getStarredRoutes (snd second) = starred /\
  Chrome.get (snd second) STORAGE_KEY = Some (JSSet.toArray starred) /\
  JSSet.size (getStarredRoutes (snd second)) = JSSet.size starred /\
  (forall routes, Chrome.get st STORAGE_KEY = Some routes -> NoDup routes ->
                  Chrome.get (snd second) STORAGE_KEY = Some routes).
Proof.
  intros routeKey starred Habsent first second.
  assert (Hnot : ~ In routeKey starred) by now apply SetFacts.has_false.
  assert (Hnd : NoDup (starred ++ [routeKey])).
  { apply NoDup_app.
    - apply StorageFacts.getStarredRoutes_NoDup.
    - repeat constructor. intros [].
    - intros x Hx [<- | []]. contradiction. }
  assert (Hfirst : first = (true, Chrome.set st STORAGE_KEY (starred ++ [routeKey]))).
  { unfold first, toggleStarred. fold routeKey. fold starred.
    rewrite Habsent. unfold JSSet.add. rewrite Habsent.
    f_equal. apply SetFacts.has_true, in_or_app. right. now left. }
  assert (Hset1 : getStarredRoutes (snd first) = starred ++ [routeKey]).
  { rewrite Hfirst. simpl. rewrite StorageFacts.getStarredRoutes_set.
    now apply SetFacts.ofArray_NoDup_id. }
  assert (Hsecond : second = (false, Chrome.set (snd first) STORAGE_KEY starred)).
  { unfold second, toggleStarred. fold routeKey. rewrite Hset1.
    assert (Hin : JSSet.has (starred ++ [routeKey]) routeKey = true).
    { apply SetFacts.has_true, in_or_app. right. now left. }
    rewrite Hin, SetFacts.delete_last by exact Hnot.
    now rewrite Habsent. }
  assert (Hset2 : getStarredRoutes (snd second) = starred).
  { rewrite Hsecond. simpl. rewrite StorageFacts.getStarredRoutes_set.
    apply SetFacts.ofArray_NoDup_id, StorageFacts.getStarredRoutes_NoDup. }
  repeat split.
  - now rewrite Hfirst.
  - exact Hset1.
  - now rewrite Hsecond.
  - exact Hset2.
  - rewrite Hsecond. simpl. apply StorageFacts.get_set.
  - now rewrite Hset2.
  - intros routes Hget Hroutes. rewrite Hsecond. simpl.
    rewrite StorageFacts.get_set. f_equal.
    unfold starred, getStarredRoutes. rewrite Hget.
    now apply SetFacts.ofArray_NoDup_id.
Qed.

Lemma toggleStarred_round_trip_witness :
  let first := toggleStarred petsDoc petsStore "POST" "/pets" in
  let second := toggleStarred petsDoc (snd first) "POST" "/pets" in
  fst first = true /\
  getStarredRoutes (snd first)
  = ["Pets API::GET::/pets"; "Pets API::POST::/pets"] /\
  fst second = false /\
  Chrome.get (snd second) STORAGE_KEY = Some ["Pets API::GET::/pets"].
Proof.
  destruct (toggleStarred_round_trip petsDoc petsStore "POST" "/pets" eq_refl)
    as (H1 & H2 & H3 & _ & H5 & _).
  repeat split; assumption.
Defined.

(** C9, as stated, fails: a bookmark made on the document titled
    [API::v2] is deleted by a clear on the document titled [API]. *)
Lemma clearStarredRoutes_overreach :
  let other := generateRouteKey apiV2Doc "GET" "/pets" in
  let st := [(STORAGE_KEY, [other])] in
  getSpecIdentifier apiV2Doc <> getSpecIdentifier apiDoc /\
  In other (getStarredRoutes st) /\
  ~ In other (getStarredRoutes (clearStarredRoutes apiDoc st)).
Proof.
  vm_compute. repeat split.
  - discriminate.
  - now left.
  - intros [].
Qed.

(** C9 (amended).  [clearStarredRoutes] keeps, in their order, exactly the
    stored keys that do not start with the current specIdentifier followed
    by [::].  Hence no key generated under the current specIdentifier
    remains, and a key generated under another specIdentifier remains
    whenever neither identifier contains a colon.  The other items of the
    storage area are untouched. *)
Theorem clearStarredRoutes_scoped (d : Document) (st : Chrome.storage) :
  let cleared := clearStarredRoutes d st in
  getStarredRoutes cleared
  = filter (fun key => negb (JS.startsWith key (getSpecIdentifier d ++ "::")))
           (getStarredRoutes st) /\
  (forall m p, ~ In (generateRouteKey d m p) (getStarredRoutes cleared)) /\
  (forall d' m p,
      colonFree (getSpecIdentifier d) = true ->
      colonFree (getSpecIdentifier d') = true ->
      getSpecIdentifier d' <> getSpecIdentifier d ->
      In (generateRouteKey d' m p) (getStarredRoutes st) ->
      In (generateRouteKey d' m p) (getStarredRoutes cleared)) /\
  (forall k, k <> STORAGE_KEY -> Chrome.get cleared k = Chrome.get st k).
Proof.
  intros cleared.
  assert (Hcl : getStarredRoutes cleared
                = filter (fun key => negb (JS.startsWith key
                                             (getSpecIdentifier d ++ "::")))
                         (getStarredRoutes st)).
  { unfold cleared, clearStarredRoutes.
    rewrite StorageFacts.getStarredRoutes_set.
    apply SetFacts.ofArray_NoDup_id, NoDup_filter,
      StorageFacts.getStarredRoutes_NoDup. }
  repeat split.
  - exact Hcl.
  - intros m p Hin. rewrite Hcl in Hin. apply filter_In in Hin as [_ H].
    now rewrite generateRouteKey_startsWith in H.
  - intros d' m p Hd Hd' Hne Hin. rewrite Hcl. apply filter_In.
    split; [exact Hin|]. apply negb_true_iff.
    destruct (JS.startsWith _ _) eqn:E; [|reflexivity].
    exfalso. apply Hne. rewrite generateRouteKey_eq in E.
    now apply (startsWith_colonFree _ _ _ Hd Hd' E).
  - intros k Hk. unfold cleared, clearStarredRoutes.
    now apply StorageFacts.get_set_other.
Qed.

Lemma clearStarredRoutes_scoped_witness :
  let st := [(STORAGE_KEY, [generateRouteKey petsDoc "GET" "/pets";
                            generateRouteKey apiDoc "GET" "/pets"])] in
  In (generateRouteKey apiDoc "GET" "/pets")
     (getStarredRoutes (clearStarredRoutes petsDoc st)) /\
  ~ In (generateRouteKey petsDoc "GET" "/pets")
       (getStarredRoutes (clearStarredRoutes petsDoc st)).
Proof.
  intros st.
  destruct (clearStarredRoutes_scoped petsDoc st) as (_ & Hown & Hother & _).
  split.
  - apply Hother.
    + reflexivity.
    + reflexivity.
    + vm_compute. discriminate.
    + vm_compute. right. now left.
  - apply Hown.
Defined.

End StorageClaims.

(** ** Search *)

Section Search.
Import DOMParser SidebarUI Examples.

Lemma mapChars_append (f : ascii -> ascii) (a b : string) :
  JS.mapChars f (a ++ b) = (JS.mapChars f a ++ JS.mapChars f b)%string.
Proof. induction a as [|c a IH]; simpl; [reflexivity | now rewrite IH]. Qed.

(** A mapped string splits where its image splits. *)
Lemma mapChars_split (f : ascii -> ascii) (s a b : string) :
  JS.mapChars f s = (a ++ b)%string ->
  exists a' b', s = (a' ++ b')%string /\
                JS.mapChars f a' = a /\ JS.mapChars f b' = b.
Proof.
  revert s. induction a as [|c a IH]; intros s H.
  - exists ""%string, s. now repeat split.
  - destruct s as [|x s]; simpl in H; [discriminate|].
    injection H as Hc H. destruct (IH s H) as (a' & b' & -> & Ha & Hb).
    exists (String x a'), b'. simpl. now rewrite Hc, Ha.
Qed.

Lemma lowerChar_idem (c : ascii) : JS.lowerChar (JS.lowerChar c) = JS.lowerChar c.
Proof. destruct c as [[] [] [] [] [] [] [] []]; reflexivity. Qed.

Lemma upperChar_idem (c : ascii) : JS.upperChar (JS.upperChar c) = JS.upperChar c.
Proof. destruct c as [[] [] [] [] [] [] [] []]; reflexivity. Qed.

Lemma isSpace_lowerChar (c : ascii) : JS.isSpace (JS.lowerChar c) = JS.isSpace c.
Proof. destruct c as [[] [] [] [] [] [] [] []]; reflexivity. Qed.

Lemma toLowerCase_idem (s : string) :
  JS.toLowerCase (JS.toLowerCase s) = JS.toLowerCase s.
Proof.
  unfold JS.toLowerCase.
  induction s as [|c s IH]; simpl; [reflexivity|].
  now rewrite lowerChar_idem, IH.
Qed.

Lemma toUpperCase_idem (s : string) :
  JS.toUpperCase (JS.toUpperCase s) = JS.toUpperCase s.
Proof.
  unfold JS.toUpperCase.
  induction s as [|c s IH]; simpl; [reflexivity|].
  now rewrite upperChar_idem, IH.
Qed.




Lemma includes_startsWith (s t : string) :
  JS.startsWith s t = true -> JS.includes s t = true.
Proof. intros H. destruct s; simpl; now rewrite H. Qed.

Lemma includes_split (s t : string) :
  JS.includes s t = true <-> exists pre post, s = (pre ++ t ++ post)%string.
Proof.
  split.
  - induction s as [|c s IH]; simpl; intros H.
    + rewrite orb_false_r in H. apply startsWith_split in H as [r ->].
      now exists ""%string, r.
    + apply orb_true_iff in H as [H | H].
      * apply startsWith_split in H as [r ->]. now exists ""%string, r.
      * destruct (IH H) as (pre & post & ->). now exists (String c pre), post.
  - intros (pre & post & ->). induction pre as [|c pre IH].
    + change ("" ++ t ++ post)%string with (t ++ post)%string.
      apply includes_startsWith, startsWith_append.
    + simpl. simpl in IH. rewrite IH. apply orb_true_r.
Qed.

Lemma ciIncludes_spec (text term : string) :
  ciIncludes text term = true <-> ciSubstring text term.
Proof.
  unfold ciIncludes, ciSubstring. rewrite includes_split. split.
  - intros (pre & post & H).
    apply mapChars_split in H as (pre' & rest & -> & _ & H).
    apply mapChars_split in H as (mid & post' & -> & Hmid & _).
    now exists pre', mid, post'.
  - intros (pre & mid & post & -> & H).
    exists (JS.toLowerCase pre), (JS.toLowerCase post).
    unfold JS.toLowerCase in *. now rewrite !mapChars_append, H.
Qed.



(** The term is compared as it is: [filterOperations] lower-cases the text
    of the operation only, and [handleSearch] lower-cases what the user types
    before it stores it as the search term. *)
Lemma filterOperations_term_as_is :
  filterOperations [getPets; postPets] "Create" = [].
Proof. reflexivity. Qed.



End Search.

(** ** Extraction *)

Section Extraction.
Import DOM DOMParser Examples.

Lemma fold_left_push {A B : Type} (g : A -> option B) (l : list A) (acc : list B) :
  fold_left (fun acc x => match g x with
                          | Some y => acc ++ [y]
                          | None => acc
                          end) l acc
  = acc ++ flat_map (fun x => match g x with
                              | Some y => [y]
                              | None => []
                              end) l.
Proof.
  revert acc. induction l as [|x l IH]; intros acc; simpl.
  - now rewrite app_nil_r.
  - rewrite IH. destruct (g x); [now rewrite <- app_assoc | reflexivity].
Qed.

Lemma fold_left_append {A B : Type} (g : A -> B) (l : list A) (acc : list B) :
  fold_left (fun acc x => acc ++ [g x]) l acc = acc ++ map g l.
Proof.
  revert acc. induction l as [|x l IH]; intros acc; simpl.
  - now rewrite app_nil_r.
  - rewrite IH. now rewrite <- app_assoc.
Qed.

Lemma extractOperationsForTag_eq (tagElement : node) :
  extractOperationsForTag tagElement
  = parsedOperations (querySelectorAll SELECTORS_operations tagElement).
Proof.
  unfold extractOperationsForTag, parsedOperations.
  now rewrite (fold_left_push parseOperation).
Qed.

Lemma extractAll_fold (tags : list Tag) (acc : list Operation) :
  fold_left
    (fun allOperations tag =>
       fold_left (fun all op => all ++ [withTag op tag])
                 (extractOperationsForTag (tag_element tag)) allOperations)
    tags acc
  = acc ++ flat_map (fun tag => map (fun op => withTag op tag)
                                    (extractOperationsForTag (tag_element tag)))
                    tags.
Proof.
  revert acc. induction tags as [|tag tags IH]; intros acc; simpl.
  - now rewrite app_nil_r.
  - rewrite IH, (fold_left_append (fun op => withTag op tag)).
    now rewrite <- app_assoc.
Qed.

Lemma extractAllOperations_eq (d : Document) :
  extractAllOperations d
  = flat_map (fun tag => map (fun op => withTag op tag)
                             (extractOperationsForTag (tag_element tag)))
             (extractTags d).
Proof. unfold extractAllOperations. now rewrite extractAll_fold. Qed.

Lemma parsedOperations_app (l1 l2 : list node) :
  parsedOperations (l1 ++ l2) = parsedOperations l1 ++ parsedOperations l2.
Proof. unfold parsedOperations. apply flat_map_app. Qed.

Lemma parsedOperations_In (l : list node) (b : node) (op : Operation) :
  In b l -> parseOperation b = Some op -> In op (parsedOperations l).
Proof.
  intros Hb Hop. unfold parsedOperations. apply in_flat_map.
  exists b. split; [exact Hb|]. rewrite Hop. now left.
Qed.

Lemma parseOperation_None (b : node) :
  parseOperation b = None <->
  querySelector SELECTORS_method b = None \/
  querySelector SELECTORS_path b = None.
Proof.
  unfold parseOperation.
  destruct (querySelector SELECTORS_method b), (querySelector SELECTORS_path b);
    split; intros H; try reflexivity; try discriminate;
    try (now left); try (now right).
  destruct H; discriminate.
Qed.

Lemma extractTags_fold (l : list node) (acc : list Tag) :
  fold_left
    (fun tags tagElement =>
       match querySelector SELECTORS_tagHeader tagElement with
       | None => tags
       | Some tagHeader =>
           let tagName := JS.trim (textContent tagHeader) in
           let tagId :=
             JS.orElse (nodeId tagElement)
                       ("tag-" ++ JS.replaceSpaces (JS.toLowerCase tagName)) in
           tags ++ [ {| name := tagName; tag_id := tagId;
                        tag_element := tagElement |} ]
       end) l acc
  = acc ++
    flat_map
      (fun tagElement =>
         match querySelector SELECTORS_tagHeader tagElement with
         | None => []
         | Some tagHeader =>
             [ {| name := JS.trim (textContent tagHeader);
                  tag_id :=
                    JS.orElse (nodeId tagElement)
                      ("tag-" ++ JS.replaceSpaces
                                   (JS.toLowerCase
                                      (JS.trim (textContent tagHeader))));
                  tag_element := tagElement |} ]
         end) l.
Proof.
  revert acc. induction l as [|x l IH]; intros acc; simpl.
  - now rewrite app_nil_r.
  - rewrite IH. destruct (querySelector SELECTORS_tagHeader x); cbn zeta.
    + now rewrite <- app_assoc.
    + reflexivity.
Qed.

Lemma extractTags_eq (d : Document) :
  extractTags d
  = flat_map (fun sec => match querySelector SELECTORS_tagHeader sec with
                         | Some header => [sectionTag sec header]
                         | None => []
                         end)
             (document_querySelectorAll SELECTORS_operationTag d).
Proof.
  unfold extractTags. rewrite extractTags_fold. cbn [app].
  apply flat_map_ext. intros sec.
  now destruct (querySelector SELECTORS_tagHeader sec).
Qed.

(** C8.  A block without method element or without path element yields no
    operation, and only such blocks do.  Extraction is a total function of
    the page.  The operations of a tag group are those of its blocks in
    document order, so a block that yields none leaves the operations of the
    blocks before and after it in place.  The tags are those of all tag
    sections of the page that have a header, in document order, and the
    extracted list is made of the operations of these groups one after the
    other: whatever the other blocks of the page yield, every operation
    parsed from a block of a tag section with a header, in whichever group,
    is in the extracted list under the tag of that section. *)
Theorem parseOperation_partial_markup :
  (forall b,
      parseOperation b = None <->
      querySelector SELECTORS_method b = None \/
      querySelector SELECTORS_path b = None) /\
  (forall tagElement before bad after,
      querySelectorAll SELECTORS_operations tagElement = before ++ bad :: after ->
      parseOperation bad = None ->
      extractOperationsForTag tagElement
      = parsedOperations before ++ parsedOperations after) /\
  (forall tagElement b op,
      In b (querySelectorAll SELECTORS_operations tagElement) ->
      parseOperation b = Some op ->
      In op (extractOperationsForTag tagElement)) /\
  (forall d,
      extractTags d
      = flat_map (fun sec => match querySelector SELECTORS_tagHeader sec with
                             | Some header => [sectionTag sec header]
                             | None => []
                             end)
                 (document_querySelectorAll SELECTORS_operationTag d) /\
      extractAllOperations d
      = flat_map (fun tag =>
                    map (fun op => withTag op tag)
                        (parsedOperations
                           (querySelectorAll SELECTORS_operations
                                             (tag_element tag))))
                 (extractTags d)) /\
  (forall d sec header b op,
      In sec (document_querySelectorAll SELECTORS_operationTag d) ->
      querySelector SELECTORS_tagHeader sec = Some header ->
      In b (querySelectorAll SELECTORS_operations sec) ->
      parseOperation b = Some op ->
      In (sectionTag sec header) (extractTags d) /\
      In (withTag op (sectionTag sec header)) (extractAllOperations d)).
Proof.
  split; [exact parseOperation_None | split; [|split; [|split]]].
  - intros tagElement before bad after Hsplit Hbad.
    rewrite extractOperationsForTag_eq, Hsplit, parsedOperations_app.
    f_equal. unfold parsedOperations at 1. simpl. now rewrite Hbad.
  - intros tagElement b op Hb Hop.
    rewrite extractOperationsForTag_eq. now apply (parsedOperations_In _ b).
  - intros d. split; [apply extractTags_eq|].
    rewrite extractAllOperations_eq. apply flat_map_ext. intros tag.
    now rewrite extractOperationsForTag_eq.
  - intros d sec header b op Hsec Hheader Hb Hop.
    assert (Htag : In (sectionTag sec header) (extractTags d)).
    { rewrite extractTags_eq. apply in_flat_map. exists sec.
      split; [exact Hsec|]. rewrite Hheader. now left. }
    split; [exact Htag|].
    rewrite extractAllOperations_eq. apply in_flat_map.
    exists (sectionTag sec header). split; [exact Htag|].
    apply (in_map (fun op => withTag op (sectionTag sec header))).
    rewrite extractOperationsForTag_eq. now apply (parsedOperations_In _ b).
Qed.

Lemma parseOperation_partial_markup_witness :
  let store := tagSection "store"
                 [ opblock "get" "/pets" "Pets on sale";
                   opblock "get" "/orders" "" ] in
  let header := Elem "h3" "" ["opblock-tag"] [] [Text "store"] in
  parseOperation (partialBlock "/pets/{id}") = None /\
  map (fun op => (method op, path op, tagName op))
      (extractAllOperations petsPageDoc)
  = [ ("GET", "/pets", Some "pets"); ("POST", "/pets", Some "pets");
      ("GET", "/pets", Some "store"); ("GET", "/orders", Some "store") ] /\
  (exists op, parseOperation (opblock "get" "/orders" "") = Some op /\
              In (sectionTag store header) (extractTags petsPageDoc) /\
              In (withTag op (sectionTag store header))
                 (extractAllOperations petsPageDoc)).
Proof.
  intros store header.
  destruct parseOperation_partial_markup as (Hnone & _ & _ & _ & Hall).
  split; [|split].
  - apply Hnone. left. reflexivity.
  - reflexivity.
  - eexists. split; [reflexivity|].
    apply (Hall petsPageDoc store header (opblock "get" "/orders" "")).
    + vm_compute. right. now left.
    + reflexivity.
    + vm_compute. right. now left.
    + reflexivity.
Defined.

(** ** Lookup *)

Lemma findIn_spec (m p : string) (l : list node) :
  match findIn m p l with
  | Some b =>
      exists before after,
      l = before ++ b :: after /\
      isOperation m p b = true /\
      Forall (fun x => isOperation m p x = false) before
  | None => Forall (fun x => isOperation m p x = false) l
  end.
Proof.
  induction l as [|x l IH]; simpl.
  - constructor.
  - destruct (isOperation m p x) eqn:E.
    + exists [], l. repeat split; [exact E | constructor].
    + destruct (findIn m p l) as [b|].
      * destruct IH as (before & after & -> & Hb & Hbefore).
        exists (x :: before), after. repeat split; [exact Hb|].
        now constructor.
      * now constructor.
Qed.

Lemma isOperation_case (m m' p : string) (b : node) :
  JS.toUpperCase m' = JS.toUpperCase m ->
  isOperation m' p b = isOperation m p b.
Proof. intros H. unfold isOperation. now rewrite H. Qed.

Lemma findIn_case (m m' p : string) (l : list node) :
  JS.toUpperCase m' = JS.toUpperCase m -> findIn m' p l = findIn m p l.
Proof.
  intros H. induction l as [|x l IH]; simpl; [reflexivity|].
  now rewrite (isOperation_case m m' p x H), IH.
Qed.

Lemma isOperation_parsed (b : node) (op : Operation) :
  parseOperation b = Some op -> isOperation (method op) (path op) b = true.
Proof.
  unfold parseOperation, isOperation, opMethodOf, opPathOf.
  destruct (querySelector SELECTORS_method b) as [me|]; [|discriminate].
  destruct (querySelector SELECTORS_path b) as [pe|]; [|discriminate].
  intros H. injection H as <-. simpl.
  now rewrite toUpperCase_idem, !String.eqb_refl.
Qed.

Lemma isOperation_identity (m p : string) (b : node) :
  isOperation m p b = true ->
  exists op, parseOperation b = Some op /\
             method op = JS.toUpperCase m /\ path op = p.
Proof.
  unfold parseOperation, isOperation, opMethodOf, opPathOf.
  destruct (querySelector SELECTORS_method b) as [me|]; [|discriminate].
  destruct (querySelector SELECTORS_path b) as [pe|];
    [|simpl; rewrite andb_false_r; discriminate].
  simpl. intros H. apply andb_true_iff in H as [Hm Hp].
  apply String.eqb_eq in Hm, Hp.
  eexists. split; [reflexivity|]. simpl. now split.
Qed.

Lemma attributeValue_plain (s : string) :
  SidebarUI.attrPlain s = true -> SidebarUI.attributeValue s = Some s.
Proof.
  unfold SidebarUI.attrPlain.
  destruct (SidebarUI.attributeValue s) as [v|]; [|discriminate].
  intros H. apply String.eqb_eq in H. now subst.
Qed.

(** What an attribute gives back is the part of the interpolated value
    before its first double quote. *)
Lemma attributeValue_prefix (s v : string) :
  SidebarUI.attributeValue s = Some v ->
  JS.includes v (String "034"%char "") = false /\
  (v = s \/ exists rest, s = (v ++ String "034"%char rest)%string).
Proof.
  revert v. induction s as [|c s IH]; intros v; simpl.
  - intros [= <-]. split; [reflexivity | now left].
  - destruct (Nat.eqb_spec (JS.code c) 34) as [Hq | Hq].
    + intros [= <-]. split; [reflexivity|]. right. exists s. simpl.
      f_equal. unfold JS.code in Hq.
      rewrite <- (ascii_nat_embedding c), Hq. reflexivity.
    + destruct (_ || _); [discriminate|].
      destruct (SidebarUI.attributeValue s) as [v'|]; [|discriminate].
      intros [= <-]. destruct (IH v' eq_refl) as [Hno Hv]. split.
      * simpl. rewrite Hno.
        destruct (Ascii.eqb_spec c "034"%char) as [-> | _];
          [now contradiction Hq | now destruct v'].
      * destruct Hv as [-> | (rest & ->)]; [now left|].
        right. now exists rest.
Qed.

(** C10.  [findOperationElement] returns the first block, in document
    order, whose upper-cased method text equals the upper-cased method asked
    for and whose path text equals the path asked for; no block before it
    matches, and [null] is returned only when no block matches.  The case of
    the method asked for is irrelevant.  For an operation parsed from any
    block of the page whose method and path hold no double quote, ampersand,
    carriage return or NUL, the sidebar item carries that method and path,
    and a click on it finds a block with that same method and path which is
    that block or one before it, the first of its kind in document order.
    In general the item carries its method and the part of its path before
    the first double quote, and the click looks up these. *)
Theorem findOperationElement_first (d : Document) (m p : string) :
  let operations := document_querySelectorAll SELECTORS_operations d in
  match findOperationElement d m p with
  | Some b =>
      exists before after,
      operations = before ++ b :: after /\
      isOperation m p b = true /\
      Forall (fun x => isOperation m p x = false) before
  | None => Forall (fun x => isOperation m p x = false) operations
  end /\
  (forall m', JS.toUpperCase m' = JS.toUpperCase m ->
              findOperationElement d m' p = findOperationElement d m p) /\
  (forall b op keys inStarred,
      In b operations -> parseOperation b = Some op ->
      SidebarUI.attrPlain (method op) = true ->
      SidebarUI.attrPlain (path op) = true ->
      let item := SidebarUI.renderOperation d keys op inStarred in
      SidebarUI.itemDataset item = Some (method op, path op) /\
      exists first before after op',
        SidebarUI.operationItemClick d item = Some (Some first) /\
        operations = before ++ first :: after /\
        Forall (fun x => isOperation (method op) (path op) x = false) before /\
        In b (first :: after) /\
        parseOperation first = Some op' /\
        method op' = method op /\ path op' = path op) /\
  (forall item method path,
      SidebarUI.itemDataset item = Some (method, path) ->
      method = SidebarUI.data_method item /\
      JS.includes path (String "034"%char "") = false /\
      (path = SidebarUI.data_path item \/
       exists rest,
         SidebarUI.data_path item = (path ++ String "034"%char rest)%string) /\
      SidebarUI.operationItemClick d item
      = Some (findOperationElement d method path)).
Proof.
  intros operations. split; [|split; [|split]].
  - apply findIn_spec.
  - intros m' H. now apply findIn_case.
  - intros b op keys inStarred Hb Hop Hpm Hpp item.
    pose proof (isOperation_parsed b op Hop) as Hself.
    pose proof (findIn_spec (method op) (path op) operations) as Hfind.
    assert (Hdata : SidebarUI.itemDataset item = Some (method op, path op)).
    { unfold SidebarUI.itemDataset, item.
      cbn [SidebarUI.renderOperation SidebarUI.data_method SidebarUI.data_path].
      now rewrite Hpm, (attributeValue_plain _ Hpp). }
    split; [exact Hdata|].
    unfold SidebarUI.operationItemClick. rewrite Hdata.
    unfold findOperationElement. fold operations.
    destruct (findIn (method op) (path op) operations) as [first|].
    + destruct Hfind as (before & after & Hsplit & Hfirst & Hbefore).
      destruct (isOperation_identity _ _ _ Hfirst) as (op' & Hop' & Hm & Hp).
      exists first, before, after, op'. repeat split; try assumption.
      * rewrite Hsplit in Hb. apply in_app_or in Hb as [Hb | Hb]; [|exact Hb].
        rewrite Forall_forall in Hbefore. specialize (Hbefore b Hb).
        congruence.
      * rewrite Hm. unfold parseOperation in Hop.
        destruct (querySelector SELECTORS_method b); [|discriminate].
        destruct (querySelector SELECTORS_path b); [|discriminate].
        injection Hop as <-. simpl. apply toUpperCase_idem.
    + rewrite Forall_forall in Hfind. specialize (Hfind b Hb). congruence.
  - intros item meth pth Hdata.
    unfold SidebarUI.operationItemClick. rewrite Hdata.
    unfold SidebarUI.itemDataset in Hdata.
    destruct (SidebarUI.attrPlain (SidebarUI.data_method item)); [|discriminate].
    destruct (SidebarUI.attributeValue (SidebarUI.data_path item)) as [v|] eqn:E;
      [|discriminate].
    injection Hdata as <- <-.
    destruct (attributeValue_prefix _ v E) as [Hno Hv].
    now repeat split.
Qed.

Lemma findOperationElement_first_witness :
  findOperationElement petsPageDoc "get" "/pets"
  = Some (opblock "get" "/pets" "List pets") /\
  findOperationElement petsPageDoc "GET" "/pets"
  = findOperationElement petsPageDoc "get" "/pets" /\
  (exists op,
      parseOperation (opblock "get" "/pets" "Pets on sale") = Some op /\
      let item := SidebarUI.renderOperation petsPageDoc [] op false in
      SidebarUI.itemDataset item = Some (method op, path op) /\
      exists first before after op',
        SidebarUI.operationItemClick petsPageDoc item = Some (Some first) /\
        document_querySelectorAll SELECTORS_operations petsPageDoc
        = before ++ first :: after /\
        Forall (fun x => isOperation (method op) (path op) x = false) before /\
        In (opblock "get" "/pets" "Pets on sale") (first :: after) /\
        parseOperation first = Some op' /\
        method op' = method op /\ path op' = path op).
Proof.
  destruct (findOperationElement_first petsPageDoc "get" "/pets")
    as (_ & Hcase & Hjump & _).
  split; [reflexivity | split].
  - apply Hcase. reflexivity.
  - eexists. split; [reflexivity|].
    apply (Hjump (opblock "get" "/pets" "Pets on sale") _ [] false).
    + vm_compute. do 3 right. now left.
    + reflexivity.
    + reflexivity.
    + reflexivity.
Defined.

(** On a page that renders GET with the path [/q/], a double quote and [x]
    twice, with GET [/q/] between the two blocks, the lookup by method and
    path finds the first of the two blocks, and the click on the sidebar item
    of the second one does not: the item carries the path up to the double
    quote, and the block of GET [/q/] is found and scrolled to. *)
Lemma operationItemClick_truncated_path :
  let d := Pages.quotePageDoc in
  let first := opblock "get" Pages.quotedPath "First" in
  let other := opblock "get" "/q/" "Other" in
  let second := opblock "get" Pages.quotedPath "Second" in
  document_querySelectorAll SELECTORS_operations d = [first; other; second] /\
  exists op,
    parseOperation second = Some op /\
    method op = "GET" /\ path op = Pages.quotedPath /\
    findOperationElement d (method op) (path op) = Some first /\
    SidebarUI.itemDataset (SidebarUI.renderOperation d [] op false)
    = Some ("GET", "/q/") /\
    SidebarUI.operationItemClick d (SidebarUI.renderOperation d [] op false)
    = Some (Some other) /\
    other <> first.
Proof.
  cbv zeta. split; [reflexivity|]. eexists.
  split; [reflexivity|]. repeat split; try reflexivity. discriminate.
Qed.

End Extraction.

(** ** Rendering and the collapse state of the tag sections *)

Section Rendering.
Import DOM DOMParser SidebarUI Examples.

Lemma group_step_total (ops : list Operation) (acc : JSObject.t Group) :
  Forall (fun op => JSObject.isInherited (tagOf op) = false) ops ->
  exists g,
    fold_left
      (fun acc op =>
         match acc with
         | None => None
         | Some grouped =>
             let tag := tagOf op in
             match JSObject.getOwn grouped tag with
             | Some _ => Some (pushTo tag op grouped)
             | None =>
                 if JSObject.isInherited tag then None
                 else
                   Some (pushTo tag op
                           (grouped ++
                              [(tag, {| operations := [];
                                        description := "" |})]))
             end
         end)
      ops (Some acc) = Some g.
Proof.
  intros H. revert acc. induction H as [|op ops Hop _ IH]; intros acc; simpl.
  - now exists acc.
  - rewrite Hop. destruct (JSObject.getOwn acc (tagOf op)); apply IH.
Qed.

Lemma groupOperationsByTag_total (ops : list Operation) :
  Forall (fun op => JSObject.isInherited (tagOf op) = false) ops ->
  exists g, groupOperationsByTag ops = Some g.
Proof. apply group_step_total. Qed.

Lemma filterOperations_Forall (P : Operation -> Prop) (ops : list Operation)
      (term : string) :
  Forall P ops -> Forall P (filterOperations ops term).
Proof.
  intros H. unfold filterOperations.
  destruct (negb (JS.truthy term)); [exact H|].
  rewrite Forall_forall in *. intros op Hin.
  apply filter_In in Hin as [Hin _]. now apply H.
Qed.

Lemma renderTag_collapsed (d : Document) (keys : JSSet.t) (name : string)
      (ops : list Operation) (descr : string) :
  isExpanded (renderTag d keys name ops descr) = false /\
  String.eqb (data_tag_id (renderTag d keys name ops descr)) "starred" = false.
Proof. split; reflexivity. Qed.

Lemma rendered_tags_collapsed (d : Document) (keys : JSSet.t)
      (g : JSObject.t Group) (names : list string) (html : list TagSection) :
  Forall (fun sec => isExpanded sec = String.eqb (data_tag_id sec) "starred") html ->
  Forall (fun sec => isExpanded sec = String.eqb (data_tag_id sec) "starred")
         (fold_left
            (fun html tagName =>
               match JSObject.getOwn g tagName with
               | Some tagData =>
                   html ++ [renderTag d keys tagName (operations tagData)
                                      (description tagData)]
               | None => html
               end) names html).
Proof.
  revert html. induction names as [|n names IH]; intros html H; simpl.
  - exact H.
  - apply IH. destruct (JSObject.getOwn g n); [|exact H].
    apply Forall_app. split; [exact H|]. now repeat constructor.
Qed.

Lemma renderOperations_ignores_list (d : Document) (s : State) (c : ListContent) :
  sidebarElement s <> None ->
  renderOperations d (withList s c) = renderOperations d s.
Proof.
  intros H. unfold renderOperations.
  destruct (sidebarElement s) eqn:E; [|contradiction]. reflexivity.
Qed.

Lemma renderOperations_after_click (d : Document) (s : State) (k : nat) :
  renderOperations d (clickTagHeader k s) = renderOperations d s.
Proof.
  unfold clickTagHeader.
  destruct (sidebarElement s) as [[| |sections]|] eqn:E; try reflexivity.
  apply renderOperations_ignores_list. now rewrite E.
Qed.

(** C2, as stated, fails: the user expands the first tag section, the next
    refresh renders it collapsed again. *)
Lemma refreshOperations_resets_expansion :
  option_map (fun s => map isExpanded (sectionsOf (clickTagHeader 0 s)))
             (refreshOperations petsPageDoc [] freshPanel)
  = Some [true; false] /\
  match refreshOperations petsPageDoc [] freshPanel with
  | Some s =>
      option_map (fun s' => map isExpanded (sectionsOf s'))
                 (refreshOperations petsPageDoc [] (clickTagHeader 0 s))
  | None => None
  end = Some [false; false].
Proof. split; reflexivity. Qed.

(** C2 (amended).  While the panel exists and no tag is named like an
    inherited object property, [renderOperations] succeeds; what it renders
    does not depend on the sections shown before, so a click on a tag header
    has no effect on the next rendering; and in the rendered list the starred
    section is expanded and every tag section is collapsed. *)
Theorem renderOperations_collapse_defaults (d : Document) (s : State) :
  sidebarElement s <> None ->
  Forall (fun op => JSObject.isInherited (tagOf op) = false) (allOperations s) ->
  exists s',
    renderOperations d s = Some s' /\
    (forall k, renderOperations d (clickTagHeader k s) = Some s') /\
    (forall sec, In sec (sectionsOf s') ->
                 isExpanded sec = String.eqb (data_tag_id sec) "starred").
Proof.
  intros Hpanel Hops.
  assert (Hrender : exists s', renderOperations d s = Some s' /\
            Forall (fun sec => isExpanded sec
                               = String.eqb (data_tag_id sec) "starred")
                   (sectionsOf s')).
  { unfold renderOperations.
    destruct (sidebarElement s) eqn:E; [|contradiction].
    destruct (groupOperationsByTag_total
                (filterOperations (allOperations s) (searchTerm s))
                (filterOperations_Forall _ _ _ Hops)) as [g Hg].
    rewrite Hg. eexists. split; [reflexivity|].
    match goal with
    | |- context [fold_left ?f ?names ?html0] =>
        pose proof (rendered_tags_collapsed d (starredRouteKeys s) g names html0) as Hall;
        destruct (fold_left f names html0) eqn:Ehtml
    end.
    - constructor.
    - unfold sectionsOf. simpl. apply Hall.
      destruct (0 <? _)%nat; now repeat constructor. }
  destruct Hrender as (s' & Hs' & Hall).
  exists s'. split; [exact Hs' | split].
  - intros k. now rewrite renderOperations_after_click.
  - now apply Forall_forall.
Qed.

Lemma renderOperations_collapse_defaults_witness :
  exists s',
    renderOperations petsPageDoc
      (refreshed petsPageDoc [("swagger_starred_routes", ["Pets API::GET::/orders"])]
                 freshPanel) = Some s' /\
    map (fun sec => (data_tag_id sec, isExpanded sec)) (sectionsOf s')
    = [("starred", true); ("tag-pets", false); ("tag-store", false)].
Proof.
  destruct (renderOperations_collapse_defaults petsPageDoc
              (refreshed petsPageDoc
                 [("swagger_starred_routes", ["Pets API::GET::/orders"])]
                 freshPanel))
    as (s' & Hs' & _ & _).
  - discriminate.
  - vm_compute. repeat constructor.
  - exists s'. split; [exact Hs'|].
    vm_compute in Hs'. injection Hs' as <-. reflexivity.
Defined.

End Rendering.

(** ** The debounce timer *)

Section Debounce.
Import DOM MutationHandler Examples.

Local Open Scope nat_scope.

Lemma armed_armed (w : World) (i j t t' : nat) :
  armed (armed w i t) j t' = armed w j t'.
Proof. reflexivity. Qed.

Lemma armed_observer (w : World) (i t : nat) :
  observer (vars (armed w i t)) = observer (vars w).
Proof. reflexivity. Qed.

Lemma step_idle (w : World) (t : nat) (ms : list MutationRecord) :
  observer (vars w) = true ->
  pending (timers w) = [] ->
  now (timers w) <= t ->
  shouldReinit ms = true ->
  step w (t, ObserverCallback ms) = armed w (nextTimerId (timers w)) t.
Proof.
  destruct w as [[n p i] [o ini dt] sb doc sto side cs]. simpl.
  intros -> -> Hle Hq.
  unfold step, advanceTo, handle, handleMutations, debouncedReinit, dueAt, armed.
  simpl. rewrite Hq. simpl.
  rewrite (Nat.max_r n t Hle). now destruct dt.
Qed.

Lemma step_armed (w : World) (i t t' : nat) (ms : list MutationRecord) :
  observer (vars w) = true ->
  t <= t' < t + DEBOUNCE_DELAY ->
  shouldReinit ms = true ->
  step (armed w i t) (t', ObserverCallback ms) = armed w (S i) t'.
Proof.
  destruct w as [[n p j] [o ini dt] sb doc sto side cs]. simpl.
  intros -> [Hle Hlt] Hq.
  unfold step, advanceTo, handle, handleMutations, debouncedReinit, dueAt, armed.
  simpl.
  replace (t + DEBOUNCE_DELAY <=? t') with false
    by (symmetry; apply Nat.leb_gt; exact Hlt).
  simpl. rewrite Hq. simpl.
  rewrite Nat.eqb_refl. simpl. now rewrite (Nat.max_r t t' Hle).
Qed.

Lemma last_default {A : Type} (a : A) (l : list A) (d d' : A) :
  last (a :: l) d = last (a :: l) d'.
Proof.
  revert a. induction l as [|b l IH]; intros a; [reflexivity|].
  change (last (b :: l) d = last (b :: l) d'). apply IH.
Qed.

Lemma run_burst (rest : list (nat * list MutationRecord)) (w : World) (i t : nat) :
  observer (vars w) = true ->
  Forall (fun ms => shouldReinit ms = true) (map snd rest) ->
  burst t (map fst rest) ->
  run (callbacks rest) (armed w i t)
  = armed w (i + List.length rest) (last (map fst rest) t).
Proof.
  intros Hobs. revert i t.
  induction rest as [|[t' ms] rest IH]; intros i t Hq Hb.
  - simpl. now rewrite Nat.add_0_r.
  - simpl in Hq, Hb. inversion Hq as [|? ? Hms Hrest]; subst.
    destruct Hb as [Ht Hb].
    change (run (callbacks ((t', ms) :: rest)) (armed w i t))
      with (run (callbacks rest) (step (armed w i t) (t', ObserverCallback ms))).
    rewrite (step_armed w i t t' ms Hobs Ht Hms), (IH (S i) t' Hrest Hb).
    f_equal; [simpl; lia|].
    simpl. destruct (map fst rest) as [|a l]; [reflexivity|].
    apply last_default.
Qed.

Lemma injectTimes_calls (w w' : World) (extra : list (nat * Call)) :
  calls w' = calls w ++ extra ->
  injectTimes w'
  = injectTimes w
    ++ map fst (filter (fun c => match snd c with
                                 | CallInjectStars => true
                                 | _ => false
                                 end) extra).
Proof.
  intros H. unfold injectTimes. now rewrite H, filter_app, map_app.
Qed.

Lemma refreshTimes_calls (w w' : World) (extra : list (nat * Call)) :
  calls w' = calls w ++ extra ->
  refreshTimes w'
  = refreshTimes w
    ++ map fst (filter (fun c => match snd c with
                                 | CallRefreshOperations => true
                                 | _ => false
                                 end) extra).
Proof.
  intros H. unfold refreshTimes. now rewrite H, filter_app, map_app.
Qed.

(** The calls made by the timer callback. *)
Lemma reinit_calls (w : World) :
  exists extra,
    calls (reinit w) = calls w ++ (now (timers w), CallInjectStars) :: extra /\
    Forall (fun c => snd c <> CallInjectStars) extra /\
    map fst (filter (fun c => match snd c with
                              | CallRefreshOperations => true
                              | _ => false
                              end) extra)
    = (if windowSidebarUI w then [now (timers w)] else []) /\
    timers (reinit w) = timers w /\
    document (reinit w) = injectStarsIntoOperations (storage w) (document w).
Proof.
  unfold reinit, runRefresh, runInjectStars.
  cbn [windowSidebarUI document storage sidebar timers calls vars].
  destruct (windowSidebarUI w).
  - destruct (SidebarUI.refreshOperations _ _ _);
      cbn [windowSidebarUI document storage sidebar timers calls vars];
      rewrite <- app_assoc; eexists; (split; [reflexivity|]);
      repeat split; repeat constructor; discriminate.
  - cbn [windowSidebarUI document storage sidebar timers calls vars].
    exists []. now repeat split.
Qed.

Lemma filter_none {A : Type} (f : A -> bool) (l : list A) :
  Forall (fun x => f x = false) l -> filter f l = [].
Proof.
  induction 1 as [|x l Hx _ IH]; simpl; [reflexivity|]. now rewrite Hx.
Qed.

Lemma advanceTo_armed_early (w : World) (i t T : nat) :
  T < t + DEBOUNCE_DELAY ->
  calls (advanceTo T (armed w i t)) = calls w /\
  pending (timers (advanceTo T (armed w i t))) = [(i, t + DEBOUNCE_DELAY)] /\
  document (advanceTo T (armed w i t)) = document w.
Proof.
  intros Hlt. unfold advanceTo, dueAt, armed.
  cbn [setVars setTimers timers pending now vars calls document fst snd filter].
  replace (t + DEBOUNCE_DELAY <=? T) with false
    by (symmetry; apply Nat.leb_gt; exact Hlt).
  now repeat split.
Qed.

Lemma advanceTo_armed_late (w : World) (i t T : nat) :
  t + DEBOUNCE_DELAY <= T ->
  let w' := advanceTo T (armed w i t) in
  injectTimes w' = injectTimes w ++ [t + DEBOUNCE_DELAY] /\
  refreshTimes w'
  = refreshTimes w ++ (if windowSidebarUI w then [t + DEBOUNCE_DELAY] else []) /\
  pending (timers w') = [] /\
  document w' = injectStarsIntoOperations (storage w) (document w).
Proof.
  intros Hle w'. unfold w', advanceTo, dueAt, armed.
  cbn [setVars setTimers timers pending now vars calls document fst snd filter].
  replace (t + DEBOUNCE_DELAY <=? T) with true
    by (symmetry; apply Nat.leb_le; exact Hle).
  cbn [fold_left insertByDue]. unfold fire.
  cbn [setVars setTimers timers pending now vars calls document fst snd
       filter existsb].
  rewrite Nat.eqb_refl. cbn [orb negb].
  match goal with
  | |- context [reinit ?x] =>
      destruct (reinit_calls x) as (extra & Hc & Hi & Hr & Ht & Hd);
      set (fired := reinit x) in *
  end.
  cbn [setVars setTimers timers pending now vars calls document storage
       windowSidebarUI] in Hc, Hr, Ht, Hd.
  cbn [setVars setTimers timers pending now vars calls document].
  replace (Nat.max t (t + DEBOUNCE_DELAY)) with (t + DEBOUNCE_DELAY) in * by lia.
  split; [|split; [|split]].
  - unfold injectTimes, setTimers. cbn [calls]. rewrite Hc, filter_app, map_app.
    cbn [filter snd map fst]. rewrite (filter_none _ extra); [reflexivity|].
    apply (Forall_impl _ (P := fun c => snd c <> CallInjectStars)); [|exact Hi].
    intros [n c] Hn. simpl in *. now destruct c.
  - unfold refreshTimes, setTimers. cbn [calls]. rewrite Hc, filter_app, map_app.
    cbn [filter snd map fst]. now rewrite Hr.
  - now rewrite Ht.
  - exact Hd.
Qed.

(** C3.  From the idle state, a burst of qualifying observer callbacks in
    which each arrives less than the debounce delay after the previous one
    leads to no reconciliation before the delay has passed since the last of
    them, and to exactly one at that moment: one call of
    [injectStarsIntoOperations], one refresh of the sidebar when
    [window.SidebarUI] is defined, no timer left pending, and the page as one
    injection leaves it. *)
Theorem debounce_coalesces (w : World) (t1 : nat) (ms1 : list MutationRecord)
        (rest : list (nat * list MutationRecord)) (T : nat) :
  observer (vars w) = true ->
  pending (timers w) = [] ->
  now (timers w) <= t1 ->
  Forall (fun ms => shouldReinit ms = true) (ms1 :: map snd rest) ->
  burst t1 (map fst rest) ->
  let tN := last (map fst rest) t1 in
  let w' := advanceTo T (run (callbacks ((t1, ms1) :: rest)) w) in
  (T < tN + DEBOUNCE_DELAY -> calls w' = calls w) /\
  (tN + DEBOUNCE_DELAY <= T ->
   injectTimes w' = injectTimes w ++ [tN + DEBOUNCE_DELAY] /\
   refreshTimes w'
   = refreshTimes w ++ (if windowSidebarUI w then [tN + DEBOUNCE_DELAY] else []) /\
   pending (timers w') = [] /\
   document w' = injectStarsIntoOperations (storage w) (document w)).
Proof.
  intros Hobs Hidle Hnow Hq Hb tN w'.
  inversion Hq as [|? ? Hq1 Hqs]; subst.
  assert (Hrun : run (callbacks ((t1, ms1) :: rest)) w
                 = armed w (nextTimerId (timers w) + List.length rest) tN).
  { change (run (callbacks ((t1, ms1) :: rest)) w)
      with (run (callbacks rest) (step w (t1, ObserverCallback ms1))).
    rewrite (step_idle w t1 ms1 Hobs Hidle Hnow Hq1).
    now apply run_burst. }
  unfold w'. rewrite Hrun. split.
  - intros Hlt. now apply advanceTo_armed_early.
  - intros Hle. now apply advanceTo_armed_late.
Qed.

Lemma debounce_coalesces_witness :
  let events := [(0, blockAdded); (100, blockAdded); (350, blockAdded)] in
  calls (advanceTo 649 (run (callbacks events) idleWorld)) = [] /\
  injectTimes (advanceTo 1000 (run (callbacks events) idleWorld)) = [650] /\
  refreshTimes (advanceTo 1000 (run (callbacks events) idleWorld)) = [650].
Proof.
  intros events.
  assert (Hq : Forall (fun ms => shouldReinit ms = true)
                      (blockAdded :: map snd [(100, blockAdded); (350, blockAdded)]))
    by (repeat constructor).
  assert (Hb : burst 0 (map fst [(100, blockAdded); (350, blockAdded)]))
    by (simpl; unfold DEBOUNCE_DELAY; lia).
  split; [|split].
  - apply (debounce_coalesces idleWorld 0 blockAdded
             [(100, blockAdded); (350, blockAdded)] 649
             eq_refl eq_refl (Nat.le_refl 0) Hq Hb).
    simpl. unfold DEBOUNCE_DELAY. lia.
  - apply (debounce_coalesces idleWorld 0 blockAdded
             [(100, blockAdded); (350, blockAdded)] 1000
             eq_refl eq_refl (Nat.le_refl 0) Hq Hb).
    simpl. unfold DEBOUNCE_DELAY. lia.
  - apply (debounce_coalesces idleWorld 0 blockAdded
             [(100, blockAdded); (350, blockAdded)] 1000
             eq_refl eq_refl (Nat.le_refl 0) Hq Hb).
    simpl. unfold DEBOUNCE_DELAY. lia.
Defined.

(** The injected star buttons are no operation blocks and contain none:
    the mutations made by the injection itself do not arm the timer again. *)
Lemma star_button_not_qualifying (m p : string) (flag : bool) :
  shouldReinit [ {| addedNodes := [createStarButton m p flag] |} ] = false.
Proof. destruct flag; reflexivity. Qed.

(** C4 on the code: a qualifying mutation arrives at time 0 and the page is
    torn down at time 100, while the debounce timer is pending.  [destroy]
    disconnects the observer and leaves the timer in the queue; at time 300
    the timer fires, [injectStarsIntoOperations] runs and the sidebar refresh
    is called on the removed panel, where rendering raises. *)
Theorem destroy_keeps_debounce_timer :
  let torn := run [(0, ObserverCallback blockAdded); (100, Cleanup)] idleWorld in
  observer (vars torn) = false /\
  pending (timers torn) = [(1, 300)] /\
  calls (advanceTo 299 torn) = [] /\
  calls (advanceTo 300 torn)
  = [(300, CallInjectStars); (300, CallRefreshOperations); (300, RefreshRejected)] /\
  document (advanceTo 300 torn)
  = injectStarsIntoOperations (storage idleWorld) (document idleWorld) /\
  calls (advanceTo 300
           (run [(0, ObserverCallback blockAdded); (100, Destroy)] idleWorld))
  = [(300, CallInjectStars); (300, CallRefreshOperations)].
Proof. vm_compute. repeat split. Qed.

End Debounce.

(** ** Trees *)

Section Trees.
Import DOM Injection.

Local Open Scope nat_scope.

Lemma matches_text (sel : selector) (s : string) : matches sel (Text s) = false.
Proof.
  induction sel as [c|tag sub|s1 IH1 s2 IH2]; simpl; try reflexivity.
  now rewrite IH1, IH2.
Qed.

(** Whether an element matches depends on its tag and classes only. *)
Lemma matches_children (sel : selector) t i cl a (ch ch' : list node) :
  matches sel (Elem t i cl a ch) = matches sel (Elem t i cl a ch').
Proof.
  induction sel as [c|tag sub|s1 IH1 s2 IH2]; simpl; try reflexivity.
  now rewrite IH1, IH2.
Qed.

Lemma select_nil (sel : selector) : select sel [] = [].
Proof. reflexivity. Qed.

Lemma select_app (sel : selector) (l1 l2 : list node) :
  select sel (l1 ++ l2) = select sel l1 ++ select sel l2.
Proof. unfold select, nodes. now rewrite flat_map_app, filter_app. Qed.

Lemma select_cons (sel : selector) (c : node) (r : list node) :
  select sel (c :: r) = select sel [c] ++ select sel r.
Proof. apply (select_app sel [c] r). Qed.

Lemma select_text (sel : selector) (s : string) : select sel [Text s] = [].
Proof. unfold select. simpl. now rewrite matches_text. Qed.

Lemma select_elem (sel : selector) t i cl a (ch : list node) :
  select sel [Elem t i cl a ch]
  = (if matches sel (Elem t i cl a ch) then [Elem t i cl a ch] else [])
    ++ select sel ch.
Proof.
  unfold select, nodes. simpl. rewrite app_nil_r.
  now destruct (matches sel (Elem t i cl a ch)).
Qed.

Lemma countIn_eq (sel : selector) (n : node) :
  countIn sel n = List.length (select sel [n]).
Proof. reflexivity. Qed.

Lemma updateAt_app {A : Type} (k : nat) (f : A -> A) (l1 l2 : list A) :
  updateAt k f (l1 ++ l2)
  = if k <? List.length l1 then updateAt k f l1 ++ l2
    else l1 ++ updateAt (k - List.length l1) f l2.
Proof.
  revert k. induction l1 as [|x l1 IH]; intros k; simpl.
  - now rewrite Nat.sub_0_r.
  - destruct k as [|k]; [reflexivity|].
    change (S k <? S (List.length l1)) with (k <? List.length l1).
    cbn [updateAt app Nat.sub]. rewrite IH.
    now destruct (k <? List.length l1).
Qed.

Lemma updateAt_out {A : Type} (k : nat) (f : A -> A) (l : list A) :
  List.length l <= k -> updateAt k f l = l.
Proof.
  revert k. induction l as [|x l IH]; intros k H; simpl; [reflexivity|].
  destruct k as [|k]; simpl in H; [lia|]. f_equal. apply IH. lia.
Qed.

Lemma updateAt_length {A : Type} (k : nat) (f : A -> A) (l : list A) :
  List.length (updateAt k f l) = List.length l.
Proof.
  revert k. induction l as [|x l IH]; intros [|k]; simpl; auto.
Qed.

(** An index beyond the matches of a forest selects nothing. *)
Lemma nthScan_out (sel : selector) (inner : nat -> node -> node)
      (l : list node) (k : nat) :
  List.length (select sel l) <= k -> nthScan sel inner k l = l.
Proof.
  revert k. induction l as [|c r IH]; intros k H; simpl; [reflexivity|].
  rewrite select_cons, length_app in H.
  rewrite countIn_eq.
  replace (k <? List.length (select sel [c])) with false
    by (symmetry; apply Nat.ltb_ge; lia).
  f_equal. apply IH. lia.
Qed.

Lemma select_single (sel : selector) (n : node) :
  select sel [n]
  = (if matches sel n then [n] else []) ++ select sel (childNodes n).
Proof.
  destruct n as [s|t i cl a ch].
  - now rewrite select_text, matches_text.
  - apply select_elem.
Qed.

Section EditNthFacts.
Variable sel : selector.
Variable f : node -> node.

(** Editing a block that [f] leaves alone changes nothing. *)
Lemma nthScan_fixed (l : list node) :
  Forall (fun c => forall k,
              (forall b, nth_error (select sel [c]) k = Some b -> f b = b) ->
              editNthSelf sel f k c = c) l ->
  forall k,
    (forall b, nth_error (select sel l) k = Some b -> f b = b) ->
    nthScan sel (editNthSelf sel f) k l = l.
Proof.
  induction 1 as [|c r Hc _ IH]; intros k H; simpl; [reflexivity|].
  rewrite countIn_eq.
  destruct (k <? List.length (select sel [c])) eqn:E.
  - apply Nat.ltb_lt in E. f_equal. apply Hc. intros b Hb. apply H.
    rewrite select_cons, nth_error_app1; assumption.
  - apply Nat.ltb_ge in E. f_equal. apply IH. intros b Hb. apply H.
    rewrite select_cons, nth_error_app2; assumption.
Qed.

Lemma editNthSelf_fixed (n : node) (k : nat) :
  (forall b, nth_error (select sel [n]) k = Some b -> f b = b) ->
  editNthSelf sel f k n = n.
Proof.
  revert k. induction n as [s|t i cl a ch IH] using node_induction;
    intros k H; [reflexivity|].
  rewrite select_elem in H. cbn [editNthSelf].
  destruct (matches sel (Elem t i cl a ch)) eqn:Em.
  - destruct k as [|k].
    + apply H. reflexivity.
    + f_equal. apply nthScan_fixed; [exact IH|].
      intros b Hb. apply H. exact Hb.
  - f_equal. apply nthScan_fixed; [exact IH|]. exact H.
Qed.

Hypothesis f_matches : forall b, matches sel (f b) = matches sel b.
Hypothesis f_flat :
  forall b, select sel (childNodes b) = [] -> select sel (childNodes (f b)) = [].

(** In a forest without nested matches, editing the [k]-th match replaces
    the [k]-th entry of the list of matches and leaves the others as they
    are. *)
Lemma nthScan_flat (l : list node) :
  Forall (fun c => forall k,
              Forall (fun b => select sel (childNodes b) = []) (select sel [c]) ->
              select sel [editNthSelf sel f k c]
              = updateAt k f (select sel [c])) l ->
  forall k,
    Forall (fun b => select sel (childNodes b) = []) (select sel l) ->
    select sel (nthScan sel (editNthSelf sel f) k l)
    = updateAt k f (select sel l).
Proof.
  induction 1 as [|c r Hc _ IH]; intros k Hflat; simpl; [reflexivity|].
  rewrite select_cons in Hflat. apply Forall_app in Hflat as [Hfc Hfr].
  rewrite countIn_eq, (select_cons sel c r), updateAt_app.
  destruct (k <? List.length (select sel [c])) eqn:E.
  - rewrite select_cons. f_equal. now apply Hc.
  - rewrite select_cons. f_equal. now apply IH.
Qed.

Lemma editNthSelf_flat (n : node) (k : nat) :
  Forall (fun b => select sel (childNodes b) = []) (select sel [n]) ->
  select sel [editNthSelf sel f k n] = updateAt k f (select sel [n]).
Proof.
  revert k. induction n as [s|t i cl a ch IH] using node_induction;
    intros k Hflat.
  - simpl. now rewrite select_text.
  - cbn [editNthSelf]. rewrite select_elem in Hflat. rewrite (select_elem sel t).
    destruct (matches sel (Elem t i cl a ch)) eqn:Em.
    + simpl in Hflat. inversion Hflat as [|? ? Hn Hrest]; subst.
      simpl in Hn. rewrite Hn. cbn [app].
      destruct k as [|k]; cbn [updateAt].
      * rewrite select_single, f_matches, Em, f_flat by exact Hn. reflexivity.
      * rewrite nthScan_out by (rewrite Hn; simpl; lia).
        now rewrite select_elem, Em, Hn.
    + cbn [app] in *. rewrite select_elem.
      rewrite (matches_children sel t i cl a _ ch), Em. cbn [app].
      now apply nthScan_flat.
Qed.

End EditNthFacts.

Section EditFirstFacts.
Variable sel : selector.
Variable g : node -> node.

Lemma firstSome_none (l : list node) :
  Forall (fun n => editFirstSelf sel g n = None <-> select sel [n] = []) l ->
  (firstSome (editFirstSelf sel g) l = None <-> select sel l = []).
Proof.
  induction 1 as [|c r Hc _ IH]; simpl; [now split|].
  rewrite select_cons.
  destruct (editFirstSelf sel g c) as [c'|] eqn:E.
  - split; [discriminate|]. intros H. apply app_eq_nil in H as [H _].
    apply Hc in H. discriminate.
  - assert (Hn : select sel [c] = []) by now apply Hc.
    rewrite Hn. cbn [app].
    destruct (firstSome (editFirstSelf sel g) r); simpl.
    + split; [discriminate|]. intros H. apply IH in H. discriminate.
    + split; [intros _; now apply IH | reflexivity].
Qed.

Lemma editFirstSelf_none (n : node) :
  editFirstSelf sel g n = None <-> select sel [n] = [].
Proof.
  induction n as [s|t i cl a ch IH] using node_induction.
  - simpl. rewrite matches_text, select_text. now split.
  - cbn [editFirstSelf]. rewrite select_elem.
    destruct (matches sel (Elem t i cl a ch)).
    + split; discriminate.
    + cbn [app]. rewrite <- (firstSome_none ch IH).
      destruct (firstSome (editFirstSelf sel g) ch); simpl;
        split; congruence.
Qed.

Lemma editFirst_none (n : node) :
  editFirst sel g n = None <-> select sel (childNodes n) = [].
Proof.
  destruct n as [s|t i cl a ch]; simpl; [now split|].
  rewrite <- (firstSome_none ch).
  - destruct (firstSome (editFirstSelf sel g) ch); simpl; split; congruence.
  - apply Forall_forall. intros c _. apply editFirstSelf_none.
Qed.

Lemma editFirst_top (n n' : node) (q : selector) :
  editFirst sel g n = Some n' -> matches q n' = matches q n.
Proof.
  destruct n as [s|t i cl a ch]; simpl; [discriminate|].
  destruct (firstSome (editFirstSelf sel g) ch); simpl; [|discriminate].
  intros H. injection H as <-. apply matches_children.
Qed.

Variable s : selector.
Variable c : nat.
Hypothesis g_top : forall x, matches sel x = true -> matches s (g x) = matches s x.
Hypothesis g_count :
  forall x, matches sel x = true ->
            List.length (select s (childNodes (g x)))
            = List.length (select s (childNodes x)) + c.

Lemma firstSome_count (l : list node) :
  Forall (fun n => forall n',
              editFirstSelf sel g n = Some n' ->
              List.length (select s [n']) = List.length (select s [n]) + c) l ->
  forall l',
    firstSome (editFirstSelf sel g) l = Some l' ->
    List.length (select s l') = List.length (select s l) + c.
Proof.
  induction 1 as [|x r Hx _ IH]; intros l' H; simpl in H; [discriminate|].
  destruct (editFirstSelf sel g x) as [x'|] eqn:E.
  - injection H as <-. rewrite (select_cons s x'), (select_cons s x), !length_app.
    rewrite (Hx x' eq_refl). lia.
  - destruct (firstSome (editFirstSelf sel g) r) as [r'|]; [|discriminate].
    injection H as <-. rewrite (select_cons s x r'), (select_cons s x r), !length_app.
    rewrite (IH r' eq_refl). lia.
Qed.

Lemma editFirstSelf_count (n n' : node) :
  editFirstSelf sel g n = Some n' ->
  List.length (select s [n']) = List.length (select s [n]) + c.
Proof.
  revert n'. induction n as [x|t i cl a ch IH] using node_induction; intros n' H.
  - simpl in H. rewrite matches_text in H. discriminate.
  - cbn [editFirstSelf] in H.
    destruct (matches sel (Elem t i cl a ch)) eqn:Em.
    + injection H as <-.
      rewrite (select_single s (g _)), (select_single s (Elem t i cl a ch)).
      rewrite !length_app, g_top, g_count by exact Em.
      destruct (matches s (Elem t i cl a ch)); simpl; lia.
    + destruct (firstSome (editFirstSelf sel g) ch) as [ch'|] eqn:E;
        [|discriminate].
      injection H as <-. rewrite !select_elem, !length_app.
      rewrite (matches_children s t i cl a ch' ch).
      rewrite (firstSome_count ch IH ch' E).
      destruct (matches s (Elem t i cl a ch)); simpl; lia.
Qed.

Lemma editFirst_count (n n' : node) :
  editFirst sel g n = Some n' ->
  List.length (select s (childNodes n'))
  = List.length (select s (childNodes n)) + c.
Proof.
  destruct n as [x|t i cl a ch]; simpl; [discriminate|].
  destruct (firstSome (editFirstSelf sel g) ch) as [ch'|] eqn:E; [|discriminate].
  intros H. injection H as <-. simpl.
  apply (firstSome_count ch); [|exact E].
  apply Forall_forall. intros x _ x'. apply editFirstSelf_count.
Qed.

End EditFirstFacts.

Section InsertFacts.
Variable sel : selector.
Variable new : node.
Variable s : selector.

Lemma insertScan_count (l : list node) :
  Forall (fun n => forall n',
              insertBeforeFirst sel new n = Some n' ->
              List.length (select s (childNodes n'))
              = List.length (select s (childNodes n))
                + List.length (select s [new]) /\
              matches s n' = matches s n) l ->
  forall l',
    insertScan sel new (insertBeforeFirst sel new) l = Some l' ->
    List.length (select s l')
    = List.length (select s l) + List.length (select s [new]).
Proof.
  induction 1 as [|x r Hx _ IH]; intros l' H; simpl in H; [discriminate|].
  destruct (matches sel x).
  - injection H as <-.
    rewrite (select_cons s new), (select_cons s x r).
    rewrite !length_app. lia.
  - destruct (insertBeforeFirst sel new x) as [x'|] eqn:E.
    + injection H as <-. destruct (Hx x' eq_refl) as [Hc Hm].
      rewrite (select_cons s x'), (select_cons s x), !length_app.
      rewrite (select_single s x'), (select_single s x), !length_app, Hm, Hc.
      destruct (matches s x); simpl; lia.
    + destruct (insertScan sel new (insertBeforeFirst sel new) r) as [r'|];
        [|discriminate].
      injection H as <-.
      rewrite (select_cons s x r'), (select_cons s x r), !length_app.
      rewrite (IH r' eq_refl). lia.
Qed.

Lemma insertBeforeFirst_count (n n' : node) :
  insertBeforeFirst sel new n = Some n' ->
  List.length (select s (childNodes n'))
  = List.length (select s (childNodes n)) + List.length (select s [new]) /\
  matches s n' = matches s n.
Proof.
  revert n'. induction n as [x|t i cl a ch IH] using node_induction; intros n' H.
  - discriminate.
  - cbn [insertBeforeFirst] in H.
    destruct (insertScan sel new (insertBeforeFirst sel new) ch) as [ch'|] eqn:E;
      [|discriminate].
    injection H as <-. split; [|apply matches_children].
    simpl. now apply insertScan_count.
Qed.

Lemma appendChild_count (n : node) :
  isElement n = true ->
  List.length (select s (childNodes (appendChild n new)))
  = List.length (select s (childNodes n)) + List.length (select s [new]) /\
  matches s (appendChild n new) = matches s n.
Proof.
  destruct n as [x|t i cl a ch]; [discriminate|]. intros _. simpl.
  split; [|apply matches_children].
  now rewrite select_app, length_app.
Qed.

End InsertFacts.

End Trees.

(** *** Editing the [k]-th match of a tree with nested matches *)

Section EditNthCounts.
Import DOM Injection.
Local Open Scope nat_scope.

Variable o : selector.
Variable f : node -> node.
Variable s : selector.
Variable rel : nat -> nat -> Prop.
Hypothesis rel_refl : forall a, rel a a.
Hypothesis rel_add : forall a a' b b', rel a a' -> rel b b' -> rel (a + b) (a' + b').
Hypothesis f_rel :
  forall b, matches o b = true ->
            rel (List.length (select s [b])) (List.length (select s [f b])).

Lemma length_if (c : bool) (x : node) :
  List.length (if c then [x] else []) = if c then 1 else 0.
Proof. now destruct c. Qed.

Lemma nthScan_rel (l : list node) :
  Forall (fun c => forall k,
              rel (List.length (select s [c]))
                  (List.length (select s [editNthSelf o f k c]))) l ->
  forall k,
    rel (List.length (select s l))
        (List.length (select s (nthScan o (editNthSelf o f) k l))).
Proof.
  induction 1 as [|c r Hc _ IH]; intros k; simpl; [apply rel_refl|].
  destruct (k <? countIn o c).
  - rewrite (select_cons s c r), (select_cons s (editNthSelf o f k c) r).
    rewrite !length_app. apply rel_add; [apply Hc | apply rel_refl].
  - rewrite (select_cons s c r), (select_cons s c (nthScan _ _ _ r)).
    rewrite !length_app. apply rel_add; [apply rel_refl | apply IH].
Qed.

Lemma editNthSelf_rel (n : node) (k : nat) :
  rel (List.length (select s [n]))
      (List.length (select s [editNthSelf o f k n])).
Proof.
  revert k. induction n as [x|t i cl a ch IH] using node_induction; intros k.
  - apply rel_refl.
  - cbn [editNthSelf].
    destruct (matches o (Elem t i cl a ch)) eqn:Em; [destruct k as [|k]|].
    + now apply f_rel.
    + rewrite !select_elem, !length_app, !length_if.
      rewrite (matches_children s t i cl a (nthScan _ _ _ _) ch).
      apply rel_add; [apply rel_refl | now apply nthScan_rel].
    + rewrite !select_elem, !length_app, !length_if.
      rewrite (matches_children s t i cl a (nthScan _ _ _ _) ch).
      apply rel_add; [apply rel_refl | now apply nthScan_rel].
Qed.

Lemma nthScan_rel_all (l : list node) (k : nat) :
  rel (List.length (select s l))
      (List.length (select s (nthScan o (editNthSelf o f) k l))).
Proof.
  apply nthScan_rel. apply Forall_forall. intros c _ k'. apply editNthSelf_rel.
Qed.

End EditNthCounts.

Section EditNthNested.
Import DOM Injection.
Local Open Scope nat_scope.

Variable o : selector.
Variable f : node -> node.
Hypothesis f_matches : forall b, matches o (f b) = matches o b.
Hypothesis f_length :
  forall b, matches o b = true ->
            List.length (select o [b]) = List.length (select o [f b]).

Lemma editNthSelf_length (n : node) (k : nat) :
  List.length (select o [editNthSelf o f k n]) = List.length (select o [n]).
Proof.
  symmetry. apply (editNthSelf_rel o f o eq); try congruence.
  exact f_length.
Qed.

(** The [k]-th match of the edited tree is the edited [k]-th match. *)
Lemma nthScan_nth (l : list node) :
  Forall (fun c => forall k b,
              nth_error (select o [c]) k = Some b ->
              nth_error (select o [editNthSelf o f k c]) k = Some (f b)) l ->
  forall k b,
    nth_error (select o l) k = Some b ->
    nth_error (select o (nthScan o (editNthSelf o f) k l)) k = Some (f b).
Proof.
  induction 1 as [|c r Hc _ IH]; intros k b Hb; simpl.
  - destruct k; discriminate.
  - rewrite select_cons in Hb. rewrite countIn_eq.
    destruct (k <? List.length (select o [c])) eqn:E.
    + apply Nat.ltb_lt in E. rewrite nth_error_app1 in Hb by exact E.
      rewrite select_cons, nth_error_app1
        by (rewrite editNthSelf_length; exact E).
      now apply Hc.
    + apply Nat.ltb_ge in E. rewrite nth_error_app2 in Hb by exact E.
      rewrite select_cons, nth_error_app2 by exact E.
      now apply IH.
Qed.

Lemma editNthSelf_nth (n : node) (k : nat) (b : node) :
  nth_error (select o [n]) k = Some b ->
  nth_error (select o [editNthSelf o f k n]) k = Some (f b).
Proof.
  revert k b. induction n as [x|t i cl a ch IH] using node_induction;
    intros k b Hb.
  - rewrite select_text in Hb. destruct k; discriminate.
  - cbn [editNthSelf]. rewrite select_elem in Hb.
    destruct (matches o (Elem t i cl a ch)) eqn:Em; [destruct k as [|k]|].
    + injection Hb as <-. rewrite select_single, f_matches, Em. reflexivity.
    + rewrite select_elem, (matches_children o t i cl a (nthScan _ _ _ _) ch), Em.
      simpl in *. now apply nthScan_nth.
    + rewrite select_elem, (matches_children o t i cl a (nthScan _ _ _ _) ch), Em.
      simpl in *. now apply nthScan_nth.
Qed.

Variable R : node -> node -> Prop.
Hypothesis R_refl : forall b, R b b.
Hypothesis R_ancestor :
  forall t i cl a ch k,
    R (Elem t i cl a ch) (Elem t i cl a (nthScan o (editNthSelf o f) k ch)).

Lemma Forall2_refl (l : list node) : Forall2 R l l.
Proof. induction l; constructor; auto. Qed.

(** The matches before the edited one are the same nodes, or ancestors of
    the edited one. *)
Lemma nthScan_prefix (l : list node) :
  Forall (fun c => forall k,
              Forall2 R (firstn k (select o [c]))
                      (firstn k (select o [editNthSelf o f k c]))) l ->
  forall k,
    Forall2 R (firstn k (select o l))
            (firstn k (select o (nthScan o (editNthSelf o f) k l))).
Proof.
  induction 1 as [|c r Hc _ IH]; intros k; simpl.
  - apply Forall2_refl.
  - rewrite countIn_eq.
    destruct (k <? List.length (select o [c])) eqn:E.
    + apply Nat.ltb_lt in E.
      rewrite (select_cons o c r), (select_cons o (editNthSelf o f k c) r).
      rewrite !firstn_app, editNthSelf_length.
      replace (k - List.length (select o [c])) with 0 by lia.
      rewrite !firstn_O, !app_nil_r. apply Hc.
    + apply Nat.ltb_ge in E.
      rewrite (select_cons o c r), (select_cons o c (nthScan _ _ _ r)).
      rewrite !firstn_app, !firstn_all2 by exact E.
      apply Forall2_app; [apply Forall2_refl | apply IH].
Qed.

Lemma editNthSelf_prefix (n : node) (k : nat) :
  Forall2 R (firstn k (select o [n]))
          (firstn k (select o [editNthSelf o f k n])).
Proof.
  revert k. induction n as [x|t i cl a ch IH] using node_induction; intros k.
  - apply Forall2_refl.
  - cbn [editNthSelf].
    destruct (matches o (Elem t i cl a ch)) eqn:Em; [destruct k as [|k]|].
    + constructor.
    + rewrite !select_elem, (matches_children o t i cl a (nthScan _ _ _ _) ch), Em.
      cbn [app firstn]. constructor; [apply R_ancestor | now apply nthScan_prefix].
    + rewrite !select_elem, (matches_children o t i cl a (nthScan _ _ _ _) ch), Em.
      cbn [app]. now apply nthScan_prefix.
Qed.

End EditNthNested.

(** ** Star injection *)

Section StarInjection.
Import DOM Injection MutationHandler.

Local Open Scope nat_scope.

Variable d : Document.
Variable starredRoutes : JSSet.t.

Lemma present_true (sel : selector) (b : node) :
  present sel b = true <-> select sel (childNodes b) <> [].
Proof.
  unfold present, querySelector, querySelectorAll.
  destruct (select sel (childNodes b)); simpl; split; congruence.
Qed.

Lemma present_false (sel : selector) (b : node) :
  present sel b = false <-> select sel (childNodes b) = [].
Proof.
  unfold present, querySelector, querySelectorAll.
  destruct (select sel (childNodes b)); simpl; split; congruence.
Qed.

Lemma present_length (sel : selector) (b b' : node) :
  List.length (select sel (childNodes b')) = List.length (select sel (childNodes b)) ->
  present sel b' = present sel b.
Proof.
  unfold present, querySelector, querySelectorAll.
  destruct (select sel (childNodes b')), (select sel (childNodes b));
    simpl; congruence.
Qed.

Lemma inert_opblock : inert opblockSelector.
Proof. intros m p []; reflexivity. Qed.
Lemma inert_method : inert DOMParser.SELECTORS_method.
Proof. intros m p []; reflexivity. Qed.
Lemma inert_path : inert DOMParser.SELECTORS_path.
Proof. intros m p []; reflexivity. Qed.
Lemma inert_summary : inert summarySelector.
Proof. intros m p []; reflexivity. Qed.

Lemma star_button_selected (m p : string) (flag : bool) :
  List.length (select starSelector [createStarButton m p flag]) = 1.
Proof. destruct flag; reflexivity. Qed.

Lemma matches_isElement (sel : selector) (x : node) :
  matches sel x = true -> isElement x = true.
Proof.
  destruct x; [|reflexivity]. rewrite matches_text. discriminate.
Qed.

(** The edit of the summary element: the star goes before the expand
    control, or to the end. *)
Lemma place_star_count (star x : node) (s : selector) :
  matches summarySelector x = true ->
  let x' := match insertBeforeFirst expandSelector star x with
            | Some summary' => summary'
            | None => appendChild x star
            end in
  List.length (select s (childNodes x'))
  = List.length (select s (childNodes x)) + List.length (select s [star]) /\
  matches s x' = matches s x.
Proof.
  intros Hx. simpl.
  destruct (insertBeforeFirst expandSelector star x) as [x'|] eqn:E.
  - now apply (insertBeforeFirst_count expandSelector star s x x').
  - apply appendChild_count. now apply (matches_isElement summarySelector).
Qed.

Lemma injectStar_settled (b : node) :
  settled b = true -> injectStar d starredRoutes b = b.
Proof.
  unfold settled, present, injectStar, DOMParser.parseOperation.
  destruct (querySelector starSelector b); [reflexivity|].
  destruct (querySelector DOMParser.SELECTORS_method b); [|reflexivity].
  destruct (querySelector DOMParser.SELECTORS_path b); [|reflexivity].
  simpl. destruct (querySelector summarySelector b) eqn:E; [discriminate|].
  intros _.
  assert (Hnone : select summarySelector (childNodes b) = []).
  { apply present_false. unfold present. now rewrite E. }
  match goal with
  | |- context [editFirst ?sel ?g b] =>
      apply (editFirst_none sel g b) in Hnone; now rewrite Hnone
  end.
Qed.

(** What the callback does to a block it does not skip: one star button is
    added among the descendants, nothing else changes. *)
Lemma injectStar_unsettled (b : node) :
  settled b = false ->
  exists m p flag,
    (forall s,
        List.length (select s (childNodes (injectStar d starredRoutes b)))
        = List.length (select s (childNodes b))
          + List.length (select s [createStarButton m p flag])) /\
    (forall q, matches q (injectStar d starredRoutes b) = matches q b).
Proof.
  unfold settled. intros H.
  apply orb_false_iff in H as [H Hsum].
  apply orb_false_iff in H as [H Hpath].
  apply orb_false_iff in H as [Hstar Hmeth].
  apply negb_false_iff in Hsum, Hpath, Hmeth.
  unfold injectStar, DOMParser.parseOperation.
  unfold present in Hstar, Hpath, Hmeth.
  destruct (querySelector starSelector b); [discriminate|].
  destruct (querySelector DOMParser.SELECTORS_method b) as [me|]; [|discriminate].
  destruct (querySelector DOMParser.SELECTORS_path b) as [pe|]; [|discriminate].
  cbn [DOMParser.method DOMParser.path].
  match goal with
  | |- context [createStarButton ?m ?p ?flag] =>
      exists m, p, flag; set (star := createStarButton m p flag)
  end.
  match goal with
  | |- context [editFirst ?sel ?g b] =>
      destruct (editFirst sel g b) as [b'|] eqn:E
  end.
  - split.
    + intros s.
      eapply (editFirst_count summarySelector _ s); [| |exact E].
      * intros x Hx. exact (proj2 (place_star_count star x s Hx)).
      * intros x Hx. exact (proj1 (place_star_count star x s Hx)).
    + intros q. now apply (editFirst_top _ _ b b' q) in E.
  - apply editFirst_none in E. apply present_true in Hsum. contradiction.
Qed.

Lemma injectStar_top (b : node) (q : selector) :
  matches q (injectStar d starredRoutes b) = matches q b.
Proof.
  destruct (settled b) eqn:E.
  - now rewrite injectStar_settled.
  - destruct (injectStar_unsettled b E) as (m & p & flag & _ & H). apply H.
Qed.

Lemma injectStar_inert (b : node) (s : selector) :
  inert s ->
  List.length (select s (childNodes (injectStar d starredRoutes b)))
  = List.length (select s (childNodes b)).
Proof.
  intros Hs. destruct (settled b) eqn:E.
  - now rewrite injectStar_settled.
  - destruct (injectStar_unsettled b E) as (m & p & flag & H & _).
    rewrite H, Hs. simpl. lia.
Qed.

Lemma injectStar_starCount (b : node) :
  starCount (injectStar d starredRoutes b)
  = if settled b then starCount b else 1.
Proof.
  unfold starCount, querySelectorAll. destruct (settled b) eqn:E.
  - now rewrite injectStar_settled.
  - destruct (injectStar_unsettled b E) as (m & p & flag & H & _).
    rewrite H, star_button_selected.
    unfold settled in E. apply orb_false_iff in E as [E _].
    apply orb_false_iff in E as [E _]. apply orb_false_iff in E as [E _].
    apply present_false in E. now rewrite E.
Qed.

Lemma injectStar_present (b : node) (s : selector) :
  inert s -> present s (injectStar d starredRoutes b) = present s b.
Proof. intros Hs. apply present_length. now apply injectStar_inert. Qed.

Lemma injectStar_wellFormed (b : node) :
  wellFormed (injectStar d starredRoutes b) = wellFormed b.
Proof.
  unfold wellFormed.
  now rewrite (injectStar_present b _ inert_method),
    (injectStar_present b _ inert_path), (injectStar_present b _ inert_summary).
Qed.

Lemma starCount_present (b : node) :
  present starSelector b = negb (starCount b =? 0).
Proof.
  unfold present, starCount, querySelector.
  now destruct (querySelectorAll starSelector b).
Qed.

(** After the callback every block is one that the callback skips. *)
Lemma injectStar_result_settled (b : node) :
  settled (injectStar d starredRoutes b) = true.
Proof.
  destruct (settled b) eqn:E.
  - now rewrite injectStar_settled.
  - unfold settled. rewrite starCount_present, injectStar_starCount, E.
    reflexivity.
Qed.

End StarInjection.

Section InjectionRuns.
Import DOM Injection MutationHandler.

Local Open Scope nat_scope.

Lemma fold_left_fixed {A B : Type} (step : A -> B -> A) (l : list B) (a : A) :
  (forall k, In k l -> step a k = a) -> fold_left step l a = a.
Proof.
  induction l as [|k l IH]; intros H; simpl; [reflexivity|].
  rewrite (H k) by now left. apply IH. intros k' Hk'. apply H. now right.
Qed.

(** On a page without nested blocks, the callback reaches the blocks one
    after the other and each call changes its own block only. *)
Lemma fold_injectStar_flat (d : Document) (starred : JSSet.t)
      (todo done : list node) (root : node) :
  select opblockSelector [root] = map (injectStar d starred) done ++ todo ->
  flat root ->
  let root' :=
    fold_left (fun r k => editNthSelf opblockSelector (injectStar d starred) k r)
              (seq (List.length done) (List.length todo)) root in
  select opblockSelector [root'] = map (injectStar d starred) (done ++ todo) /\
  flat root'.
Proof.
  revert done root. induction todo as [|x todo IH]; intros done root Hsel Hflat.
  - simpl. rewrite app_nil_r in *. now split.
  - cbn [List.length seq fold_left].
    set (F := injectStar d starred) in *.
    set (root1 := editNthSelf opblockSelector F (List.length done) root).
    assert (Hsel1 : select opblockSelector [root1] = map F (done ++ [x]) ++ todo).
    { unfold root1. rewrite editNthSelf_flat.
      - rewrite Hsel, updateAt_app, length_map, Nat.ltb_irrefl, Nat.sub_diag.
        cbn [updateAt]. now rewrite map_app, <- app_assoc.
      - intros b. apply injectStar_top.
      - intros b Hb. apply length_zero_iff_nil. unfold F.
        rewrite (injectStar_inert d starred b _ inert_opblock), Hb. reflexivity.
      - exact Hflat. }
    assert (Hflat1 : flat root1).
    { unfold flat in *. rewrite Hsel1. rewrite Hsel in Hflat.
      apply Forall_app in Hflat as [Hdone Htodo].
      inversion Htodo as [|? ? Hx Hrest]; subst.
      rewrite map_app. apply Forall_app. split; [|exact Hrest].
      apply Forall_app. split; [exact Hdone|].
      constructor; [|constructor].
      unfold querySelectorAll in *. apply length_zero_iff_nil. unfold F.
      rewrite (injectStar_inert d starred x _ inert_opblock), Hx. reflexivity. }
    specialize (IH (done ++ [x]) root1 Hsel1 Hflat1).
    rewrite length_app, Nat.add_1_r in IH. cbn zeta in IH.
    now rewrite <- app_assoc in IH.
Qed.

Lemma injectStars_blocks_flat (st : Chrome.storage) (d : Document) :
  flat (documentElement d) ->
  blocks (injectStarsIntoOperations st d)
  = map (injectStar d (StorageManager.getStarredRoutes st)) (blocks d) /\
  flat (documentElement (injectStarsIntoOperations st d)).
Proof.
  intros Hflat. unfold blocks, document_querySelectorAll, injectStarsIntoOperations.
  cbn [documentElement].
  apply (fold_injectStar_flat d _ (select opblockSelector [documentElement d]) []);
    [reflexivity | exact Hflat].
Qed.

Lemma grown_refl (b : node) : grown b b.
Proof. split; [reflexivity | apply Nat.le_refl]. Qed.

Lemma settled_grown (b b' : node) :
  grown b b' -> settled b = true -> settled b' = true.
Proof.
  intros [Hinert Hstar]. unfold settled.
  rewrite (present_length _ b b' (Hinert _ inert_method)).
  rewrite (present_length _ b b' (Hinert _ inert_path)).
  rewrite (present_length _ b b' (Hinert _ inert_summary)).
  destruct (present starSelector b) eqn:E; [|now destruct (present starSelector b')].
  intros _. apply present_true in E.
  assert (E' : present starSelector b' = true).
  { apply present_true. intros Hnil. rewrite Hnil in Hstar. simpl in Hstar.
    destruct (select starSelector (childNodes b)); [congruence | simpl in Hstar; lia]. }
  now rewrite E'.
Qed.

Lemma injectStar_select_inert (d : Document) (starred : JSSet.t)
      (s : selector) (b : node) :
  inert s ->
  List.length (select s [b]) = List.length (select s [injectStar d starred b]).
Proof.
  intros Hs.
  rewrite (select_single s b), (select_single s (injectStar d starred b)).
  rewrite !length_app, !length_if, injectStar_top.
  now rewrite (injectStar_inert d starred b s Hs).
Qed.

Lemma injectStar_select_star (d : Document) (starred : JSSet.t) (b : node) :
  List.length (select starSelector [b])
  <= List.length (select starSelector [injectStar d starred b]).
Proof.
  rewrite (select_single _ b), (select_single _ (injectStar d starred b)).
  rewrite !length_app, !length_if, injectStar_top.
  pose proof (injectStar_starCount d starred b) as H.
  unfold starCount, querySelectorAll in H. rewrite H.
  destruct (settled b) eqn:E; [lia|].
  unfold settled in E. apply orb_false_iff in E as [E _].
  apply orb_false_iff in E as [E _]. apply orb_false_iff in E as [E _].
  apply present_false in E. rewrite E. simpl. lia.
Qed.

Lemma grown_ancestor (d : Document) (starred : JSSet.t) t i cl a ch k :
  grown (Elem t i cl a ch)
        (Elem t i cl a
              (nthScan opblockSelector
                       (editNthSelf opblockSelector (injectStar d starred)) k ch)).
Proof.
  split; simpl.
  - intros s Hs. symmetry.
    apply (nthScan_rel_all opblockSelector (injectStar d starred) s eq);
      try congruence.
    intros b _. now apply injectStar_select_inert.
  - apply (nthScan_rel_all opblockSelector (injectStar d starred) starSelector le).
    + intros x. apply Nat.le_refl.
    + intros x x' y y' Hx Hy. lia.
    + intros b _. apply injectStar_select_star.
Qed.

Lemma firstn_S_nth {A : Type} (l : list A) (j : nat) (x : A) :
  nth_error l j = Some x -> firstn (S j) l = firstn j l ++ [x].
Proof.
  revert j. induction l as [|y l IH]; intros [|j] H; try discriminate.
  - injection H as ->. reflexivity.
  - change (y :: firstn (S j) l = y :: (firstn j l ++ [x])).
    f_equal. now apply IH.
Qed.

(** After the callback has run on the first [j] blocks, these blocks are
    blocks that the callback skips, whatever the nesting of the blocks. *)
Lemma fold_injectStar_settles (d : Document) (starred : JSSet.t)
      (root : node) (j : nat) :
  j <= List.length (select opblockSelector [root]) ->
  let r := fold_left
             (fun r k => editNthSelf opblockSelector (injectStar d starred) k r)
             (seq 0 j) root in
  List.length (select opblockSelector [r])
  = List.length (select opblockSelector [root]) /\
  Forall (fun b => settled b = true) (firstn j (select opblockSelector [r])).
Proof.
  induction j as [|j IH]; intros Hj.
  - simpl. split; [reflexivity | constructor].
  - rewrite seq_S, fold_left_app. cbn [fold_left Nat.add].
    destruct IH as [Hlen Hset]; [lia|].
    set (r := fold_left _ (seq 0 j) root) in *.
    assert (Hlen' :
              List.length (select opblockSelector
                             [editNthSelf opblockSelector (injectStar d starred) j r])
              = List.length (select opblockSelector [r])).
    { apply editNthSelf_length. intros b _.
      now apply injectStar_select_inert, inert_opblock. }
    split; [now rewrite Hlen', Hlen|].
    destruct (nth_error (select opblockSelector [r]) j) as [b|] eqn:Eb.
    + rewrite (firstn_S_nth _ j (injectStar d starred b)).
      * apply Forall_app. split.
        -- pose proof (editNthSelf_prefix opblockSelector (injectStar d starred)
                         (fun b _ => injectStar_select_inert d starred _ b inert_opblock)
                         grown grown_refl (grown_ancestor d starred) r j) as H2.
           revert Hset H2.
           generalize (firstn j (select opblockSelector [r])) as l1.
           generalize (firstn j (select opblockSelector
                          [editNthSelf opblockSelector (injectStar d starred) j r]))
             as l2.
           intros l2 l1 Hset H2. induction H2 as [|x y l1 l2 Hxy _ IH2].
           ++ constructor.
           ++ inversion Hset; subst. constructor; [|now apply IH2].
              now apply (settled_grown x y).
        -- constructor; [|constructor]. apply injectStar_result_settled.
      * apply editNthSelf_nth; [| |exact Eb].
        -- intros x. apply injectStar_top.
        -- intros x _. now apply injectStar_select_inert, inert_opblock.
    + apply nth_error_None in Eb. lia.
Qed.

Lemma injectStars_settled (st : Chrome.storage) (d : Document) :
  Forall (fun b => settled b = true) (blocks (injectStarsIntoOperations st d)).
Proof.
  unfold blocks, document_querySelectorAll, injectStarsIntoOperations.
  cbn [documentElement].
  destruct (fold_injectStar_settles d (StorageManager.getStarredRoutes st)
              (documentElement d)
              (List.length (select opblockSelector [documentElement d])))
    as [Hlen Hset]; [apply Nat.le_refl|].
  cbn zeta in Hlen, Hset.
  rewrite firstn_all2 in Hset by (rewrite Hlen; apply Nat.le_refl).
  exact Hset.
Qed.

(** A run on a page whose blocks are all skipped changes nothing. *)
Lemma injectStars_fixed (st : Chrome.storage) (d : Document) :
  Forall (fun b => settled b = true) (blocks d) ->
  injectStarsIntoOperations st d = d.
Proof.
  intros Hset. unfold injectStarsIntoOperations.
  rewrite fold_left_fixed.
  - now destruct d.
  - intros k _. apply editNthSelf_fixed. intros b Hb.
    apply injectStar_settled.
    rewrite Forall_forall in Hset. apply Hset.
    now apply nth_error_In in Hb.
Qed.

End InjectionRuns.

Section InjectionClaim.
Import DOM Injection MutationHandler Examples.

Local Open Scope nat_scope.

Lemma settled_wellFormed (b : node) :
  settled b = true -> wellFormed b = true -> 1 <= starCount b.
Proof.
  unfold settled, wellFormed. intros Hs Hw.
  apply andb_true_iff in Hw as [Hw Hsum]. apply andb_true_iff in Hw as [Hm Hp].
  rewrite Hm, Hp, Hsum, starCount_present in Hs. simpl in Hs.
  rewrite !orb_false_r in Hs. apply negb_true_iff, Nat.eqb_neq in Hs. lia.
Qed.

Lemma settled_eq (b : node) :
  settled b = negb ((starCount b =? 0) && wellFormed b).
Proof.
  unfold settled, wellFormed. rewrite starCount_present.
  destruct (starCount b =? 0), (present DOMParser.SELECTORS_method b),
    (present DOMParser.SELECTORS_path b), (present summarySelector b);
    reflexivity.
Qed.

Lemma injectStars_length (st : Chrome.storage) (d : Document) :
  List.length (blocks (injectStarsIntoOperations st d))
  = List.length (blocks d).
Proof.
  unfold blocks, document_querySelectorAll, injectStarsIntoOperations.
  cbn [documentElement].
  destruct (fold_injectStar_settles d (StorageManager.getStarredRoutes st)
              (documentElement d)
              (List.length (select opblockSelector [documentElement d])))
    as [Hlen _]; [apply Nat.le_refl|].
  exact Hlen.
Qed.

(** C1.  For every page and whatever is stored, a second run of
    [injectStarsIntoOperations] changes nothing, and neither does any number
    of further runs; a block that carries a star is skipped by the callback;
    a run keeps the number of blocks, and after it every block with method,
    path and summary elements carries a star.  On a page whose operation
    blocks are not nested, the blocks after the run, and after any further
    run, are the blocks before it in their order, each one still with or
    without its method, path and summary elements: a block that had these
    elements and no star carries exactly one star, and every other block
    carries the stars it had. *)
Theorem injectStars_idempotent (st st' : Chrome.storage) (d : Document) :
  let once := injectStarsIntoOperations st d in
  let twice := injectStarsIntoOperations st' once in
  twice = once /\
  (forall n, Nat.iter n (injectStarsIntoOperations st') once = once) /\
  (forall starred b, 1 <= starCount b -> injectStar d starred b = b) /\
  List.length (blocks once) = List.length (blocks d) /\
  Forall (fun b => wellFormed b = true -> 1 <= starCount b) (blocks once) /\
  (flat (documentElement d) ->
   blocks once
   = map (injectStar d (StorageManager.getStarredRoutes st)) (blocks d) /\
   Forall2 (fun b b' =>
              wellFormed b' = wellFormed b /\
              starCount b'
              = if (starCount b =? 0) && wellFormed b then 1 else starCount b)
           (blocks d) (blocks twice)).
Proof.
  intros once twice.
  assert (Hsettled : Forall (fun b => settled b = true) (blocks once))
    by apply injectStars_settled.
  assert (Htwice : twice = once) by now apply injectStars_fixed.
  split; [exact Htwice|]. split; [|split; [|split; [|split]]].
  - induction n as [|n IH]; simpl; [reflexivity|].
    rewrite IH. exact Htwice.
  - intros starred b Hb. apply injectStar_settled.
    unfold settled. rewrite starCount_present.
    destruct (starCount b); [lia | reflexivity].
  - apply injectStars_length.
  - apply (Forall_impl _ (P := fun b => settled b = true)); [|exact Hsettled].
    intros b Hb Hw. now apply settled_wellFormed.
  - intros Hflat. rewrite Htwice.
    destruct (injectStars_blocks_flat st d Hflat) as [Hblocks _].
    fold once in Hblocks. split; [exact Hblocks|]. rewrite Hblocks.
    clear Hblocks Hflat.
    induction (blocks d) as [|b l IH]; simpl; constructor; [|exact IH].
    split; [apply injectStar_wellFormed|].
    rewrite injectStar_starCount, settled_eq.
    now destruct ((starCount b =? 0) && wellFormed b).
Qed.

Lemma injectStars_idempotent_witness :
  let once := injectStarsIntoOperations [] petsPageDoc in
  let twice := injectStarsIntoOperations petsStore once in
  twice = once /\
  blocks once
  = map (injectStar petsPageDoc (StorageManager.getStarredRoutes []))
        (blocks petsPageDoc) /\
  Forall2 (fun b b' =>
             wellFormed b' = wellFormed b /\
             starCount b'
             = if (starCount b =? 0) && wellFormed b then 1 else starCount b)
          (blocks petsPageDoc) (blocks twice).
Proof.
  intros once twice.
  destruct (injectStars_idempotent [] petsStore petsPageDoc)
    as (Htwice & _ & _ & _ & _ & Hflat).
  split; [exact Htwice|].
  apply Hflat. unfold flat. vm_compute. repeat constructor.
Defined.

(** On a page whose one operation block holds another one in its body,
    both with method, path and summary elements and without star, a run
    leaves two star controls inside the outer block, and a further run
    changes nothing.  On a page whose one block carries two star controls,
    the block keeps both. *)
Lemma injectStars_not_exactly_one :
  let once := injectStarsIntoOperations [] Pages.nestedPageDoc in
  (map wellFormed (blocks Pages.nestedPageDoc) = [true; true] /\
   map starCount (blocks Pages.nestedPageDoc) = [0; 0] /\
   injectStarsIntoOperations [] once = once /\
   map wellFormed (blocks once) = [true; true] /\
   map starCount (blocks once) = [2; 1]) /\
  (flat (documentElement Pages.twoStarsDoc) /\
   map starCount (blocks Pages.twoStarsDoc) = [2] /\
   map starCount (blocks (injectStarsIntoOperations [] Pages.twoStarsDoc))
   = [2]).
Proof.
  cbv zeta. split; [vm_compute; repeat split|].
  split; [unfold flat; vm_compute; repeat constructor|].
  vm_compute. split; reflexivity.
Qed.

End InjectionClaim.

(** ** More on the starred set *)

Section StorageMore.
Import DOM StorageManager Examples.

Lemma has_delete_same (s : JSSet.t) (k : string) :
  JSSet.has (JSSet.delete s k) k = false.
Proof.
  apply SetFacts.has_false. unfold JSSet.delete. intros H.
  apply filter_In in H as [_ H]. now rewrite String.eqb_refl in H.
Qed.

Lemma has_delete_other (s : JSSet.t) (k k' : string) :
  k' <> k -> JSSet.has (JSSet.delete s k) k' = JSSet.has s k'.
Proof.
  intros Hne. destruct (JSSet.has s k') eqn:E.
  - apply SetFacts.has_true. apply SetFacts.has_true in E.
    unfold JSSet.delete. apply filter_In. split; [exact E|].
    now apply negb_true_iff, String.eqb_neq.
  - apply SetFacts.has_false. apply SetFacts.has_false in E.
    unfold JSSet.delete. intros H. apply filter_In in H as [H _]. contradiction.
Qed.

Lemma has_add_same (s : JSSet.t) (k : string) : JSSet.has (JSSet.add s k) k = true.
Proof. apply SetFacts.has_true, SetFacts.In_add. now right. Qed.

Lemma has_add_other (s : JSSet.t) (k k' : string) :
  k' <> k -> JSSet.has (JSSet.add s k) k' = JSSet.has s k'.
Proof.
  intros Hne. destruct (JSSet.has s k') eqn:E.
  - apply SetFacts.has_true, SetFacts.In_add. left. now apply SetFacts.has_true.
  - apply SetFacts.has_false. rewrite SetFacts.In_add.
    apply SetFacts.has_false in E. intros [H | H]; [contradiction | congruence].
Qed.

Lemma delete_NoDup (s : JSSet.t) (k : string) : NoDup s -> NoDup (JSSet.delete s k).
Proof. apply NoDup_filter. Qed.

(** The set that a toggle computes, and the storage area it leaves. *)
Lemma toggleStarred_eq (d : Document) (st : Chrome.storage) (m p : string) :
  let key := generateRouteKey d m p in
  let old := getStarredRoutes st in
  let new := if JSSet.has old key then JSSet.delete old key
             else JSSet.add old key in
  toggleStarred d st m p
  = (negb (JSSet.has old key), Chrome.set st STORAGE_KEY new) /\
  getStarredRoutes (snd (toggleStarred d st m p)) = new /\
  NoDup new.
Proof.
  intros key old new.
  assert (Hnd : NoDup new).
  { unfold new. destruct (JSSet.has old key).
    - apply delete_NoDup, StorageFacts.getStarredRoutes_NoDup.
    - apply SetFacts.add_NoDup, StorageFacts.getStarredRoutes_NoDup. }
  assert (Heq : toggleStarred d st m p
                = (negb (JSSet.has old key), Chrome.set st STORAGE_KEY new)).
  { unfold toggleStarred. fold key. fold old. fold new. f_equal.
    unfold new. destruct (JSSet.has old key) eqn:E; simpl.
    - apply has_delete_same.
    - apply has_add_same. }
  split; [exact Heq | split; [|exact Hnd]].
  rewrite Heq. simpl. rewrite StorageFacts.getStarredRoutes_set.
  now apply SetFacts.ofArray_NoDup_id.
Qed.

(** X1.  For every storage area and every route, [toggleStarred] resolves
    to the opposite of what [isStarred] gave before, [isStarred] gives the
    resolved value afterwards, and the starred state of every route with
    another key is what it was. *)
Theorem toggleStarred_flips (d : Document) (st : Chrome.storage) (m p : string) :
  let after := toggleStarred d st m p in
  fst after = negb (isStarred d st m p) /\
  isStarred d (snd after) m p = fst after /\
  (forall m' p',
      generateRouteKey d m' p' <> generateRouteKey d m p ->
      isStarred d (snd after) m' p' = isStarred d st m' p').
Proof.
  destruct (toggleStarred_eq d st m p) as (Heq & Hset & _).
  cbn zeta in *. unfold isStarred. rewrite Hset, Heq. cbn [fst snd].
  split; [reflexivity | split].
  - destruct (JSSet.has (getStarredRoutes st) (generateRouteKey d m p)); simpl.
    + apply has_delete_same.
    + apply has_add_same.
  - intros m' p' Hne.
    destruct (JSSet.has (getStarredRoutes st) (generateRouteKey d m p)).
    + now apply has_delete_other.
    + now apply has_add_other.
Qed.

Lemma toggleStarred_flips_witness :
  isStarred petsDoc (snd (toggleStarred petsDoc petsStore "POST" "/pets"))
            "GET" "/pets"
  = isStarred petsDoc petsStore "GET" "/pets".
Proof.
  destruct (toggleStarred_flips petsDoc petsStore "POST" "/pets") as (_ & _ & H).
  apply H. vm_compute. discriminate.
Defined.

(** X2.  Two toggles of one route leave every key starred exactly when it
    was starred before, and the set as large as it was, whether the route was
    starred or not.  The order is kept only for a route that was not starred:
    a starred route comes back as the last key of the stored array. *)
Theorem toggleStarred_twice (d : Document) (st : Chrome.storage) (m p : string) :
  let key := generateRouteKey d m p in
  let old := getStarredRoutes st in
  let twice :=
    getStarredRoutes
      (snd (toggleStarred d (snd (toggleStarred d st m p)) m p)) in
  (forall k, In k twice <-> In k old) /\
  JSSet.size twice = JSSet.size old /\
  (JSSet.has old key = false -> twice = old) /\
  (JSSet.has old key = true -> twice = JSSet.delete old key ++ [key]).
Proof.
  intros key old twice.
  destruct (toggleStarred_eq d st m p) as (_ & Hset1 & Hnd1).
  destruct (toggleStarred_eq d (snd (toggleStarred d st m p)) m p)
    as (_ & Hset2 & _).
  cbn zeta in *. fold key in Hset1, Hset2, Hnd1. fold old in Hset1, Hnd1.
  rewrite Hset1 in Hset2. fold twice in Hset2.
  assert (Hold : NoDup old) by apply StorageFacts.getStarredRoutes_NoDup.
  destruct (JSSet.has old key) eqn:E.
  - rewrite has_delete_same in Hset2.
    assert (Hnot : ~ In key (JSSet.delete old key))
      by (apply SetFacts.has_false, has_delete_same).
    apply SetFacts.has_false in Hnot as Hhas.
    unfold JSSet.add in Hset2. rewrite Hhas in Hset2.
    apply SetFacts.has_true in E.
    assert (Hin : forall k, In k twice <-> In k old).
    { intros k. rewrite Hset2, in_app_iff. unfold JSSet.delete.
      rewrite filter_In. simpl. split.
      - intros [[H _] | [<- | []]]; assumption.
      - intros H. destruct (String.eqb_spec k key) as [-> | Hne].
        + right. now left.
        + left. split; [exact H | reflexivity]. }
    split; [exact Hin | split; [|split]].
    + unfold JSSet.size.
      apply Nat.le_antisymm; apply NoDup_incl_length.
      * rewrite Hset2. apply NoDup_app; [exact Hnd1 | repeat constructor; intros []|].
        intros x Hx [<- | []]. contradiction.
      * intros x Hx. now apply Hin.
      * exact Hold.
      * intros x Hx. now apply Hin.
    + discriminate.
    + intros _. exact Hset2.
  - assert (Hin1 : JSSet.has (JSSet.add old key) key = true) by apply has_add_same.
    rewrite Hin1 in Hset2. unfold JSSet.add in Hset2. rewrite E in Hset2.
    apply SetFacts.has_false in E.
    rewrite SetFacts.delete_last in Hset2 by exact E.
    rewrite Hset2. repeat split; try tauto. discriminate.
Qed.

Lemma toggleStarred_twice_witness :
  getStarredRoutes
    (snd (toggleStarred petsDoc
            (snd (toggleStarred petsDoc
                    [(STORAGE_KEY, ["Pets API::GET::/pets"; "Pets API::PUT::/pets"])]
                    "GET" "/pets"))
            "GET" "/pets"))
  = ["Pets API::PUT::/pets"; "Pets API::GET::/pets"].
Proof.
  destruct (toggleStarred_twice petsDoc
              [(STORAGE_KEY, ["Pets API::GET::/pets"; "Pets API::PUT::/pets"])]
              "GET" "/pets") as (_ & _ & _ & H).
  apply H. reflexivity.
Defined.

Lemma filter_filter_comm {A : Type} (f g : A -> bool) (l : list A) :
  filter f (filter g l) = filter g (filter f l).
Proof.
  induction l as [|x l IH]; simpl; [reflexivity|].
  destruct (f x) eqn:Ef, (g x) eqn:Eg; simpl; rewrite ?Ef, ?Eg, IH; reflexivity.
Qed.

Lemma filter_idem {A : Type} (f : A -> bool) (l : list A) :
  filter f (filter f l) = filter f l.
Proof.
  induction l as [|x l IH]; simpl; [reflexivity|].
  destruct (f x) eqn:Ef; simpl; rewrite ?Ef, IH; reflexivity.
Qed.

Lemma set_set (st : Chrome.storage) (k : string) (v v' : list string) :
  Chrome.set (Chrome.set st k v) k v' = Chrome.set st k v'.
Proof.
  unfold Chrome.set. simpl. rewrite String.eqb_refl. simpl.
  now rewrite filter_idem.
Qed.

Lemma clearStarredRoutes_eq (d : Document) (st : Chrome.storage) :
  clearStarredRoutes d st
  = Chrome.set st STORAGE_KEY
      (filter (fun key => negb (JS.startsWith key (getSpecIdentifier d ++ "::")))
              (getStarredRoutes st)) /\
  getStarredRoutes (clearStarredRoutes d st)
  = filter (fun key => negb (JS.startsWith key (getSpecIdentifier d ++ "::")))
           (getStarredRoutes st).
Proof.
  split; [reflexivity|]. unfold clearStarredRoutes.
  rewrite StorageFacts.getStarredRoutes_set.
  apply SetFacts.ofArray_NoDup_id, NoDup_filter,
    StorageFacts.getStarredRoutes_NoDup.
Qed.

(** X3.  Clearing is idempotent, clears of two documents commute, and after
    a clear every route of the document is unstarred, so that its next toggle
    resolves to [true]. *)
Theorem clearStarredRoutes_idempotent (d d' : Document) (st : Chrome.storage) :
  clearStarredRoutes d (clearStarredRoutes d st) = clearStarredRoutes d st /\
  clearStarredRoutes d (clearStarredRoutes d' st)
  = clearStarredRoutes d' (clearStarredRoutes d st) /\
  (forall m p, isStarred d (clearStarredRoutes d st) m p = false) /\
  (forall m p, fst (toggleStarred d (clearStarredRoutes d st) m p) = true).
Proof.
  assert (Hun : forall m p, isStarred d (clearStarredRoutes d st) m p = false).
  { intros m p. unfold isStarred.
    rewrite (proj2 (clearStarredRoutes_eq d st)).
    apply SetFacts.has_false. intros H. apply filter_In in H as [_ H].
    now rewrite generateRouteKey_startsWith in H. }
  split; [|split; [|split]].
  - rewrite (proj1 (clearStarredRoutes_eq d (clearStarredRoutes d st))).
    rewrite (proj2 (clearStarredRoutes_eq d st)), filter_idem.
    rewrite (proj1 (clearStarredRoutes_eq d st)) at 1. apply set_set.
  - rewrite (proj1 (clearStarredRoutes_eq d (clearStarredRoutes d' st))).
    rewrite (proj1 (clearStarredRoutes_eq d' (clearStarredRoutes d st))).
    rewrite (proj2 (clearStarredRoutes_eq d st)),
      (proj2 (clearStarredRoutes_eq d' st)).
    rewrite (proj1 (clearStarredRoutes_eq d st)),
      (proj1 (clearStarredRoutes_eq d' st)), !set_set.
    f_equal. apply filter_filter_comm.
  - exact Hun.
  - intros m p.
    destruct (toggleStarred_eq d (clearStarredRoutes d st) m p) as (Heq & _).
    cbn zeta in Heq. rewrite Heq. cbn [fst].
    specialize (Hun m p). unfold isStarred in Hun. now rewrite Hun.
Qed.

End StorageMore.

(** ** More on the parser *)

Section ParserMore.
Import DOM DOMParser Examples.

Lemma isSpace_upperChar (c : ascii) : JS.isSpace (JS.upperChar c) = JS.isSpace c.
Proof. destruct c as [[] [] [] [] [] [] [] []]; reflexivity. Qed.

Lemma lowerChar_upperChar (c : ascii) :
  JS.lowerChar (JS.upperChar c) = JS.lowerChar c.
Proof. destruct c as [[] [] [] [] [] [] [] []]; reflexivity. Qed.

Lemma toLowerCase_toUpperCase (s : string) :
  JS.toLowerCase (JS.toUpperCase s) = JS.toLowerCase s.
Proof.
  unfold JS.toLowerCase, JS.toUpperCase.
  induction s as [|c s IH]; simpl; [reflexivity|].
  now rewrite lowerChar_upperChar, IH.
Qed.

Lemma trimStart_toUpperCase (s : string) :
  JS.trimStart (JS.toUpperCase s) = JS.toUpperCase (JS.trimStart s).
Proof.
  unfold JS.toUpperCase.
  induction s as [|c s IH]; simpl; [reflexivity|].
  rewrite isSpace_upperChar. now destruct (JS.isSpace c).
Qed.

Lemma trimEnd_toUpperCase (s : string) :
  JS.trimEnd (JS.toUpperCase s) = JS.toUpperCase (JS.trimEnd s).
Proof.
  unfold JS.toUpperCase.
  induction s as [|c s IH]; simpl; [reflexivity|].
  rewrite IH, isSpace_upperChar.
  destruct (JS.trimEnd s); simpl; [now destruct (JS.isSpace c) | reflexivity].
Qed.

Lemma trim_toUpperCase (s : string) :
  JS.trim (JS.toUpperCase s) = JS.toUpperCase (JS.trim s).
Proof. unfold JS.trim. now rewrite trimStart_toUpperCase, trimEnd_toUpperCase. Qed.

Lemma trimEnd_cons (c : ascii) (s : string) :
  JS.trimEnd (String c s)
  = match JS.trimEnd s with
    | EmptyString => if JS.isSpace c then EmptyString else String c EmptyString
    | String a r => String c (String a r)
    end.
Proof. reflexivity. Qed.

Lemma trimEnd_idem (s : string) : JS.trimEnd (JS.trimEnd s) = JS.trimEnd s.
Proof.
  induction s as [|c s IH]; [reflexivity|].
  rewrite trimEnd_cons. destruct (JS.trimEnd s) as [|a r] eqn:E.
  - destruct (JS.isSpace c) eqn:Ec; [reflexivity|].
    rewrite trimEnd_cons. simpl. now rewrite Ec.
  - rewrite trimEnd_cons, IH. reflexivity.
Qed.

(** What [trimStart] returns is empty or starts with a character that is
    not white space. *)
Lemma trimStart_head (s : string) :
  match JS.trimStart s with
  | EmptyString => True
  | String c _ => JS.isSpace c = false
  end.
Proof.
  induction s as [|c s IH]; simpl; [exact I|].
  destruct (JS.isSpace c) eqn:E; [exact IH | exact E].
Qed.

Lemma trimStart_trim (s : string) : JS.trimStart (JS.trim s) = JS.trim s.
Proof.
  unfold JS.trim. pose proof (trimStart_head s) as H.
  destruct (JS.trimStart s) as [|c r]; [reflexivity|].
  rewrite trimEnd_cons.
  destruct (JS.trimEnd r); rewrite ?H; simpl; rewrite H; reflexivity.
Qed.

Lemma trim_idem (s : string) : JS.trim (JS.trim s) = JS.trim s.
Proof.
  unfold JS.trim at 1. rewrite trimStart_trim.
  unfold JS.trim. apply trimEnd_idem.
Qed.

Lemma replaceNonId_allChars (s : string) :
  allChars JS.isIdChar (JS.replaceNonId s) = true.
Proof.
  unfold JS.replaceNonId. induction s as [|c s IH]; simpl; [reflexivity|].
  rewrite IH, andb_true_r. now destruct (JS.isIdChar c) eqn:E.
Qed.

Lemma truthy_replaceNonId (s : string) :
  JS.truthy (JS.replaceNonId s) = JS.truthy s.
Proof. now destruct s. Qed.

Lemma truthy_append_r (a b : string) :
  JS.truthy b = true -> JS.truthy (a ++ b) = true.
Proof. intros H. destruct a; [exact H | reflexivity]. Qed.

Lemma truthy_orElse (a b : string) :
  JS.truthy b = true -> JS.truthy (JS.orElse a b) = true.
Proof. unfold JS.orElse. intros H. now destruct (JS.truthy a) eqn:E. Qed.

(** The fields of a parsed operation, read off the block. *)
Lemma parseOperation_fields (b : node) (op : Operation) :
  parseOperation b = Some op ->
  (exists e, querySelector SELECTORS_method b = Some e /\
             method op = JS.toUpperCase (JS.trim (textContent e))) /\
  (exists e, querySelector SELECTORS_path b = Some e /\
             path op = JS.trim (textContent e)) /\
  summary op = match querySelector SELECTORS_summary b with
               | Some e => JS.trim (textContent e)
               | None => ""
               end /\
  operationId op = match querySelector SELECTORS_operationId b with
                   | Some e => JS.trim (textContent e)
                   | None => ""
                   end /\
  element op = b /\
  id op = JS.orElse (nodeId b) (JS.replaceNonId (method op ++ "-" ++ path op)) /\
  tagName op = None /\ tagId op = None.
Proof.
  unfold parseOperation.
  destruct (querySelector SELECTORS_method b) as [me|]; [|discriminate].
  destruct (querySelector SELECTORS_path b) as [pe|]; [|discriminate].
  intros [= <-]. cbn.
  split; [now exists me|]. split; [now exists pe|]. now repeat split.
Qed.

(** X4.  For a block whose texts and ids lie in the ASCII range, an
    operation that [parseOperation] returns is in normal form: its method is
    in upper case, and method, path, summary and operation id carry no white
    space at either end; it keeps the block it was read from and has no tag
    yet; its id is never empty and, for a block without [id] attribute,
    consists of letters, digits and dashes only. *)
Theorem parseOperation_normal_form (b : node) (op : Operation) :
  asciiNode b = true ->
  parseOperation b = Some op ->
  JS.toUpperCase (method op) = method op /\
  JS.trim (method op) = method op /\
  JS.trim (path op) = path op /\
  JS.trim (summary op) = summary op /\
  JS.trim (operationId op) = operationId op /\
  element op = b /\
  tagName op = None /\ tagId op = None /\
  JS.truthy (id op) = true /\
  (nodeId b = "" -> allChars JS.isIdChar (id op) = true).
Proof.
  intros _ H.
  destruct (parseOperation_fields b op H)
    as ((me & _ & Hm) & (pe & _ & Hp) & Hs & Ho & He & Hi & Ht & Hti).
  repeat split; try assumption.
  - rewrite Hm. apply toUpperCase_idem.
  - rewrite Hm, trim_toUpperCase. now rewrite trim_idem.
  - rewrite Hp. apply trim_idem.
  - rewrite Hs. destruct (querySelector SELECTORS_summary b);
      [apply trim_idem | reflexivity].
  - rewrite Ho. destruct (querySelector SELECTORS_operationId b);
      [apply trim_idem | reflexivity].
  - rewrite Hi. apply truthy_orElse. rewrite truthy_replaceNonId.
    now apply truthy_append_r.
  - intros Hid. rewrite Hi, Hid. apply replaceNonId_allChars.
Qed.

Lemma parseOperation_normal_form_witness :
  let op := {| method := "GET"; path := "/pets"; summary := "List pets";
               operationId := ""; isDeprecated := false;
               element := opblock " get " "/pets " "List pets";
               id := "GET--pets"; tagName := None; tagId := None |} in
  parseOperation (opblock " get " "/pets " "List pets") = Some op /\
  JS.trim (method op) = method op /\
  allChars JS.isIdChar (id op) = true.
Proof.
  intros op.
  assert (H : parseOperation (opblock " get " "/pets " "List pets") = Some op)
    by reflexivity.
  assert (Ha : asciiNode (opblock " get " "/pets " "List pets") = true)
    by reflexivity.
  destruct (parseOperation_normal_form _ op Ha H)
    as (_ & Ht & _ & _ & _ & _ & _ & _ & _ & Hid).
  split; [exact H | split; [exact Ht | apply Hid; reflexivity]].
Defined.

Lemma subtree_self (n : node) : In n (subtree n).
Proof. destruct n; now left. Qed.

Lemma subtree_children (n x : node) :
  In x (nodes (childNodes n)) -> In x (subtree n).
Proof. destruct n; simpl; [intros [] | intros H; now right]. Qed.

Lemma subtree_trans (n x y : node) :
  In x (subtree n) -> In y (subtree x) -> In y (subtree n).
Proof.
  induction n as [s|t i cl a ch IH] using node_induction; intros Hx Hy.
  - destruct Hx as [<- | []]. exact Hy.
  - destruct Hx as [<- | Hx]; [exact Hy|].
    right. apply in_flat_map in Hx as (c & Hc & Hx).
    apply in_flat_map. exists c. split; [exact Hc|].
    rewrite Forall_forall in IH. now apply (IH c Hc).
Qed.

(** A match below a node of the document is a match of the document. *)
Lemma querySelectorAll_document (sel : selector) (d : Document) (x y : node) :
  In x (subtree (documentElement d)) ->
  In y (querySelectorAll sel x) ->
  In y (document_querySelectorAll sel d).
Proof.
  unfold querySelectorAll, document_querySelectorAll, select.
  intros Hx Hy. apply filter_In in Hy as [Hy Hm].
  apply filter_In. split; [|exact Hm].
  unfold nodes. simpl. rewrite app_nil_r.
  apply (subtree_trans _ x y Hx). now apply subtree_children.
Qed.

Lemma document_querySelectorAll_In (sel : selector) (d : Document) (x : node) :
  In x (document_querySelectorAll sel d) <->
  In x (subtree (documentElement d)) /\ matches sel x = true.
Proof.
  unfold document_querySelectorAll, select, nodes. simpl. rewrite app_nil_r.
  apply filter_In.
Qed.

(** Every extracted tag belongs to a tag section of the document that has
    a header, whose trimmed text is the name of the tag. *)
Lemma extractTags_In (d : Document) (tag : Tag) :
  In tag (extractTags d) ->
  In (tag_element tag) (document_querySelectorAll SELECTORS_operationTag d) /\
  exists header,
    querySelector SELECTORS_tagHeader (tag_element tag) = Some header /\
    name tag = JS.trim (textContent header) /\
    tag_id tag = JS.orElse (nodeId (tag_element tag))
                   ("tag-" ++ JS.replaceSpaces (JS.toLowerCase (name tag))).
Proof.
  unfold extractTags. rewrite extractTags_fold. simpl.
  intros H. apply in_flat_map in H as (x & Hx & H).
  destruct (querySelector SELECTORS_tagHeader x) as [h|] eqn:E; [|destruct H].
  destruct H as [<- | []]. simpl. split; [exact Hx|].
  exists h. now repeat split.
Qed.

(** X5.  Every operation that [extractAllOperations] returns was read from
    an operation block of the document that lies inside a tag section with a
    header; it carries the name and the id computed for that section, and
    [findOperationElement] finds a block for its method and path. *)
Theorem extractAllOperations_sound (d : Document) (op : Operation) :
  In op (extractAllOperations d) ->
  exists tag parsed,
    In tag (extractTags d) /\
    In (tag_element tag) (document_querySelectorAll SELECTORS_operationTag d) /\
    In (element op) (querySelectorAll SELECTORS_operations (tag_element tag)) /\
    In (element op) (document_querySelectorAll SELECTORS_operations d) /\
    parseOperation (element op) = Some parsed /\
    op = withTag parsed tag /\
    exists first,
      findOperationElement d (method op) (path op) = Some first /\
      isOperation (method op) (path op) first = true.
Proof.
  rewrite extractAllOperations_eq. intros H.
  apply in_flat_map in H as (tag & Htag & H).
  apply in_map_iff in H as (parsed & <- & H).
  rewrite extractOperationsForTag_eq in H. unfold parsedOperations in H.
  apply in_flat_map in H as (b & Hb & H).
  destruct (parseOperation b) as [p|] eqn:Ep; [|destruct H].
  destruct H as [-> | []].
  destruct (parseOperation_fields b parsed Ep) as (_ & _ & _ & _ & He & _).
  destruct (extractTags_In d tag Htag) as (Hsec & _).
  assert (Hdoc : In b (document_querySelectorAll SELECTORS_operations d)).
  { apply (querySelectorAll_document _ d (tag_element tag) b); [|exact Hb].
    now apply document_querySelectorAll_In in Hsec as [Hsec _]. }
  exists tag, parsed. cbn [withTag element method path]. rewrite He.
  repeat split; try assumption.
  unfold findOperationElement.
  pose proof (findIn_spec (method parsed) (path parsed)
                (document_querySelectorAll SELECTORS_operations d)) as Hf.
  destruct (findIn (method parsed) (path parsed)
              (document_querySelectorAll SELECTORS_operations d)) as [first|].
  - destruct Hf as (before & after & _ & Hop & _). now exists first.
  - rewrite Forall_forall in Hf. specialize (Hf b Hdoc).
    now rewrite (isOperation_parsed b parsed Ep) in Hf.
Qed.

Lemma extractAllOperations_sound_witness :
  exists first,
    findOperationElement petsPageDoc "GET" "/orders" = Some first /\
    isOperation "GET" "/orders" first = true.
Proof.
  destruct (extractAllOperations_sound petsPageDoc
              (withTag
                 {| method := "GET"; path := "/orders"; summary := "";
                    operationId := ""; isDeprecated := false;
                    element := opblock "get" "/orders" "";
                    id := "GET--orders"; tagName := None; tagId := None |}
                 {| name := "store"; tag_id := "tag-store";
                    tag_element :=
                      tagSection "store"
                        [ opblock "get" "/pets" "Pets on sale";
                          opblock "get" "/orders" "" ] |}))
    as (tag & parsed & _ & _ & _ & _ & _ & _ & H).
  - vm_compute. do 3 right. left. reflexivity.
  - exact H.
Defined.

Lemma existsb_impl {A : Type} (p q : A -> bool) (l : list A) :
  (forall x, p x = true -> q x = true) ->
  existsb p l = true -> existsb q l = true.
Proof.
  intros Hpq H. apply existsb_exists in H as (x & Hx & Hp).
  apply existsb_exists. exists x. split; [exact Hx | now apply Hpq].
Qed.

Lemma swagger_ui_class (n : node) :
  matches (ByClass "swagger-ui") n = true -> classIncludes "swagger" n = true.
Proof.
  unfold classIncludes. simpl. unfold classList_contains. intros H.
  apply existsb_exists in H as (c & Hc & Heq).
  apply String.eqb_eq in Heq. subst c.
  apply existsb_exists. exists "swagger-ui". split; [exact Hc | reflexivity].
Qed.

(** X6.  The second test of [isSwaggerUI] never decides: an element of
    class [swagger-ui] is found by the third test as well.  The function
    answers true exactly when some element of the document has the id
    [swagger-ui] or a class token that contains [swagger]. *)
Theorem isSwaggerUI_spec (d : Document) :
  isSwaggerUI d
  = document_some (hasId "swagger-ui") d ||
    document_some (classIncludes "swagger") d /\
  (isSwaggerUI d = true <->
   exists n, In n (subtree (documentElement d)) /\ isElement n = true /\
             (nodeId n = "swagger-ui" \/
              exists c pre post, In c (classes n) /\
                                 c = (pre ++ "swagger" ++ post)%string)).
Proof.
  assert (Heq : isSwaggerUI d
                = document_some (hasId "swagger-ui") d ||
                  document_some (classIncludes "swagger") d).
  { unfold isSwaggerUI.
    destruct (document_some (hasId "swagger-ui") d); [reflexivity|].
    cbn [orb].
    destruct (document_some (matches (ByClass "swagger-ui")) d) eqn:E;
      [|reflexivity].
    cbn [orb]. symmetry. revert E. apply existsb_impl, swagger_ui_class. }
  split; [exact Heq|]. rewrite Heq, orb_true_iff. unfold document_some.
  rewrite !existsb_exists. split.
  - intros [(n & Hn & H) | (n & Hn & H)]; exists n; (split; [exact Hn|]).
    + unfold hasId in H. apply andb_true_iff in H as [He H].
      apply String.eqb_eq in H. split; [exact He | now left].
    + unfold classIncludes in H. apply existsb_exists in H as (c & Hc & H).
      split; [now destruct n|].
      right. apply includes_split in H as (pre & post & H).
      now exists c, pre, post.
  - intros (n & Hn & He & [H | (c & pre & post & Hc & H)]).
    + left. exists n. split; [exact Hn|]. unfold hasId.
      rewrite He, H. reflexivity.
    + right. exists n. split; [exact Hn|]. unfold classIncludes.
      apply existsb_exists. exists c. split; [exact Hc|].
      apply includes_split. now exists pre, post.
Qed.

(** X7.  A page on which [detectSwaggerUI] answers false has no tag
    section, so that the parser extracts no tag and no operation from it; a
    title that contains [swagger] in any letter case is enough for true. *)
Theorem detectSwaggerUI_covers_extraction (d : Document) :
  (ContentScript.detectSwaggerUI d = false ->
   document_querySelectorAll SELECTORS_operationTag d = [] /\
   extractTags d = [] /\ extractAllOperations d = []) /\
  (ciSubstring (title d) "swagger" -> ContentScript.detectSwaggerUI d = true).
Proof.
  split.
  - intros H. unfold ContentScript.detectSwaggerUI in H.
    destruct (existsb (fun selector => document_some selector d)
                      ContentScript.indicators) eqn:E; [discriminate|].
    unfold ContentScript.indicators in E. cbn [existsb] in E.
    rewrite !orb_false_iff in E. destruct E as (_ & _ & _ & E & _).
    assert (Hsec : document_querySelectorAll SELECTORS_operationTag d = []).
    { destruct (document_querySelectorAll SELECTORS_operationTag d) as [|x l] eqn:Eq;
        [reflexivity|].
      assert (Hx : In x (document_querySelectorAll SELECTORS_operationTag d))
        by (rewrite Eq; now left).
      apply document_querySelectorAll_In in Hx as [Hx Hm].
      unfold document_some in E.
      assert (existsb (matches (ByClass "opblock-tag-section"))
                      (subtree (documentElement d)) = true)
        by (apply existsb_exists; now exists x).
      congruence. }
    assert (Htags : extractTags d = []).
    { unfold extractTags. now rewrite Hsec. }
    repeat split; try assumption.
    unfold extractAllOperations. now rewrite Htags.
  - intros H. apply ciIncludes_spec in H. unfold ciIncludes in H.
    change (JS.toLowerCase "swagger") with "swagger" in H.
    unfold ContentScript.detectSwaggerUI. rewrite H.
    now destruct (existsb _ ContentScript.indicators).
Qed.

Lemma detectSwaggerUI_covers_extraction_witness :
  extractAllOperations petsDoc = [] /\
  ContentScript.detectSwaggerUI defaultDocA = true.
Proof.
  split.
  - apply (proj1 (detectSwaggerUI_covers_extraction petsDoc)). reflexivity.
  - apply (proj2 (detectSwaggerUI_covers_extraction defaultDocA)).
    exists "", "Swagger", " UI". split; reflexivity.
Defined.

(** X8.  [getMethodColor] does not depend on the letter case of the
    method.  It returns the class of the method for the seven methods of its
    table and the default class for every other name, except for the names
    [constructor] and [__proto__] in any letter case, for which the table
    yields an inherited property instead of a class. *)
Theorem getMethodColor_cases (m : string) :
  MethodColor.getMethodColor (JS.toUpperCase m) = MethodColor.getMethodColor m /\
  MethodColor.getMethodColor (JS.toLowerCase m) = MethodColor.getMethodColor m /\
  (MethodColor.getMethodColor m = None <->
   In (JS.toLowerCase m) ["constructor"; "__proto__"]) /\
  (forall c, MethodColor.getMethodColor m = Some c ->
             (In (JS.toLowerCase m) (map fst MethodColor.colorMap) /\
              c = ("method-" ++ JS.toLowerCase m)%string) \/
             (~ In (JS.toLowerCase m) (map fst MethodColor.colorMap) /\
              c = "method-default")).
Proof.
  unfold MethodColor.getMethodColor. cbn zeta.
  rewrite toLowerCase_toUpperCase, toLowerCase_idem.
  split; [reflexivity | split; [reflexivity|]].
  pose proof (toLowerCase_idem m) as Hl.
  remember (JS.toLowerCase m) as l eqn:El. clear El.
  unfold JSObject.getOwn, MethodColor.colorMap. cbn [find fst snd option_map].
  repeat match goal with
         | |- context [String.eqb ?k l] =>
             destruct (String.eqb_spec k l) as [<- | ?]
         end;
    cbn [option_map snd];
    try (split; [split; [discriminate | simpl; intuition discriminate]
                | intros c [= <-]; left; split; [simpl; tauto | reflexivity]]).
  split.
  - split.
    + destruct (JSObject.isInherited l) eqn:E; [intros _ | discriminate].
      unfold JSObject.isInherited, JSObject.inheritedKeys in E. simpl in E.
      repeat (apply orb_true_iff in E as [E | E]);
        try discriminate; apply String.eqb_eq in E; subst l;
        try (vm_compute in Hl; discriminate); simpl; tauto.
    + intros [<- | [<- | []]]; reflexivity.
  - intros c H. right.
    destruct (JSObject.isInherited l); [discriminate|].
    injection H as <-. split; [|reflexivity].
    simpl. intuition congruence.
Qed.

End ParserMore.

(** ** More on the panel: grouping and rendering *)

Section SidebarMore.
Import DOM DOMParser SidebarUI Grouping Examples.

Lemma groupOperationsByTag_fold (ops : list Operation) :
  groupOperationsByTag ops = fold_left groupStep ops (Some []).
Proof. reflexivity. Qed.

Lemma groupStep_None (ops : list Operation) : fold_left groupStep ops None = None.
Proof. induction ops as [|op ops IH]; [reflexivity | exact IH]. Qed.

Lemma getOwn_In {V : Type} (o : JSObject.t V) (k : string) (v : V) :
  JSObject.getOwn o k = Some v -> In (k, v) o.
Proof.
  unfold JSObject.getOwn. intros H.
  destruct (find (fun kv => String.eqb (fst kv) k) o) as [[k' v']|] eqn:E;
    [|discriminate].
  injection H as <-. apply find_some in E as [Hin Heq].
  apply String.eqb_eq in Heq. simpl in Heq. now subst k'.
Qed.

Lemma getOwn_None {V : Type} (o : JSObject.t V) (k : string) :
  JSObject.getOwn o k = None <-> ~ In k (map fst o).
Proof.
  unfold JSObject.getOwn. split.
  - intros H Hin. apply in_map_iff in Hin as ([k' v] & Hk & Hin).
    simpl in Hk. subst k'.
    destruct (find (fun kv => String.eqb (fst kv) k) o) eqn:E; [discriminate|].
    apply (find_none _ _ E) in Hin. simpl in Hin.
    now rewrite String.eqb_refl in Hin.
  - intros H.
    destruct (find (fun kv => String.eqb (fst kv) k) o) as [[k' v]|] eqn:E;
      [|reflexivity].
    apply find_some in E as [Hin Heq]. apply String.eqb_eq in Heq.
    simpl in Heq. subst k'. exfalso. apply H.
    apply in_map_iff. now exists (k, v).
Qed.

Lemma pushTo_keys (tag : string) (op : Operation) (o : JSObject.t Group) :
  map fst (pushTo tag op o) = map fst o.
Proof.
  induction o as [|[k g] r IH]; simpl; [reflexivity|].
  destruct (String.eqb k tag); simpl; [reflexivity | now rewrite IH].
Qed.

(** [push] reaches the group of the tag and no other. *)
Lemma pushTo_In (tag : string) (op : Operation) (o : JSObject.t Group)
      (t : string) (g' : Group) :
  NoDup (map fst o) ->
  In (t, g') (pushTo tag op o) ->
  exists g, In (t, g) o /\
            operations g' = operations g ++ (if String.eqb t tag then [op] else []) /\
            description g' = description g.
Proof.
  induction o as [|[k g] r IH]; simpl; intros Hnd Hin; [destruct Hin|].
  inversion Hnd as [|? ? Hk Hr]; subst.
  destruct (String.eqb_spec k tag) as [-> | Hne].
  - destruct Hin as [[= <- <-] | Hin].
    + exists g. rewrite String.eqb_refl. now repeat split; [left|..].
    + exists g'. split; [now right|].
      destruct (String.eqb_spec t tag) as [-> | _].
      * exfalso. apply Hk. apply in_map_iff. now exists (tag, g').
      * now rewrite app_nil_r.
  - destruct Hin as [[= <- <-] | Hin].
    + exists g. destruct (String.eqb_spec k tag) as [-> | _]; [contradiction|].
      rewrite app_nil_r. now repeat split; [left|..].
    + destruct (IH Hr Hin) as (g0 & Hg0 & Hops & Hd).
      exists g0. split; [now right | now split].
Qed.

Lemma ofArray_snoc (l : list string) (k : string) :
  JSSet.ofArray (l ++ [k]) = JSSet.add (JSSet.ofArray l) k.
Proof. unfold JSSet.ofArray. now rewrite fold_left_app. Qed.

Lemma ofArray_tags_snoc (seen : list Operation) (op : Operation) :
  JSSet.ofArray (map tagOf (seen ++ [op]))
  = JSSet.add (JSSet.ofArray (map tagOf seen)) (tagOf op).
Proof. rewrite map_app. apply ofArray_snoc. Qed.

Lemma filter_snoc {A : Type} (f : A -> bool) (l : list A) (x : A) :
  filter f (l ++ [x]) = filter f l ++ (if f x then [x] else []).
Proof. rewrite filter_app. reflexivity. Qed.

Lemma groupedAfter_NoDup (seen : list Operation) (o : JSObject.t Group) :
  groupedAfter seen o -> NoDup (map fst o).
Proof. intros [H _]. rewrite H. apply SetFacts.ofArray_NoDup. Qed.

Lemma filter_ofTag_nil (seen : list Operation) (tag : string) :
  ~ In tag (JSSet.ofArray (map tagOf seen)) -> filter (ofTag tag) seen = [].
Proof.
  intros H. apply filter_none. apply Forall_forall. intros op Hop.
  unfold ofTag. apply String.eqb_neq. intros <-. apply H.
  apply SetFacts.In_ofArray. now apply in_map.
Qed.

Lemma groupStep_ok (seen : list Operation) (o : JSObject.t Group)
      (op : Operation) (o' : JSObject.t Group) :
  groupedAfter seen o ->
  groupStep (Some o) op = Some o' ->
  groupedAfter (seen ++ [op]) o'.
Proof.
  intros Hok Hstep. pose proof (groupedAfter_NoDup _ _ Hok) as Hnd.
  destruct Hok as [Hkeys Hgroups]. unfold groupStep in Hstep. cbn zeta in Hstep.
  destruct (JSObject.getOwn o (tagOf op)) as [g0|] eqn:Eown.
  - injection Hstep as <-. apply getOwn_In in Eown.
    assert (Hin : In (tagOf op) (map fst o))
      by (apply in_map_iff; now exists (tagOf op, g0)).
    split.
    + rewrite pushTo_keys, ofArray_tags_snoc, <- Hkeys.
      unfold JSSet.add. apply SetFacts.has_true in Hin. now rewrite Hin.
    + intros tag grp H. apply (pushTo_In _ _ _ _ _ Hnd) in H
        as (g & Hg & Hops & Hd).
      destruct (Hgroups tag g Hg) as [Hf Hdesc].
      split; [|congruence]. rewrite Hops, Hf, filter_snoc. unfold ofTag.
      now rewrite (String.eqb_sym (tagOf op) tag).
  - destruct (JSObject.isInherited (tagOf op)); [discriminate|].
    injection Hstep as <-. apply getOwn_None in Eown.
    assert (Hnd' : NoDup (map fst (o ++ [(tagOf op,
                                          {| operations := [];
                                             description := "" |})]))).
    { rewrite map_app. simpl. apply NoDup_app; [exact Hnd | repeat constructor; intros []|].
      intros x Hx [<- | []]. contradiction. }
    split.
    + rewrite pushTo_keys, map_app, ofArray_tags_snoc, <- Hkeys.
      unfold JSSet.add. apply SetFacts.has_false in Eown. now rewrite Eown.
    + intros tag grp H. apply (pushTo_In _ _ _ _ _ Hnd') in H
        as (g & Hg & Hops & Hd).
      rewrite filter_snoc. unfold ofTag at 2.
      rewrite (String.eqb_sym (tagOf op) tag).
      apply in_app_iff in Hg as [Hg | [[= <- <-] | []]].
      * destruct (Hgroups tag g Hg) as [Hf Hdesc].
        split; [|congruence]. now rewrite Hops, Hf.
      * split; [|exact Hd]. rewrite Hops. simpl.
        rewrite filter_ofTag_nil; [reflexivity|]. now rewrite <- Hkeys.
Qed.

Lemma groupStep_fold_ok (ops seen : list Operation) (o g : JSObject.t Group) :
  groupedAfter seen o ->
  fold_left groupStep ops (Some o) = Some g ->
  groupedAfter (seen ++ ops) g.
Proof.
  revert seen o. induction ops as [|op ops IH]; intros seen o Hok H.
  - injection H as <-. now rewrite app_nil_r.
  - cbn [fold_left] in H. destruct (groupStep (Some o) op) as [o'|] eqn:E.
    + change (seen ++ op :: ops) with (seen ++ [op] ++ ops).
      rewrite app_assoc. apply (IH _ o'); [|exact H].
      now apply (groupStep_ok seen o).
    + rewrite groupStep_None in H. discriminate.
Qed.

Lemma groupedAfter_nil : groupedAfter [] [].
Proof. split; [reflexivity | intros tag grp []]. Qed.

Lemma groupOperationsByTag_ok (ops : list Operation) (g : JSObject.t Group) :
  groupOperationsByTag ops = Some g -> groupedAfter ops g.
Proof.
  rewrite groupOperationsByTag_fold.
  apply (groupStep_fold_ok ops [] [] g groupedAfter_nil).
Qed.

Lemma existsb_false_Forall {A : Type} (f : A -> bool) (l : list A) :
  existsb f l = false -> Forall (fun x => f x = false) l.
Proof.
  induction l as [|x l IH]; simpl; intros H; [constructor|].
  apply orb_false_iff in H as [Hx Hl]. constructor; [exact Hx | now apply IH].
Qed.

Lemma groupStep_raises (ops : list Operation) (o : JSObject.t Group) :
  Forall (fun k => JSObject.isInherited k = false) (map fst o) ->
  (exists op, In op ops /\ JSObject.isInherited (tagOf op) = true) ->
  fold_left groupStep ops (Some o) = None.
Proof.
  revert o. induction ops as [|op ops IH]; intros o Hkeys (bad & Hin & Hbad).
  - destruct Hin.
  - simpl. destruct (JSObject.isInherited (tagOf op)) eqn:E.
    + assert (Hown : JSObject.getOwn o (tagOf op) = None).
      { apply getOwn_None. intros Hk. rewrite Forall_forall in Hkeys.
        specialize (Hkeys _ Hk). congruence. }
      rewrite Hown. apply groupStep_None.
    + destruct Hin as [-> | Hin]; [congruence|].
      destruct (JSObject.getOwn o (tagOf op)).
      * apply IH; [now rewrite pushTo_keys | now exists bad].
      * apply IH; [|now exists bad].
        rewrite pushTo_keys, map_app. apply Forall_app. split; [exact Hkeys|].
        now repeat constructor.
Qed.

(** X10.  [groupOperationsByTag] raises exactly when the tag of some
    operation is the name of a property that every object inherits, such as
    [constructor] or [toString]; otherwise it returns an object. *)
Theorem groupOperationsByTag_raises (ops : list Operation) :
  groupOperationsByTag ops = None <->
  exists op, In op ops /\ JSObject.isInherited (tagOf op) = true.
Proof.
  split.
  - intros H.
    destruct (existsb (fun op => JSObject.isInherited (tagOf op)) ops) eqn:E.
    + apply existsb_exists in E as (op & Hop & Hi). now exists op.
    + apply existsb_false_Forall in E.
      destruct (groupOperationsByTag_total ops E) as [g Hg]. congruence.
  - intros H. rewrite groupOperationsByTag_fold.
    apply groupStep_raises; [constructor | exact H].
Qed.

Lemma insertSorted_perm (x : N * string) (l : list (N * string)) :
  Permutation (JSObject.insertSorted x l) (x :: l).
Proof.
  induction l as [|y l IH]; simpl; [apply Permutation_refl|].
  destruct (N.ltb (fst x) (fst y)); [apply Permutation_refl|].
  eapply Permutation_trans; [apply perm_skip, IH | apply perm_swap].
Qed.

Lemma indexKeys_perm (ks : list string) (acc : list (N * string)) :
  Permutation
    (map snd
       (fold_left
          (fun acc k =>
             match JSObject.arrayIndex k with
             | Some v => JSObject.insertSorted (v, k) acc
             | None => acc
             end) ks acc))
    (map snd acc ++
     filter (fun k => match JSObject.arrayIndex k with
                      | Some _ => true
                      | None => false
                      end) ks).
Proof.
  revert acc. induction ks as [|k ks IH]; intros acc; simpl.
  - rewrite app_nil_r. apply Permutation_refl.
  - destruct (JSObject.arrayIndex k) as [v|].
    + eapply Permutation_trans; [apply IH|].
      eapply Permutation_trans;
        [apply Permutation_app_tail, Permutation_map, insertSorted_perm|].
      simpl. apply Permutation_middle.
    + apply IH.
Qed.

Lemma filter_split_perm {A : Type} (f : A -> bool) (l : list A) :
  Permutation (filter f l ++ filter (fun x => negb (f x)) l) l.
Proof.
  induction l as [|x l IH]; simpl; [constructor|].
  destruct (f x); simpl.
  - now apply perm_skip.
  - eapply Permutation_trans; [apply Permutation_sym, Permutation_middle|].
    now apply perm_skip.
Qed.

(** [Object.keys] lists every own key once. *)
Lemma keys_perm {V : Type} (o : JSObject.t V) :
  Permutation (JSObject.keys o) (map fst o).
Proof.
  unfold JSObject.keys. cbn zeta.
  eapply Permutation_trans;
    [apply Permutation_app_tail, indexKeys_perm|]. simpl.
  eapply Permutation_trans; [|apply (filter_split_perm
    (fun k => match JSObject.arrayIndex k with
              | Some _ => true
              | None => false
              end))].
  apply Permutation_app_head.
  erewrite filter_ext; [apply Permutation_refl|].
  intros k. cbn beta. now destruct (JSObject.arrayIndex k).
Qed.

(** Without array-index keys, [Object.keys] keeps the creation order. *)
Lemma keys_creation_order {V : Type} (o : JSObject.t V) :
  Forall (fun k => JSObject.arrayIndex k = None) (map fst o) ->
  JSObject.keys o = map fst o.
Proof.
  unfold JSObject.keys. cbn zeta. generalize (map fst o) as ks. intros ks H.
  assert (Hfold : forall acc,
             fold_left
               (fun acc k =>
                  match JSObject.arrayIndex k with
                  | Some v => JSObject.insertSorted (v, k) acc
                  | None => acc
                  end) ks acc = acc).
  { induction H as [|k ks Hk _ IH]; intros acc; simpl; [reflexivity|].
    rewrite Hk. apply IH. }
  rewrite Hfold. simpl. apply forallb_filter_id. apply forallb_forall.
  rewrite Forall_forall in H. intros k Hk. now rewrite (H k Hk).
Qed.

Lemma renderTags_fold (d : Document) (keys : JSSet.t) (g : JSObject.t Group)
      (names : list string) (html : list TagSection) :
  fold_left
    (fun html tagName =>
       match JSObject.getOwn g tagName with
       | Some tagData =>
           html ++ [renderTag d keys tagName (operations tagData)
                              (description tagData)]
       | None => html
       end) names html
  = html ++
    flat_map (fun tagName =>
                match JSObject.getOwn g tagName with
                | Some tagData =>
                    [renderTag d keys tagName (operations tagData)
                               (description tagData)]
                | None => []
                end) names.
Proof.
  revert html. induction names as [|n names IH]; intros html; simpl.
  - now rewrite app_nil_r.
  - rewrite IH. destruct (JSObject.getOwn g n); [|reflexivity].
    now rewrite <- app_assoc.
Qed.

Lemma renderTags_grouped (d : Document) (keys : JSSet.t) (g : JSObject.t Group)
      (shown : list Operation) (names : list string) :
  groupedAfter shown g ->
  (forall n, In n names -> In n (map fst g)) ->
  flat_map (fun tagName =>
              match JSObject.getOwn g tagName with
              | Some tagData =>
                  [renderTag d keys tagName (operations tagData)
                             (description tagData)]
              | None => []
              end) names
  = tagSections d keys shown names.
Proof.
  intros [Hkeys Hgroups] Hnames. unfold tagSections.
  induction names as [|n names IH]; simpl; [reflexivity|].
  rewrite IH by (intros x Hx; apply Hnames; now right).
  destruct (JSObject.getOwn g n) as [grp|] eqn:E.
  - apply getOwn_In in E. destruct (Hgroups n grp E) as [-> ->]. reflexivity.
  - apply getOwn_None in E. exfalso. apply E, Hnames. now left.
Qed.

(** The sections that a successful rendering writes. *)
Lemma renderOperations_sections (d : Document) (s s' : State) :
  renderOperations d s = Some s' ->
  let shown := filterOperations (allOperations s) (searchTerm s) in
  let keys := starredRouteKeys s in
  let starredOps := starredAmong d keys shown in
  exists g,
    groupOperationsByTag shown = Some g /\
    let html :=
      (match starredOps with
       | [] => []
       | _ :: _ => [renderStarredSection d keys starredOps]
       end) ++ tagSections d keys shown (JSObject.keys g) in
    s' = withList s (match html with
                     | [] => EmptyState
                     | _ :: _ => Rendered html
                     end).
Proof.
  unfold renderOperations. intros H. cbn zeta.
  destruct (sidebarElement s); [|discriminate].
  destruct (groupOperationsByTag
              (filterOperations (allOperations s) (searchTerm s)))
    as [g|] eqn:Eg; [|discriminate].
  injection H as <-. exists g. split; [reflexivity|].
  rewrite renderTags_fold.
  rewrite (renderTags_grouped d _ g
             (filterOperations (allOperations s) (searchTerm s))).
  - unfold starredAmong.
    destruct (filter _ (filterOperations (allOperations s) (searchTerm s)));
      reflexivity.
  - now apply groupOperationsByTag_ok.
  - intros n Hn. apply (Permutation_in _ (keys_perm g)). exact Hn.
Qed.

Lemma ofArray_nil_iff (l : list string) : JSSet.ofArray l = [] <-> l = [].
Proof.
  split; [|now intros ->]. destruct l as [|x l]; [reflexivity|]. intros H.
  assert (Hin : In x (JSSet.ofArray (x :: l)))
    by (apply SetFacts.In_ofArray; now left).
  now rewrite H in Hin.
Qed.

(** X9.  [groupOperationsByTag] partitions the operations by tag.
    [Object.keys] of the object lists the distinct tags, each once: the tags
    that are array indices first, in ascending numeric order, then the other
    tags in the order of their first operation, so that the tags come in the
    order of their first operation when none of them is an array index.  The
    group of a tag holds exactly the operations of that tag in their order
    and is never empty, every description is empty, and every operation is
    filed under its tag. *)
Theorem groupOperationsByTag_partition (ops : list Operation)
        (g : JSObject.t Group) :
  groupOperationsByTag ops = Some g ->
  let tags := JSSet.ofArray (map tagOf ops) in
  JSObject.keys g = JSObject.keys (map (fun tag => (tag, tt)) tags) /\
  Permutation (JSObject.keys g) tags /\
  (Forall (fun t => JSObject.arrayIndex t = None) (map tagOf ops) ->
   JSObject.keys g = tags) /\
  NoDup (JSObject.keys g) /\
  (forall tag,
      In tag (JSObject.keys g) ->
      exists grp,
        JSObject.getOwn g tag = Some grp /\
        operations grp = filter (ofTag tag) ops /\
        operations grp <> [] /\
        description grp = "") /\
  (forall op, In op ops ->
              exists grp, JSObject.getOwn g (tagOf op) = Some grp /\
                          In op (operations grp)).
Proof.
  intros H tags. apply groupOperationsByTag_ok in H.
  pose proof (groupedAfter_NoDup _ _ H) as Hnd. destruct H as [Hkeys Hgroups].
  fold tags in Hkeys.
  assert (Hperm : Permutation (JSObject.keys g) tags)
    by (rewrite <- Hkeys; apply keys_perm).
  split; [|split; [exact Hperm | split; [|split; [|split]]]].
  - unfold JSObject.keys. rewrite Hkeys, map_map. cbn [fst].
    now rewrite map_id.
  - intros Hidx. rewrite <- Hkeys. apply keys_creation_order.
    rewrite Hkeys. rewrite Forall_forall in *. intros t Ht.
    apply Hidx. now apply SetFacts.In_ofArray.
  - apply (Permutation_NoDup (l := map fst g)); [|exact Hnd].
    apply Permutation_sym, keys_perm.
  - intros tag Htag. apply (Permutation_in _ Hperm) in Htag.
    destruct (JSObject.getOwn g tag) as [grp|] eqn:E.
    + exists grp. split; [reflexivity|]. apply getOwn_In in E.
      destruct (Hgroups tag grp E) as [Hf Hd].
      split; [exact Hf | split; [|exact Hd]].
      unfold tags in Htag. apply (proj1 (SetFacts.In_ofArray _ _)) in Htag.
      apply in_map_iff in Htag as (op & Hop & Hin').
      rewrite Hf. intros Hnil.
      assert (Hx : In op (filter (ofTag tag) ops)).
      { apply filter_In. split; [exact Hin'|]. unfold ofTag.
        now apply String.eqb_eq. }
      now rewrite Hnil in Hx.
    + exfalso. apply getOwn_None in E. apply E. now rewrite Hkeys.
  - intros op Hop.
    destruct (JSObject.getOwn g (tagOf op)) as [grp|] eqn:E.
    + exists grp. split; [reflexivity|]. apply getOwn_In in E.
      destruct (Hgroups _ _ E) as [-> _]. apply filter_In.
      split; [exact Hop | apply String.eqb_refl].
    + exfalso. apply getOwn_None in E. apply E. rewrite Hkeys.
      apply SetFacts.In_ofArray. now apply in_map.
Qed.

Lemma groupOperationsByTag_partition_witness :
  let tagged (op : Operation) (n : string) :=
    withTag op {| name := n; tag_id := "tag-" ++ n;
                  tag_element := Text "" |} in
  let ops := [tagged getPets "b"; tagged postPets "10"; tagged getPets "2";
              tagged postPets "b"] in
  exists g,
    groupOperationsByTag ops = Some g /\
    JSObject.keys g = ["2"; "10"; "b"] /\
    exists grp,
      JSObject.getOwn g "b" = Some grp /\
      operations grp = [tagged getPets "b"; tagged postPets "b"].
Proof.
  intros tagged ops. eexists. split; [reflexivity|].
  match goal with
  | |- JSObject.keys ?g = _ /\ _ =>
      destruct (groupOperationsByTag_partition ops g eq_refl)
        as (Hkeys & _ & _ & _ & Hgroups & _)
  end.
  split; [rewrite Hkeys; reflexivity|].
  destruct (Hgroups "b") as (grp & Hown & Hops & _).
  - rewrite Hkeys. vm_compute. do 2 right. now left.
  - exists grp. split; [exact Hown|]. rewrite Hops. reflexivity.
Defined.

Lemma plainItem_dataset (it : Item) :
  Markup.plainItem it = true -> itemDataset it = Some (data_method it, data_path it).
Proof.
  unfold Markup.plainItem, Markup.plainText, itemDataset. intros H.
  apply andb_true_iff in H as [H _]. apply andb_true_iff in H as [Hm Hp].
  apply andb_true_iff in Hm as [Hm _]. apply andb_true_iff in Hp as [Hp _].
  now rewrite Hm, (attributeValue_plain _ Hp).
Qed.

Lemma plainOperation_item (d : Document) (keys : JSSet.t) (op : Operation)
      (inStarred : bool) :
  Markup.plainOperation op = true ->
  Markup.plainItem (renderOperation d keys op inStarred) = true.
Proof.
  unfold Markup.plainOperation, Markup.plainItem. cbn [renderOperation data_method data_path
                                          item_summary].
  intros H. apply andb_true_iff in H as [H _]. exact H.
Qed.

Lemma plainOperation_items (d : Document) (keys : JSSet.t)
      (ops : list Operation) (inStarred : bool) :
  Forall (fun op => Markup.plainOperation op = true) ops ->
  forallb Markup.plainItem (map (fun op => renderOperation d keys op inStarred) ops)
  = true.
Proof.
  induction 1 as [|op ops Hop _ IH]; [reflexivity|]. cbn [map forallb].
  now rewrite (plainOperation_item d keys op inStarred Hop), IH.
Qed.

Lemma forallb_Forall_true {A : Type} (f : A -> bool) (l : list A) :
  forallb f l = true -> Forall (fun x => f x = true) l.
Proof.
  intros H. apply Forall_forall. now apply forallb_forall.
Qed.

Lemma forallb_Forall_false {A : Type} (f : A -> bool) (l : list A) :
  forallb (fun x => negb (f x)) l = true -> Forall (fun x => f x = false) l.
Proof.
  intros H. apply Forall_forall. intros x Hx.
  rewrite forallb_forall in H. now apply negb_true_iff, H.
Qed.

Lemma Forall_filter {A : Type} (P : A -> Prop) (f : A -> bool) (l : list A) :
  Forall P l -> Forall P (filter f l).
Proof.
  induction 1 as [|x l Hx _ IH]; simpl; [constructor|].
  destruct (f x); [now constructor | exact IH].
Qed.

Lemma tagSections_plain (d : Document) (keys : JSSet.t)
      (shown : list Operation) (tags : list string) :
  Forall (fun op => Markup.plainOperation op = true) shown ->
  (forall tag, In tag tags -> In tag (map tagOf shown)) ->
  forallb Markup.plainSection (tagSections d keys shown tags) = true.
Proof.
  intros Hshown Htags. apply forallb_forall. intros sec Hsec.
  unfold tagSections in Hsec. apply in_map_iff in Hsec as (tag & <- & Htag).
  unfold Markup.plainSection. cbn [renderTag tag_name items].
  apply andb_true_iff. split.
  - apply Htags, in_map_iff in Htag as (op & <- & Hop).
    rewrite Forall_forall in Hshown. specialize (Hshown op Hop).
    unfold Markup.plainOperation in Hshown. now apply andb_true_iff in Hshown as [_ H].
  - apply plainOperation_items. now apply Forall_filter.
Qed.

Lemma renderOperations_plain (d : Document) (s s' : State) :
  renderOperations d s = Some s' ->
  Forall (fun op => Markup.plainOperation op = true)
         (filterOperations (allOperations s) (searchTerm s)) ->
  Markup.plainPanel s' = true.
Proof.
  intros H Hplain.
  destruct (renderOperations_sections d s s' H) as (g & Hg & Hs').
  cbn zeta in Hs'. apply groupOperationsByTag_ok in Hg as [Hkeys _].
  set (shown := filterOperations (allOperations s) (searchTerm s)) in *.
  set (html := _ ++ tagSections d _ shown (JSObject.keys g)) in Hs'.
  assert (Hsec : sectionsOf s' = html).
  { rewrite Hs'. unfold sectionsOf. simpl. now destruct html. }
  unfold Markup.plainPanel. rewrite Hsec. unfold html. rewrite forallb_app.
  apply andb_true_iff. split.
  - destruct (starredAmong d (starredRouteKeys s) shown) as [|op ops] eqn:E;
      [reflexivity|].
    cbn [forallb]. rewrite andb_true_r. unfold Markup.plainSection.
    cbn [renderStarredSection tag_name items].
    change (Markup.plainText "Starred Routes") with true. cbn [andb].
    apply plainOperation_items. rewrite <- E. unfold starredAmong.
    now apply Forall_filter.
  - apply tagSections_plain; [exact Hplain|]. intros tag Htag.
    apply (Permutation_in _ (keys_perm g)) in Htag. rewrite Hkeys in Htag.
    now apply SetFacts.In_ofArray.
Qed.

Lemma plainPanel_item (s : State) (sec : TagSection) (it : Item) :
  Markup.plainPanel s = true -> In sec (sectionsOf s) -> In it (items sec) ->
  Markup.plainItem it = true.
Proof.
  unfold Markup.plainPanel. intros H Hsec Hit.
  rewrite forallb_forall in H. specialize (H sec Hsec).
  unfold Markup.plainSection in H. apply andb_true_iff in H as [_ H].
  rewrite forallb_forall in H. now apply H.
Qed.

(** X11.  What a successful [renderOperations] shows, for filtered
    operations whose method, path, summary and tag stand for themselves in
    the markup (no double quote, ampersand, [<], carriage return or NUL).
    The list holds the section of the starred routes first, when one of the
    filtered operations is starred, with those operations in their order;
    then one section for each distinct tag of the filtered operations, with
    exactly the operations of that tag in their order.  The tags come in the
    order of their first operation unless one of them is an array index.
    The empty state is shown exactly when the filter keeps nothing, nothing
    else of the state changes, and every item of the parsed list carries the
    method and the path of its operation. *)
Theorem renderOperations_content (d : Document) (s s' : State) :
  renderOperations d s = Some s' ->
  let shown := filterOperations (allOperations s) (searchTerm s) in
  let keys := starredRouteKeys s in
  let starredOps := starredAmong d keys shown in
  Forall (fun op => Markup.plainOperation op = true) shown ->
  exists tags,
    Permutation tags (JSSet.ofArray (map tagOf shown)) /\
    (Forall (fun t => JSObject.arrayIndex t = None) (map tagOf shown) ->
     tags = JSSet.ofArray (map tagOf shown)) /\
    sectionsOf s'
    = (match starredOps with
       | [] => []
       | _ :: _ => [renderStarredSection d keys starredOps]
       end) ++ tagSections d keys shown tags /\
    (sidebarElement s' = Some EmptyState <-> shown = []) /\
    s' = withList s (match sectionsOf s' with
                     | [] => EmptyState
                     | _ :: _ => Rendered (sectionsOf s')
                     end) /\
    Markup.plainPanel s' = true /\
    (forall sec it,
        In sec (sectionsOf s') -> In it (items sec) ->
        itemDataset it = Some (data_method it, data_path it)).
Proof.
  intros H shown keys starredOps Hplain.
  pose proof (renderOperations_plain d s s' H Hplain) as Hpanel.
  destruct (renderOperations_sections d s s' H) as (g & Hg & Hs').
  fold shown keys starredOps in Hg, Hs'. cbn zeta in Hs'.
  apply groupOperationsByTag_ok in Hg as Hok. destruct Hok as [Hkeys _].
  assert (Hperm : Permutation (JSObject.keys g) (JSSet.ofArray (map tagOf shown)))
    by (rewrite <- Hkeys; apply keys_perm).
  exists (JSObject.keys g).
  set (html := (match starredOps with
                | [] => []
                | _ :: _ => [renderStarredSection d keys starredOps]
                end) ++ tagSections d keys shown (JSObject.keys g)) in *.
  assert (Hsec : sectionsOf s' = html).
  { rewrite Hs'. unfold sectionsOf. simpl. now destruct html. }
  split; [exact Hperm | split; [|split; [exact Hsec | split; [|split]]]].
  - intros Hidx. rewrite <- Hkeys. apply keys_creation_order.
    rewrite Hkeys. rewrite Forall_forall in *. intros t Ht.
    apply Hidx. now apply SetFacts.In_ofArray.
  - rewrite Hs'. simpl. split.
    + intros Hempty. destruct html as [|sec html'] eqn:Eh; [|discriminate].
      unfold html in Eh. apply app_eq_nil in Eh as [_ Eh].
      unfold tagSections in Eh. apply map_eq_nil in Eh.
      rewrite Eh in Hperm. apply Permutation_nil in Hperm.
      apply (proj1 (ofArray_nil_iff _)) in Hperm.
      now apply map_eq_nil in Hperm.
    + intros Hnil. unfold html, starredOps, starredAmong.
      rewrite Hnil in Hperm. simpl in Hperm.
      apply Permutation_sym, Permutation_nil in Hperm.
      rewrite Hperm, Hnil. reflexivity.
  - rewrite Hsec. exact Hs'.
  - split; [exact Hpanel|]. intros sec it Hin Hit.
    apply plainItem_dataset. now apply (plainPanel_item s' sec it).
Qed.

Lemma renderOperations_content_witness :
  let keys := ["Pets API::POST::/pets"] in
  let s := {| sidebarElement := Some LoadingState; isCollapsed := false;
              activeTagId := None; searchTerm := "pets";
              allOperations := [getPets; postPets];
              starredRouteKeys := keys |} in
  let s' := withList s
              (Rendered [ renderStarredSection petsDoc keys [postPets];
                          renderTag petsDoc keys "pets" [getPets; postPets] "" ]) in
  renderOperations petsDoc s = Some s' /\
  exists tags,
    Permutation tags ["pets"] /\
    sectionsOf s'
    = ([renderStarredSection petsDoc keys [postPets]]
       ++ tagSections petsDoc keys [getPets; postPets] tags)%list /\
    (sidebarElement s' = Some EmptyState <->
     filterOperations (allOperations s) (searchTerm s) = []) /\
    Markup.plainPanel s' = true.
Proof.
  intros keys s s'.
  assert (E : renderOperations petsDoc s = Some s') by (vm_compute; reflexivity).
  assert (Hplain : Forall (fun op => Markup.plainOperation op = true)
                          (filterOperations (allOperations s) (searchTerm s)))
    by (apply forallb_Forall_true; vm_compute; reflexivity).
  destruct (renderOperations_content petsDoc s s' E Hplain)
    as (tags & Hperm & _ & Hsec & Hempty & _ & Hpanel & _).
  split; [exact E|]. exists tags.
  split; [exact Hperm | split; [exact Hsec | split; [exact Hempty | exact Hpanel]]].
Defined.

Lemma allChars_isSpace_trimStart (v : string) :
  allChars JS.isSpace v = true -> JS.trimStart v = "".
Proof.
  induction v as [|c v IH]; simpl; [reflexivity|]. intros H.
  apply andb_true_iff in H as [Hc Hv]. rewrite Hc. now apply IH.
Qed.

Lemma allChars_mapChars (p : ascii -> bool) (f : ascii -> ascii) (v : string) :
  (forall c, p (f c) = p c) ->
  allChars p (JS.mapChars f v) = allChars p v.
Proof.
  intros H. induction v as [|c v IH]; simpl; [reflexivity|].
  now rewrite H, IH.
Qed.

Lemma trim_empty_iff (v : string) :
  JS.trim v = "" <-> allChars JS.isSpace v = true.
Proof.
  split.
  - unfold JS.trim. induction v as [|c v IH]; simpl; [reflexivity|].
    destruct (JS.isSpace c) eqn:Ec; [exact IH|].
    rewrite trimEnd_cons. destruct (JS.trimEnd v); [|discriminate].
    now rewrite Ec.
  - intros H. unfold JS.trim. now rewrite allChars_isSpace_trimStart.
Qed.

(** X12.  A search value in the ASCII range searches for the empty term
    exactly when it consists of white space only.  A value that consists of
    ASCII white space only renders what the clear button renders, and then
    every operation of the page is shown. *)
Theorem handleSearch_blank (d : Document) (value : string) (s : State) :
  (JS.isAscii value = true ->
   (allChars JS.isSpace value = true <->
    JS.trim (JS.toLowerCase value) = "")) /\
  (allChars JS.isSpace value = true ->
   handleSearch d value s = clearSearch d s) /\
  (forall s',
      clearSearch d s = Some s' ->
      searchTerm s' = "" /\
      filterOperations (allOperations s') (searchTerm s') = allOperations s /\
      (sidebarElement s' = Some EmptyState <-> allOperations s = [])).
Proof.
  assert (Hiff : allChars JS.isSpace value = true <->
                 JS.trim (JS.toLowerCase value) = "").
  { rewrite trim_empty_iff. unfold JS.toLowerCase.
    now rewrite (allChars_mapChars _ _ _ isSpace_lowerChar). }
  split; [intros _; exact Hiff | split].
  - intros H. apply Hiff in H. unfold handleSearch, clearSearch. now rewrite H.
  - intros s' H. unfold clearSearch in H.
    destruct (renderOperations_sections d _ s' H) as (g & Hg & Hs').
    cbn [searchTerm allOperations starredRouteKeys] in Hg, Hs'.
    cbn zeta in Hs'. change (filterOperations (allOperations s) "")
      with (allOperations s) in Hg, Hs'.
    apply groupOperationsByTag_ok in Hg as [Hkeys _].
    assert (Hperm : Permutation (JSObject.keys g)
                      (JSSet.ofArray (map tagOf (allOperations s))))
      by (rewrite <- Hkeys; apply keys_perm).
    rewrite Hs'. cbn [withList searchTerm allOperations sidebarElement].
    split; [reflexivity | split; [reflexivity|]]. split.
    + intros Hempty.
      destruct (_ ++ tagSections d _ (allOperations s) (JSObject.keys g))
        as [|sec html'] eqn:Eh; [|discriminate].
      apply app_eq_nil in Eh as [_ Eh].
      unfold tagSections in Eh. apply map_eq_nil in Eh.
      rewrite Eh in Hperm. apply Permutation_nil in Hperm.
      apply (proj1 (ofArray_nil_iff _)) in Hperm.
      now apply map_eq_nil in Hperm.
    + intros Hnil. rewrite Hnil in Hperm. simpl in Hperm.
      apply Permutation_sym, Permutation_nil in Hperm.
      rewrite Hperm, Hnil. reflexivity.
Qed.

Lemma handleSearch_blank_witness :
  let value := String "009"%char "  " in
  JS.trim (JS.toLowerCase value) = "" /\
  handleSearch petsPageDoc value (refreshed petsPageDoc [] freshPanel)
  = clearSearch petsPageDoc (refreshed petsPageDoc [] freshPanel).
Proof.
  intros value.
  destruct (handleSearch_blank petsPageDoc value
              (refreshed petsPageDoc [] freshPanel)) as (Hiff & Hclear & _).
  split.
  - apply (Hiff eq_refl). reflexivity.
  - apply Hclear. reflexivity.
Defined.

End SidebarMore.

(** ** More on the mutation handler *)

Section HandlerMore.
Import DOM MutationHandler Injection Examples.

Local Open Scope nat_scope.

Lemma qualifying_spec (n : node) :
  isElement n &&
  (matches (OrSel (ByClass "opblock") (ByClass "opblock-tag-section")) n
   || match querySelector (ByClass "opblock") n with
      | Some _ => true
      | None => false
      end) = true
  <-> qualifying n.
Proof.
  unfold qualifying, querySelector, querySelectorAll.
  rewrite (select_single (ByClass "opblock") n).
  cbn [matches]. split.
  - intros H. apply andb_true_iff in H as [_ H].
    apply orb_true_iff in H as [H | H].
    + apply orb_true_iff in H as [H | H]; [right | now left].
      cbn [matches] in H. now rewrite H.
    + right. destruct (select (ByClass "opblock") (childNodes n)); [discriminate|].
      intros Hnil. now apply app_eq_nil in Hnil as [_ Hnil].
  - intros [H | H].
    + rewrite (matches_isElement (ByClass "opblock-tag-section") n H).
      rewrite H. now rewrite orb_true_r.
    + destruct n as [s|t i cl a ch]; [now elim H|].
      cbn [isElement andb childNodes] in *.
      destruct (classList_contains (Elem t i cl a ch) "opblock"); [reflexivity|].
      destruct (select (ByClass "opblock") ch); [now elim H|].
      now rewrite orb_true_r.
Qed.

Lemma star_button_not_qualifying_node (m p : string) (flag : bool) :
  isElement (createStarButton m p flag) &&
  (matches (OrSel (ByClass "opblock") (ByClass "opblock-tag-section"))
           (createStarButton m p flag)
   || match querySelector (ByClass "opblock") (createStarButton m p flag) with
      | Some _ => true
      | None => false
      end) = false.
Proof. now destruct flag. Qed.

(** X13.  A batch of mutations schedules a reconciliation exactly when one
    of its added nodes is a tag section or has an operation block in its
    subtree.  A batch that does not leaves the module as it is, and the star
    buttons that the module adds itself never count. *)
Theorem shouldReinit_spec (ms : list MutationRecord) :
  (shouldReinit ms = true <->
   exists m n, In m ms /\ In n (addedNodes m) /\ qualifying n) /\
  (forall w, shouldReinit ms = false -> handle (ObserverCallback ms) w = w) /\
  (forall stars,
      Forall (fun n => exists m p flag, n = createStarButton m p flag) stars ->
      shouldReinit (ms ++ [ {| addedNodes := stars |} ]) = shouldReinit ms).
Proof.
  split; [|split].
  - unfold shouldReinit. rewrite existsb_exists. split.
    + intros (m & Hm & H). apply existsb_exists in H as (n & Hn & H).
      exists m, n. split; [exact Hm | split; [exact Hn|]].
      now apply qualifying_spec.
    + intros (m & n & Hm & Hn & H). exists m. split; [exact Hm|].
      apply existsb_exists. exists n. split; [exact Hn|].
      now apply qualifying_spec.
  - intros w H. unfold handle, handleMutations. rewrite H.
    now destruct (observer (vars w)).
  - intros stars H. unfold shouldReinit. rewrite existsb_app.
    cbn [existsb addedNodes]. rewrite orb_false_r.
    match goal with
    | |- ?a || ?b = ?a => assert (Hb : b = false); [|now rewrite Hb, orb_false_r]
    end.
    induction H as [|n stars (m & p & flag & ->) _ IH]; [reflexivity|].
    cbn [existsb]. rewrite IH, orb_false_r.
    apply star_button_not_qualifying_node.
Qed.

Lemma shouldReinit_spec_witness :
  shouldReinit blockAdded = true /\
  handle (ObserverCallback [ {| addedNodes := [Text "loading"] |} ]) idleWorld
  = idleWorld.
Proof.
  split.
  - apply (proj1 (shouldReinit_spec blockAdded)).
    exists {| addedNodes := [opblock "put" "/pets/{id}" ""] |},
           (opblock "put" "/pets/{id}" "").
    split; [now left | split; [now left|]]. right. discriminate.
  - apply (proj1 (proj2 (shouldReinit_spec
                           [ {| addedNodes := [Text "loading"] |} ]))).
    reflexivity.
Defined.

Lemma reinit_vars (w : World) : vars (reinit w) = vars w.
Proof.
  unfold reinit, runRefresh, runInjectStars.
  cbn [windowSidebarUI document storage sidebar timers calls vars].
  destruct (windowSidebarUI w); [|reflexivity].
  now destruct (SidebarUI.refreshOperations _ _ _).
Qed.

Lemma reinit_timers (w : World) : timers (reinit w) = timers w.
Proof. destruct (reinit_calls w) as (extra & _ & _ & _ & H & _). exact H. Qed.

Lemma singleTimer_eq (w w' : World) :
  pending (timers w') = pending (timers w) ->
  debounceTimer (vars w') = debounceTimer (vars w) ->
  singleTimer w -> singleTimer w'.
Proof. unfold singleTimer. intros -> ->. exact (fun H => H). Qed.

Lemma singleTimer_fire (w : World) (p : nat * nat) :
  singleTimer w -> singleTimer (fire w p).
Proof.
  unfold fire. intros H.
  destruct (existsb (fun q => fst q =? fst p) (pending (timers w))) eqn:E;
    [|exact H].
  unfold singleTimer in *. rewrite reinit_timers, reinit_vars.
  cbn [setTimers timers vars pending].
  destruct (pending (timers w)) as [|[i due] [|q r]]; [exact I| |destruct H].
  cbn [existsb fst] in E. rewrite orb_false_r in E.
  cbn [filter fst]. now rewrite E.
Qed.

Lemma singleTimer_fold_fire (l : list (nat * nat)) (w : World) :
  singleTimer w -> singleTimer (fold_left fire l w).
Proof.
  revert w. induction l as [|p l IH]; intros w H; [exact H|].
  apply IH, singleTimer_fire, H.
Qed.

Lemma singleTimer_advanceTo (t : nat) (w : World) :
  singleTimer w -> singleTimer (advanceTo t w).
Proof.
  intros H. unfold advanceTo.
  apply (singleTimer_eq (fold_left fire (dueAt t (timers w)) w));
    [reflexivity | reflexivity | now apply singleTimer_fold_fire].
Qed.

Lemma singleTimer_debouncedReinit (w : World) :
  singleTimer w ->
  pending (timers (debouncedReinit w))
  = [(nextTimerId (timers w), now (timers w) + DEBOUNCE_DELAY)] /\
  debounceTimer (vars (debouncedReinit w)) = Some (nextTimerId (timers w)).
Proof.
  unfold singleTimer, debouncedReinit, setTimeout, clearTimeout.
  destruct w as [[n p nx] [o ini dt] sb doc sto side cs].
  cbn [timers vars pending now nextTimerId debounceTimer setTimers setVars].
  destruct p as [|[i due] [|q r]]; intros H.
  - now destruct dt.
  - subst dt. cbn [filter fst]. now rewrite Nat.eqb_refl.
  - destruct H.
Qed.

Lemma singleTimer_handle (e : Event) (w : World) :
  singleTimer w -> singleTimer (handle e w).
Proof.
  intros H. destruct e as [ms| | | |]; cbn [handle].
  - destruct (observer (vars w)); [|exact H]. unfold handleMutations.
    destruct (shouldReinit ms); [|exact H].
    destruct (singleTimer_debouncedReinit w H) as [Hp Hd].
    unfold singleTimer. now rewrite Hp, Hd.
  - unfold init. destruct (isInitialized (vars w)); [exact H|].
    revert H. now apply singleTimer_eq.
  - revert H. now apply singleTimer_eq.
  - revert H. now apply singleTimer_eq.
  - revert H. apply singleTimer_eq.
    + fold (reinit w). now rewrite reinit_timers.
    + fold (reinit w). now rewrite reinit_vars.
Qed.

(** X14.  Whatever happens to the module, in whatever order and at
    whatever times, at most one timer is pending, and it is the one that
    [debounceTimer] names: a burst never leaves a second reconciliation
    behind. *)
Theorem run_single_timer (events : list (nat * Event)) (w : World) :
  singleTimer w ->
  singleTimer (run events w) /\
  List.length (pending (timers (run events w))) <= 1 /\
  (forall i due,
      In (i, due) (pending (timers (run events w))) ->
      debounceTimer (vars (run events w)) = Some i).
Proof.
  intros H.
  assert (Hrun : singleTimer (run events w)).
  { unfold run. revert w H. induction events as [|[t e] events IH]; intros w H.
    - exact H.
    - apply IH. unfold step. apply singleTimer_handle, singleTimer_advanceTo, H. }
  split; [exact Hrun|]. unfold singleTimer in Hrun.
  destruct (pending (timers (run events w))) as [|[i due] [|q r]].
  - split; [simpl; lia | intros i due []].
  - split; [simpl; lia|]. intros j due' [[= <- <-] | []]. exact Hrun.
  - destruct Hrun.
Qed.

Lemma run_single_timer_witness :
  List.length
    (pending (timers (run [ (0, ObserverCallback blockAdded);
                            (100, Destroy); (150, Init);
                            (200, ObserverCallback blockAdded);
                            (900, Reinitialize);
                            (950, ObserverCallback blockAdded) ] idleWorld)))
  <= 1.
Proof.
  apply (run_single_timer
           [ (0, ObserverCallback blockAdded); (100, Destroy); (150, Init);
             (200, ObserverCallback blockAdded); (900, Reinitialize);
             (950, ObserverCallback blockAdded) ] idleWorld).
  exact I.
Defined.

Lemma init_eq (w : World) :
  isInitialized (vars w) = false ->
  init w
  = {| timers := timers w;
       vars := {| observer := true; isInitialized := true;
                  debounceTimer := debounceTimer (vars w) |};
       windowSidebarUI := windowSidebarUI w;
       document := injectStarsIntoOperations (storage w) (document w);
       storage := storage w; sidebar := sidebar w;
       calls := calls w ++ [(now (timers w), CallInjectStars)] |}.
Proof. intros H. unfold init. now rewrite H. Qed.

(** X15.  [init] runs once: a second call does nothing.  The first call
    connects the observer and injects the stars, after which every block of
    the page is one that the injection skips.  After [destroy], [init] runs
    again and injects again, which leaves the page, the variables and the
    timers as the first call left them. *)
Theorem init_lifecycle (w : World) :
  isInitialized (vars w) = false ->
  let w1 := init w in
  let w2 := init (destroy w1) in
  init w1 = w1 /\
  document w1 = injectStarsIntoOperations (storage w) (document w) /\
  observer (vars w1) = true /\
  isInitialized (vars w1) = true /\
  Forall (fun b => settled b = true) (blocks (document w1)) /\
  document w2 = document w1 /\
  vars w2 = vars w1 /\
  timers w2 = timers w1 /\
  injectTimes w2 = injectTimes w ++ [now (timers w); now (timers w)].
Proof.
  intros Hini. cbv zeta. rewrite (init_eq w Hini).
  set (w1 := {| timers := timers w; vars := _; windowSidebarUI := _;
                document := _; storage := _; sidebar := _; calls := _ |}).
  assert (Hset : Forall (fun b => settled b = true) (blocks (document w1)))
    by apply injectStars_settled.
  assert (Hfix : injectStarsIntoOperations (storage w) (document w1)
                 = document w1)
    by (apply injectStars_fixed, Hset).
  rewrite (init_eq (destroy w1) eq_refl).
  cbn [destroy setVars vars timers document storage calls isInitialized
       observer debounceTimer windowSidebarUI sidebar].
  split; [reflexivity|]. split; [reflexivity|]. split; [reflexivity|].
  split; [reflexivity|]. split; [exact Hset|]. split; [exact Hfix|].
  split; [reflexivity|]. split; [reflexivity|].
  unfold injectTimes. cbn [calls w1]. rewrite !filter_app, !map_app.
  cbn [filter snd map fst]. now rewrite <- app_assoc.
Qed.

Lemma init_lifecycle_witness :
  let w := destroy idleWorld in
  init (init w) = init w /\ observer (vars (init w)) = true.
Proof.
  intros w.
  destruct (init_lifecycle w) as (Hguard & _ & Hobs & _); [reflexivity|].
  split; [exact Hguard | exact Hobs].
Defined.






End HandlerMore.

(** ** The injected star button *)

Section InsertFresh.
Import DOM.
Variable sel : selector.
Variable new : node.
Variable s : selector.

Lemma select_single_nil (n : node) :
  select s [n] = [] <-> matches s n = false /\ select s (childNodes n) = [].
Proof.
  rewrite select_single. destruct (matches s n); simpl.
  - split; [discriminate | intros [H _]; discriminate].
  - split; [now split | now intros [_ H]].
Qed.

Lemma insertScan_fresh (l : list node) :
  Forall (fun n => forall n',
              insertBeforeFirst sel new n = Some n' ->
              select s (childNodes n) = [] ->
              select s (childNodes n') = select s [new]) l ->
  forall l',
    insertScan sel new (insertBeforeFirst sel new) l = Some l' ->
    select s l = [] ->
    select s l' = select s [new].
Proof.
  induction 1 as [|x r Hx _ IH]; intros l' H Hnil; simpl in H; [discriminate|].
  rewrite select_cons in Hnil. apply app_eq_nil in Hnil as [Hx0 Hr0].
  destruct (matches sel x).
  - injection H as <-.
    now rewrite (select_cons s new), (select_cons s x r), Hx0, Hr0, app_nil_r.
  - destruct (insertBeforeFirst sel new x) as [x'|] eqn:E.
    + injection H as <-. apply select_single_nil in Hx0 as [Hm Hc].
      rewrite (select_cons s x'), Hr0, app_nil_r, (select_single s x').
      rewrite (proj2 (insertBeforeFirst_count sel new s x x' E)), Hm.
      now apply Hx.
    + destruct (insertScan sel new (insertBeforeFirst sel new) r) as [r'|];
        [|discriminate].
      injection H as <-. rewrite (select_cons s x r'), Hx0. now apply IH.
Qed.

(** Inserting into a node without match leaves the matches of the new
    node. *)
Lemma insertBeforeFirst_fresh (n n' : node) :
  insertBeforeFirst sel new n = Some n' ->
  select s (childNodes n) = [] ->
  select s (childNodes n') = select s [new].
Proof.
  revert n'. induction n as [x|t i cl a ch IH] using node_induction; intros n' H.
  - discriminate.
  - cbn [insertBeforeFirst] in H.
    destruct (insertScan sel new (insertBeforeFirst sel new) ch) as [ch'|] eqn:E;
      [|discriminate].
    injection H as <-. simpl. now apply insertScan_fresh.
Qed.

Lemma appendChild_fresh (n : node) :
  isElement n = true ->
  select s (childNodes n) = [] ->
  select s (childNodes (appendChild n new)) = select s [new].
Proof.
  destruct n as [x|t i cl a ch]; [discriminate|]. intros _ H. simpl in *.
  now rewrite select_app, H.
Qed.

End InsertFresh.

Section EditFirstFresh.
Import DOM.
Variable sel : selector.
Variable g : node -> node.
Variable s : selector.
Variable R : list node.
Hypothesis g_top : forall x, matches sel x = true -> matches s (g x) = matches s x.
Hypothesis g_fresh :
  forall x, matches sel x = true -> select s (childNodes x) = [] ->
            select s (childNodes (g x)) = R.

Lemma firstSome_fresh (l : list node) :
  Forall (fun n => forall n',
              editFirstSelf sel g n = Some n' ->
              select s [n] = [] -> select s [n'] = R) l ->
  forall l',
    firstSome (editFirstSelf sel g) l = Some l' ->
    select s l = [] -> select s l' = R.
Proof.
  induction 1 as [|x r Hx _ IH]; intros l' H Hnil; simpl in H; [discriminate|].
  rewrite select_cons in Hnil. apply app_eq_nil in Hnil as [Hx0 Hr0].
  destruct (editFirstSelf sel g x) as [x'|] eqn:E.
  - injection H as <-. rewrite (select_cons s x'), Hr0, app_nil_r.
    now apply Hx.
  - destruct (firstSome (editFirstSelf sel g) r) as [r'|]; [|discriminate].
    injection H as <-. rewrite (select_cons s x r'), Hx0. now apply IH.
Qed.

Lemma editFirstSelf_fresh (n n' : node) :
  editFirstSelf sel g n = Some n' ->
  select s [n] = [] -> select s [n'] = R.
Proof.
  revert n'. induction n as [x|t i cl a ch IH] using node_induction;
    intros n' H Hnil.
  - simpl in H. rewrite matches_text in H. discriminate.
  - cbn [editFirstSelf] in H.
    apply select_single_nil in Hnil as [Hm Hc].
    destruct (matches sel (Elem t i cl a ch)) eqn:Em.
    + injection H as <-. rewrite (select_single s (g _)).
      rewrite (g_top _ Em), Hm. now apply g_fresh.
    + destruct (firstSome (editFirstSelf sel g) ch) as [ch'|] eqn:E;
        [|discriminate].
      injection H as <-. rewrite select_elem.
      rewrite (matches_children s t i cl a ch' ch), Hm.
      now apply (firstSome_fresh ch IH).
Qed.

Lemma editFirst_fresh (n n' : node) :
  editFirst sel g n = Some n' ->
  select s (childNodes n) = [] ->
  select s (childNodes n') = R.
Proof.
  destruct n as [x|t i cl a ch]; simpl; [discriminate|].
  destruct (firstSome (editFirstSelf sel g) ch) as [ch'|] eqn:E; [|discriminate].
  intros H. injection H as <-. simpl.
  apply (firstSome_fresh ch); [|exact E].
  apply Forall_forall. intros x _ x'. apply editFirstSelf_fresh.
Qed.

End EditFirstFresh.

Section StarIdentity.
Import DOM DOMParser MutationHandler Injection Examples.

Lemma star_button_select (m p : string) (flag : bool) :
  select starSelector [createStarButton m p flag] = [createStarButton m p flag].
Proof. now destruct flag. Qed.

Lemma querySelector_None (sel : selector) (b : node) :
  querySelector sel b = None <-> select sel (childNodes b) = [].
Proof.
  unfold querySelector, querySelectorAll.
  destruct (select sel (childNodes b)); simpl; split; congruence.
Qed.

Lemma Forall2_map_r {A B : Type} (P : A -> B -> Prop) (f : A -> B) (l : list A) :
  (forall x, In x l -> P x (f x)) -> Forall2 P l (map f l).
Proof.
  induction l as [|x l IH]; intros H; simpl; constructor.
  - apply H. now left.
  - apply IH. intros y Hy. apply H. now right.
Qed.

(** X17.  The star that the injection puts into a block is the button of
    the block's own route in its stored state: for a block without star that
    parses and has a summary element, the only star of the block afterwards
    is the button created for the parsed method and path, starred exactly
    when that route is starred in the storage; a block without summary
    element gets nothing.  On a page whose operation blocks are not nested
    this holds for every block of the page after a run. *)
Theorem injectStars_buttons (st : Chrome.storage) (d : Document) :
  let starred := StorageManager.getStarredRoutes st in
  let button op :=
    createStarButton (method op) (path op)
      (StorageManager.isStarred d st (method op) (path op)) in
  (forall b op,
      querySelector starSelector b = None ->
      parseOperation b = Some op ->
      (querySelector summarySelector b <> None ->
       querySelectorAll starSelector (injectStar d starred b) = [button op]) /\
      (querySelector summarySelector b = None ->
       injectStar d starred b = b)) /\
  (flat (documentElement d) ->
   Forall2 (fun b b' =>
              forall op,
                querySelector starSelector b = None ->
                parseOperation b = Some op ->
                querySelector summarySelector b <> None ->
                querySelectorAll starSelector b' = [button op])
           (blocks d) (blocks (injectStarsIntoOperations st d))).
Proof.
  intros starred button.
  assert (Hblock : forall b op,
             querySelector starSelector b = None ->
             parseOperation b = Some op ->
             (querySelector summarySelector b <> None ->
              querySelectorAll starSelector (injectStar d starred b)
              = [button op]) /\
             (querySelector summarySelector b = None ->
              injectStar d starred b = b)).
  { intros b op Hstar Hop. unfold injectStar. rewrite Hstar, Hop.
    fold (button op).
    change (createStarButton (method op) (path op)
              (JSSet.has starred
                 (StorageManager.generateRouteKey d (method op) (path op))))
      with (button op).
    split.
    - intros Hsum.
      destruct (editFirst summarySelector _ b) as [b'|] eqn:E.
      + unfold querySelectorAll.
        transitivity (select starSelector [button op]);
          [|apply star_button_select].
        refine (editFirst_fresh summarySelector _ starSelector _ _ _ b b' E _).
        * intros x Hx. now apply place_star_count.
        * intros x Hx Hnil.
          destruct (insertBeforeFirst expandSelector (button op) x) as [x'|] eqn:Ei.
          -- now apply (insertBeforeFirst_fresh expandSelector (button op)
                          starSelector x x').
          -- apply appendChild_fresh; [|exact Hnil].
             now apply (matches_isElement summarySelector).
        * now apply querySelector_None.
      + apply editFirst_none in E. apply querySelector_None in E. contradiction.
    - intros Hsum.
      destruct (editFirst summarySelector _ b) as [b'|] eqn:E; [|reflexivity].
      apply querySelector_None in Hsum.
      match type of E with
      | editFirst _ ?g _ = _ =>
          rewrite (proj2 (editFirst_none summarySelector g b) Hsum) in E
      end.
      discriminate. }
  split; [exact Hblock|].
  intros Hflat. destruct (injectStars_blocks_flat st d Hflat) as [-> _].
  fold starred. apply Forall2_map_r. intros b _ op Hstar Hop Hsum.
  now apply (Hblock b op).
Qed.

Lemma injectStars_buttons_witness :
  let d := {| origin := "https://pets.example"; title := "Pets API";
              pathname := "/docs";
              documentElement := opblock "get" "/pets" "List pets" |} in
  querySelectorAll starSelector
    (injectStar d (StorageManager.getStarredRoutes petsStore)
                (opblock "get" "/pets" "List pets"))
  = [createStarButton "GET" "/pets" true].
Proof.
  intros d.
  destruct (injectStars_buttons petsStore d) as [H _].
  destruct (H (opblock "get" "/pets" "List pets")
              {| method := "GET"; path := "/pets"; summary := "List pets";
                 operationId := ""; isDeprecated := false;
                 element := opblock "get" "/pets" "List pets";
                 id := "GET--pets"; tagName := None; tagId := None |}
              eq_refl eq_refl) as [Hs _].
  apply Hs. discriminate.
Defined.

End StarIdentity.

(** ** The click listeners *)

Section EditFirstByFacts.
Import DOM Clicks.
Local Open Scope nat_scope.

Variable p : node -> bool.
Variable g : node -> node.
Variable s : selector.
Hypothesis g_length :
  forall x, List.length (select s [g x]) = List.length (select s [x]).

Lemma firstSomeBy_length (l : list node) :
  Forall (fun n => forall n',
              editFirstSelfBy p g n = Some n' ->
              List.length (select s [n']) = List.length (select s [n])) l ->
  forall l',
    firstSome (editFirstSelfBy p g) l = Some l' ->
    List.length (select s l') = List.length (select s l).
Proof.
  induction 1 as [|x r Hx _ IH]; intros l' H; simpl in H; [discriminate|].
  destruct (editFirstSelfBy p g x) as [x'|] eqn:E.
  - injection H as <-. rewrite (select_cons s x'), (select_cons s x), !length_app.
    now rewrite (Hx x' eq_refl).
  - destruct (firstSome (editFirstSelfBy p g) r) as [r'|]; [|discriminate].
    injection H as <-. rewrite (select_cons s x r'), (select_cons s x r), !length_app.
    now rewrite (IH r' eq_refl).
Qed.

Lemma editFirstSelfBy_length (n n' : node) :
  editFirstSelfBy p g n = Some n' ->
  List.length (select s [n']) = List.length (select s [n]).
Proof.
  revert n'. induction n as [x|t i cl a ch IH] using node_induction; intros n' H.
  - simpl in H. destruct (p (Text x)); [|discriminate].
    injection H as <-. apply g_length.
  - cbn [editFirstSelfBy] in H. destruct (p (Elem t i cl a ch)).
    + injection H as <-. apply g_length.
    + destruct (firstSome (editFirstSelfBy p g) ch) as [ch'|] eqn:E;
        [|discriminate].
      injection H as <-. rewrite !select_elem, !length_app.
      rewrite (matches_children s t i cl a ch' ch).
      rewrite (firstSomeBy_length ch IH ch' E).
      now destruct (matches s (Elem t i cl a ch)).
Qed.

Lemma editFirstBy_length (n n' : node) :
  editFirstBy p g n = Some n' ->
  List.length (select s (childNodes n')) = List.length (select s (childNodes n)) /\
  matches s n' = matches s n.
Proof.
  destruct n as [x|t i cl a ch]; simpl; [discriminate|].
  destruct (firstSome (editFirstSelfBy p g) ch) as [ch'|] eqn:E; [|discriminate].
  intros H. injection H as <-. simpl. split; [|apply matches_children].
  apply (firstSomeBy_length ch); [|exact E].
  apply Forall_forall. intros x _ x'. apply editFirstSelfBy_length.
Qed.

End EditFirstByFacts.

Section EditFirstFlat.
Import DOM Injection.
Local Open Scope nat_scope.

Variable sel : selector.
Variable f : node -> node.
Hypothesis f_matches : forall b, matches sel (f b) = matches sel b.
Hypothesis f_flat :
  forall b, select sel (childNodes b) = [] -> select sel (childNodes (f b)) = [].

Lemma firstSome_flat (l : list node) :
  Forall (fun n => forall n',
              editFirstSelf sel f n = Some n' ->
              Forall (fun b => select sel (childNodes b) = []) (select sel [n]) ->
              select sel [n'] = updateAt 0 f (select sel [n])) l ->
  forall l',
    firstSome (editFirstSelf sel f) l = Some l' ->
    Forall (fun b => select sel (childNodes b) = []) (select sel l) ->
    select sel l' = updateAt 0 f (select sel l).
Proof.
  induction 1 as [|x r Hx _ IH]; intros l' H Hflat; simpl in H; [discriminate|].
  rewrite select_cons in Hflat. apply Forall_app in Hflat as [Hfx Hfr].
  destruct (editFirstSelf sel f x) as [x'|] eqn:E.
  - injection H as <-.
    rewrite (select_cons sel x'), (select_cons sel x r), updateAt_app.
    assert (Hne : select sel [x] <> []).
    { intros Hnil. apply (editFirstSelf_none sel f) in Hnil. congruence. }
    destruct (select sel [x]) as [|y ys] eqn:Ey; [contradiction|].
    cbn [List.length Nat.ltb Nat.leb]. rewrite <- Ey in *.
    now rewrite (Hx x' eq_refl Hfx).
  - destruct (firstSome (editFirstSelf sel f) r) as [r'|]; [|discriminate].
    injection H as <-. apply (editFirstSelf_none sel f) in E.
    rewrite (select_cons sel x r'), (select_cons sel x r), E. cbn [app].
    now apply IH.
Qed.

Lemma editFirstSelf_flat (n n' : node) :
  editFirstSelf sel f n = Some n' ->
  Forall (fun b => select sel (childNodes b) = []) (select sel [n]) ->
  select sel [n'] = updateAt 0 f (select sel [n]).
Proof.
  revert n'. induction n as [x|t i cl a ch IH] using node_induction;
    intros n' H Hflat.
  - simpl in H. rewrite matches_text in H. discriminate.
  - cbn [editFirstSelf] in H. rewrite select_elem in Hflat.
    rewrite (select_elem sel t).
    destruct (matches sel (Elem t i cl a ch)) eqn:Em.
    + injection H as <-. simpl in Hflat.
      inversion Hflat as [|? ? Hn Hrest]; subst. simpl in Hn.
      rewrite Hn. cbn [app updateAt].
      now rewrite select_single, f_matches, Em, f_flat.
    + destruct (firstSome (editFirstSelf sel f) ch) as [ch'|] eqn:E;
        [|discriminate].
      injection H as <-. cbn [app] in *. rewrite select_elem.
      rewrite (matches_children sel t i cl a ch' ch), Em. cbn [app].
      now apply (firstSome_flat ch IH).
Qed.

(** In an element without nested matches, editing the first match replaces
    the first entry of the list of matches. *)
Lemma editFirst_flat (n n' : node) :
  editFirst sel f n = Some n' ->
  Forall (fun b => select sel (childNodes b) = []) (select sel (childNodes n)) ->
  select sel (childNodes n') = updateAt 0 f (select sel (childNodes n)).
Proof.
  destruct n as [x|t i cl a ch]; simpl; [discriminate|].
  destruct (firstSome (editFirstSelf sel f) ch) as [ch'|] eqn:E; [|discriminate].
  intros H. injection H as <-. simpl.
  apply (firstSome_flat ch); [|exact E].
  apply Forall_forall. intros x _ x'. apply editFirstSelf_flat.
Qed.

End EditFirstFlat.

Section ClickFacts.
Import DOM DOMParser MutationHandler Injection Clicks Examples.
Local Open Scope nat_scope.

Lemma matches_attrs (sel : selector) t i cl a a' (ch ch' : list node) :
  matches sel (Elem t i cl a ch) = matches sel (Elem t i cl a' ch').
Proof.
  induction sel as [c|tag sub|s1 IH1 s2 IH2]; simpl; try reflexivity.
  now rewrite IH1, IH2.
Qed.

Lemma matches_setAttr (sel : selector) (x : node) (n v : string) :
  matches sel (setAttr x n v) = matches sel x.
Proof. destruct x as [|t i cl a ch]; [reflexivity | apply matches_attrs]. Qed.

Lemma select_setAttr_length (sel : selector) (x : node) (n v : string) :
  List.length (select sel [setAttr x n v]) = List.length (select sel [x]).
Proof.
  rewrite (select_single sel (setAttr x n v)), (select_single sel x).
  rewrite matches_setAttr, !length_app.
  destruct x as [|t i cl a ch]; simpl; [reflexivity|].
  now destruct (matches sel (Elem t i cl a ch)).
Qed.

Lemma existsb_toggle (c tok : string) (cl : list string) (force : bool) :
  c <> tok ->
  existsb (String.eqb c) (classList_toggle_force cl tok force)
  = existsb (String.eqb c) cl.
Proof.
  intros Hne. apply String.eqb_neq in Hne as Hb.
  unfold classList_toggle_force. destruct force.
  - destruct (existsb (String.eqb tok) cl); [reflexivity|].
    rewrite existsb_app. simpl. now rewrite Hb, !orb_false_r.
  - induction cl as [|x cl IH]; simpl; [reflexivity|].
    destruct (String.eqb_spec x tok) as [-> | Hx]; simpl.
    + now rewrite Hb, IH.
    + now rewrite IH.
Qed.

(** Toggling [starred] is not seen by a class selector for another class. *)
Lemma matches_toggleClass (c : string) (x : node) (force : bool) :
  c <> "starred" ->
  matches (ByClass c) (toggleClass x "starred" force) = matches (ByClass c) x.
Proof.
  intros Hne. destruct x as [|t i cl a ch]; [reflexivity|].
  simpl. unfold classList_contains. simpl. now apply existsb_toggle.
Qed.

Lemma select_toggleClass_length (c : string) (x : node) (force : bool) :
  c <> "starred" ->
  List.length (select (ByClass c) [toggleClass x "starred" force])
  = List.length (select (ByClass c) [x]).
Proof.
  intros Hne.
  rewrite (select_single _ (toggleClass x "starred" force)), (select_single _ x).
  rewrite (matches_toggleClass c x force Hne), !length_app.
  destruct x as [|t i cl a ch]; simpl; [reflexivity|].
  now destruct (classList_contains (Elem t i cl a ch) c).
Qed.

Lemma fillSvg_length (sel : selector) (flag : bool) (x x' : node) :
  fillSvg flag x = Some x' ->
  List.length (select sel (childNodes x')) = List.length (select sel (childNodes x)) /\
  matches sel x' = matches sel x.
Proof.
  apply editFirstBy_length. intros y. apply select_setAttr_length.
Qed.

Lemma select_single_length (sel : selector) (x y : node) :
  matches sel y = matches sel x ->
  List.length (select sel (childNodes y)) = List.length (select sel (childNodes x)) ->
  List.length (select sel [y]) = List.length (select sel [x]).
Proof.
  intros Hm Hc. rewrite (select_single sel y), (select_single sel x), !length_app.
  rewrite Hm, Hc. now destruct (matches sel x).
Qed.


Lemma updateStarIcon_length (c : string) (flag : bool) (x : node) :
  c <> "starred" ->
  List.length (select (ByClass c) (childNodes (updateStarIcon flag x)))
  = List.length (select (ByClass c) (childNodes x)) /\
  matches (ByClass c) (updateStarIcon flag x) = matches (ByClass c) x.
Proof.
  intros Hne. unfold updateStarIcon. cbn zeta.
  set (y := toggleClass x "starred" flag).
  assert (Hy : List.length (select (ByClass c) (childNodes y))
               = List.length (select (ByClass c) (childNodes x)) /\
               matches (ByClass c) y = matches (ByClass c) x).
  { unfold y. rewrite matches_toggleClass by exact Hne.
    split; [|reflexivity]. now destruct x. }
  destruct (fillSvg flag y) as [y'|] eqn:E; [|exact Hy].
  destruct (fillSvg_length (ByClass c) flag y y' E) as [Hl Hm].
  destruct Hy as [Hyl Hym]. split; congruence.
Qed.

Lemma length_nil_iff {A : Type} (l : list A) : List.length l = 0 <-> l = [].
Proof. destruct l; simpl; split; congruence. Qed.


(** [updateStarInSwaggerUI] does too, but for the title, which it leaves. *)
Lemma updateStarIcon_button (m p : string) (flag isStarred : bool) :
  updateStarIcon isStarred (createStarButton m p flag)
  = setAttr (createStarButton m p isStarred) "title" (titleOf flag).
Proof. now destruct flag, isStarred. Qed.


Lemma star_button_flat (m p : string) (flag : bool) :
  select starSelector (childNodes (createStarButton m p flag)) = [].
Proof. now destruct flag. Qed.



Lemma findIndex_spec (m p : string) (l : list node) :
  match findIndex m p l with
  | Some k => nth_error l k = findIn m p l /\ findIn m p l <> None
  | None => findIn m p l = None
  end.
Proof.
  induction l as [|b l IH]; simpl; [reflexivity|].
  destruct (isOperation m p b); [split; [reflexivity | discriminate]|].
  destruct (findIndex m p l) as [k|]; simpl; exact IH.
Qed.

Lemma updateStarOf_top (flag : bool) (b : node) (q : selector) :
  matches q (updateStarOf flag b) = matches q b.
Proof.
  unfold updateStarOf.
  destruct (editFirst starSelector (updateStarIcon flag) b) as [b'|] eqn:E;
    [|reflexivity].
  now apply (editFirst_top starSelector (updateStarIcon flag) b b').
Qed.

Lemma updateStarOf_length (c : string) (flag : bool) (b : node) :
  c <> "starred" ->
  List.length (select (ByClass c) (childNodes (updateStarOf flag b)))
  = List.length (select (ByClass c) (childNodes b)).
Proof.
  intros Hne. unfold updateStarOf.
  destruct (editFirst starSelector (updateStarIcon flag) b) as [b'|] eqn:E;
    [|reflexivity].
  rewrite (editFirst_count starSelector (updateStarIcon flag) (ByClass c) 0
             (fun x _ => proj2 (updateStarIcon_length c flag x Hne))
             (fun x _ => eq_trans (proj1 (updateStarIcon_length c flag x Hne))
                                  (eq_sym (Nat.add_0_r _)))
             b b' E).
  apply Nat.add_0_r.
Qed.

Lemma withRoot_blocks (d : Document) (root : node) :
  blocks (withRoot d root) = select opblockSelector [root].
Proof. reflexivity. Qed.

Lemma generateRouteKey_withRoot (d : Document) (root : node) (m p : string) :
  StorageManager.generateRouteKey (withRoot d root) m p
  = StorageManager.generateRouteKey d m p.
Proof. reflexivity. Qed.

(** X19.  [updateStarInSwaggerUI] on a page whose operation blocks are not
    nested.  Without a block for the method and the path the page stays as it
    is.  Otherwise only the block that [findOperationElement] returns, the
    first one for that method and path, is touched: a block without star
    stays as it is, and in a block whose star is the button that
    [createStarButton] made, that button gets the class and the fill of the
    new state and keeps the title it had. *)
Theorem updateStarInSwaggerUI_spec (d : Document) (m p : string)
        (isStarred : bool) :
  flat (documentElement d) ->
  let d' := updateStarInSwaggerUI d m p isStarred in
  match findOperationElement d m p with
  | None => d' = d
  | Some b =>
      exists k,
        nth_error (blocks d) k = Some b /\
        blocks d' = updateAt k (updateStarOf isStarred) (blocks d) /\
        (querySelector starSelector b = None -> updateStarOf isStarred b = b) /\
        (forall m' p' flag,
            querySelectorAll starSelector b = [createStarButton m' p' flag] ->
            querySelectorAll starSelector (updateStarOf isStarred b)
            = [setAttr (createStarButton m' p' isStarred) "title" (titleOf flag)])
  end.
Proof.
  intros Hflat d'. unfold d', updateStarInSwaggerUI, findOperationElement.
  cbn zeta.
  pose proof (findIndex_spec m p
                (document_querySelectorAll SELECTORS_operations d)) as Hidx.
  destruct (findIndex m p (document_querySelectorAll SELECTORS_operations d))
    as [k|].
  - destruct Hidx as [Hnth Hsome].
    destruct (findIn m p (document_querySelectorAll SELECTORS_operations d))
      as [b|]; [|contradiction].
    exists k. split; [exact Hnth|]. split; [|split].
    + rewrite withRoot_blocks. unfold blocks, document_querySelectorAll.
      apply editNthSelf_flat.
      * intros x. apply updateStarOf_top.
      * intros x Hx. apply length_nil_iff.
        pose proof (updateStarOf_length "opblock" isStarred x
                      ltac:(discriminate)) as Hl.
        unfold opblockSelector in *. rewrite Hl. now apply length_nil_iff.
      * exact Hflat.
    + intros Hnone. unfold updateStarOf.
      apply querySelector_None in Hnone.
      now rewrite (proj2 (editFirst_none starSelector
                            (updateStarIcon isStarred) b) Hnone).
    + intros m' p' flag Hstar. unfold updateStarOf, querySelectorAll in *.
      destruct (editFirst starSelector (updateStarIcon isStarred) b)
        as [b'|] eqn:E.
      * assert (Hicon : forall x,
                   select starSelector (childNodes x) = [] ->
                   select starSelector (childNodes (updateStarIcon isStarred x))
                   = []).
        { intros x Hx. apply length_nil_iff.
          pose proof (proj1 (updateStarIcon_length "swagger-nav-star"
                               isStarred x ltac:(discriminate))) as Hl.
          unfold starSelector in *. rewrite Hl. now apply length_nil_iff. }
        rewrite (editFirst_flat starSelector (updateStarIcon isStarred)
                   (fun x => proj2 (updateStarIcon_length "swagger-nav-star"
                                      isStarred x ltac:(discriminate)))
                   Hicon b b' E).
        -- rewrite Hstar. cbn [updateAt]. now rewrite updateStarIcon_button.
        -- rewrite Hstar. constructor; [apply star_button_flat | constructor].
      * apply editFirst_none in E. rewrite E in Hstar. discriminate.
  - now rewrite Hidx.
Qed.

Lemma updateStarInSwaggerUI_spec_witness :
  let d := injectStarsIntoOperations [] petsPageDoc in
  let b := injectStar petsPageDoc [] (opblock "get" "/pets" "List pets") in
  findOperationElement d "get" "/pets" = Some b /\
  querySelectorAll starSelector (updateStarOf true b)
  = [setAttr (createStarButton "GET" "/pets" true) "title" "Star this route"].
Proof.
  intros d b.
  assert (Hflat : flat (documentElement d))
    by (unfold flat; vm_compute; repeat constructor).
  assert (E : findOperationElement d "get" "/pets" = Some b)
    by (vm_compute; reflexivity).
  pose proof (updateStarInSwaggerUI_spec d "get" "/pets" true Hflat) as H.
  cbn zeta in H. rewrite E in H.
  destruct H as (k & _ & _ & _ & H).
  split; [exact E|].
  apply (H "GET" "/pets" false). vm_compute. reflexivity.
Defined.

Lemma sectionsOf_withList (s : SidebarUI.State) (html : list SidebarUI.TagSection) :
  SidebarUI.sectionsOf
    (SidebarUI.withList s (match html with
                           | [] => SidebarUI.EmptyState
                           | _ :: _ => SidebarUI.Rendered html
                           end)) = html.
Proof. now destruct html. Qed.

(** Every item that a rendering writes shows the state of its route in the
    starred set of the module. *)
Lemma renderOperations_items (d : Document) (s s' : SidebarUI.State) :
  SidebarUI.renderOperations d s = Some s' ->
  forall sec it,
    In sec (SidebarUI.sectionsOf s') -> In it (SidebarUI.items sec) ->
    SidebarUI.item_starred it
    = JSSet.has (SidebarUI.starredRouteKeys s)
        (StorageManager.generateRouteKey d (SidebarUI.data_method it)
                                         (SidebarUI.data_path it)).
Proof.
  intros H sec it Hsec Hit.
  destruct (renderOperations_sections d s s' H) as (g & _ & Hs').
  cbn zeta in Hs'. rewrite Hs', sectionsOf_withList in Hsec.
  apply in_app_iff in Hsec as [Hsec | Hsec].
  - destruct (Grouping.starredAmong d (SidebarUI.starredRouteKeys s) _);
      [destruct Hsec|].
    destruct Hsec as [<- | []]. cbn [SidebarUI.renderStarredSection SidebarUI.items] in Hit.
    apply in_map_iff in Hit as (op & <- & _). reflexivity.
  - unfold Grouping.tagSections in Hsec.
    apply in_map_iff in Hsec as (tag & <- & _).
    cbn [SidebarUI.renderTag SidebarUI.items] in Hit.
    apply in_map_iff in Hit as (op & <- & _). reflexivity.
Qed.

Lemma itemAt_rendered (i j : nat) (s : SidebarUI.State) (item : SidebarUI.Item) :
  itemAt i j s = Some item -> SidebarUI.sidebarElement s <> None.
Proof.
  unfold itemAt, SidebarUI.sectionsOf.
  destruct (SidebarUI.sidebarElement s) as [[| |secs]|]; try discriminate;
    destruct i; discriminate.
Qed.

Lemma setButton_sidebarElement (i j : nat) (flag : bool) (s : SidebarUI.State) :
  SidebarUI.sidebarElement s <> None ->
  SidebarUI.sidebarElement (setButton i j flag s) <> None.
Proof.
  unfold setButton.
  destruct (SidebarUI.sidebarElement s) as [[| |secs]|] eqn:E;
    try (intros _; rewrite E; discriminate); [|easy].
  intros _. discriminate.
Qed.

(** X20.  The click listener of a star button of the panel, for a panel
    whose items carry methods, paths and summaries that stand for themselves
    in the markup.  The button carries the method and the path of its item;
    the route of the item is toggled in the storage; the page is updated by
    [updateStarInSwaggerUI] for the new state; the module reads the starred
    set and the operations again; and when the rendering at the end does not
    raise and the operations read again stand for themselves in the markup
    too, every item of the panel shows the stored state of its route. *)
Theorem panelStarClick_spec (w : World) (i j : nat) (item : SidebarUI.Item) :
  itemAt i j (sidebar w) = Some item ->
  Markup.plainPanel (sidebar w) = true ->
  let m := SidebarUI.data_method item in
  let p := SidebarUI.data_path item in
  let newState :=
    negb (StorageManager.isStarred (document w) (storage w) m p) in
  let w' := panelStarClick i j w in
  SidebarUI.itemDataset item = Some (m, p) /\
  storage w'
  = snd (StorageManager.toggleStarred (document w) (storage w) m p) /\
  StorageManager.isStarred (document w) (storage w') m p = newState /\
  document w' = updateStarInSwaggerUI (document w) m p newState /\
  SidebarUI.starredRouteKeys (sidebar w')
  = StorageManager.getStarredRoutes (storage w') /\
  SidebarUI.allOperations (sidebar w') = extractAllOperations (document w') /\
  (Forall (fun op => JSObject.isInherited (SidebarUI.tagOf op) = false)
          (extractAllOperations (document w')) ->
   Forall (fun op => Markup.plainOperation op = true)
          (extractAllOperations (document w')) ->
   Markup.plainPanel (sidebar w') = true /\
   forall sec it,
     In sec (SidebarUI.sectionsOf (sidebar w')) ->
     In it (SidebarUI.items sec) ->
     SidebarUI.itemDataset it
     = Some (SidebarUI.data_method it, SidebarUI.data_path it) /\
     SidebarUI.item_starred it
     = StorageManager.isStarred (document w) (storage w')
         (SidebarUI.data_method it) (SidebarUI.data_path it)).
Proof.
  intros Hitem Hplain m p newState w'.
  assert (Hdata : SidebarUI.itemDataset item = Some (m, p)).
  { apply plainItem_dataset. unfold itemAt in Hitem.
    destruct (nth_error (SidebarUI.sectionsOf (sidebar w)) i) as [sec|] eqn:Es;
      [|discriminate].
    apply (plainPanel_item (sidebar w) sec item Hplain);
      [now apply nth_error_In in Es | now apply nth_error_In in Hitem]. }
  split; [exact Hdata|].
  destruct (toggleStarred_eq (document w) (storage w) m p) as (Heq & Hset & _).
  cbn zeta in Heq, Hset.
  assert (Hnew : fst (StorageManager.toggleStarred (document w) (storage w) m p)
                 = newState) by (now rewrite Heq).
  unfold w', panelStarClick. rewrite Hitem. cbn zeta. fold m p.
  destruct (StorageManager.toggleStarred (document w) (storage w) m p)
    as [ns st] eqn:Et.
  cbn [fst snd] in Hnew, Hset. subst ns.
  cbn [windowSidebarUI document storage sidebar timers vars calls].
  set (d' := updateStarInSwaggerUI (document w) m p newState).
  set (panel := setButton i j newState (sidebar w)).
  assert (Hstarred : StorageManager.isStarred (document w) st m p = newState).
  { unfold StorageManager.isStarred. cbn zeta. rewrite Hset.
    unfold newState, StorageManager.isStarred. cbn zeta.
    destruct (JSSet.has (StorageManager.getStarredRoutes (storage w))
                        (StorageManager.generateRouteKey (document w) m p)); simpl.
    - apply has_delete_same.
    - apply has_add_same. }
  assert (Hkey : forall m0 p0,
             StorageManager.generateRouteKey d' m0 p0
             = StorageManager.generateRouteKey (document w) m0 p0).
  { intros m0 p0. unfold d', updateStarInSwaggerUI. cbn zeta.
    now destruct (findIndex m p _). }
  split; [reflexivity|]. split; [exact Hstarred|]. split; [reflexivity|].
  destruct (SidebarUI.refreshOperations d' st panel) as [s'|] eqn:Er.
  - unfold SidebarUI.refreshOperations in Er.
    destruct (renderOperations_sections _ _ s' Er) as (g & _ & Hs').
    cbn zeta in Hs'.
    split; [now rewrite Hs'|]. split; [now rewrite Hs'|].
    intros _ Hops.
    assert (Hpanel' : Markup.plainPanel s' = true).
    { apply (renderOperations_plain d' _ s' Er).
      cbn [SidebarUI.refreshed SidebarUI.allOperations SidebarUI.searchTerm].
      now apply filterOperations_Forall. }
    split; [exact Hpanel'|]. intros sec it Hsec Hit. split.
    + apply plainItem_dataset. now apply (plainPanel_item s' sec it).
    + rewrite (renderOperations_items d' _ s' Er sec it Hsec Hit).
      cbn [SidebarUI.refreshed SidebarUI.starredRouteKeys].
      now rewrite Hkey.
  - split; [reflexivity|]. split; [reflexivity|].
    intros Hok _. exfalso.
    unfold SidebarUI.refreshOperations, SidebarUI.renderOperations in Er.
    cbn [SidebarUI.refreshed SidebarUI.sidebarElement SidebarUI.allOperations
         SidebarUI.searchTerm] in Er.
    pose proof (setButton_sidebarElement i j newState (sidebar w)
                  (itemAt_rendered i j _ item Hitem)) as Hpanel.
    fold panel in Hpanel.
    destruct (SidebarUI.sidebarElement panel); [|contradiction].
    destruct (groupOperationsByTag_total
                (SidebarUI.filterOperations (extractAllOperations d')
                                            (SidebarUI.searchTerm panel)))
      as [g Hg].
    + now apply filterOperations_Forall.
    + rewrite Hg in Er. discriminate.
Qed.

Lemma panelStarClick_spec_witness :
  let w := {| timers := timers idleWorld; vars := vars idleWorld;
              windowSidebarUI := true;
              document := petsPageDoc; storage := [];
              sidebar :=
                SidebarUI.withList freshPanel
                  (SidebarUI.Rendered
                     [SidebarUI.renderTag petsPageDoc [] "pets" [getPets] ""]);
              calls := [] |} in
  SidebarUI.itemDataset (SidebarUI.renderOperation petsPageDoc [] getPets false)
  = Some ("GET", "/pets") /\
  StorageManager.isStarred (document w) (storage (panelStarClick 0 0 w))
                           "GET" "/pets" = true /\
  SidebarUI.starredRouteKeys (sidebar (panelStarClick 0 0 w))
  = StorageManager.getStarredRoutes (storage (panelStarClick 0 0 w)) /\
  Markup.plainPanel (sidebar (panelStarClick 0 0 w)) = true.
Proof.
  intros w.
  assert (Hplain : Markup.plainPanel (sidebar w) = true) by reflexivity.
  destruct (panelStarClick_spec w 0 0
              (SidebarUI.renderOperation petsPageDoc [] getPets false)
              eq_refl Hplain)
    as (Hd & _ & H & _ & Hk & _ & Hall).
  split; [exact Hd | split; [exact H | split; [exact Hk|]]].
  apply Hall.
  - apply forallb_Forall_false. vm_compute. reflexivity.
  - apply forallb_Forall_true. vm_compute. reflexivity.
Defined.

End ClickFacts.

(** ** Start of the extension *)

Section Startup.
Import DOM DOMParser MutationHandler Injection Grouping Examples.
Local Open Scope nat_scope.

Lemma renderOperations_empty_iff (d : Document) (s s' : SidebarUI.State) :
  SidebarUI.renderOperations d s = Some s' ->
  (SidebarUI.sidebarElement s' = Some SidebarUI.EmptyState <->
   SidebarUI.filterOperations (SidebarUI.allOperations s)
                              (SidebarUI.searchTerm s) = []).
Proof.
  intros H. destruct (renderOperations_sections d s s' H) as (g & Hg & Hs').
  cbn zeta in Hs'.
  apply groupOperationsByTag_ok in Hg as [Hkeys _].
  set (shown := SidebarUI.filterOperations (SidebarUI.allOperations s)
                                           (SidebarUI.searchTerm s)) in *.
  assert (Hperm : Permutation (JSObject.keys g)
                    (JSSet.ofArray (map SidebarUI.tagOf shown)))
    by (rewrite <- Hkeys; apply keys_perm).
  rewrite Hs'. cbn [SidebarUI.withList SidebarUI.sidebarElement]. split.
  - intros Hempty.
    destruct (_ ++ tagSections d _ shown (JSObject.keys g))
      as [|sec html'] eqn:Eh; [|discriminate].
    apply app_eq_nil in Eh as [_ Eh].
    unfold tagSections in Eh. apply map_eq_nil in Eh.
    rewrite Eh in Hperm. apply Permutation_nil in Hperm.
    apply (proj1 (ofArray_nil_iff _)) in Hperm.
    now apply map_eq_nil in Hperm.
  - intros Hnil. rewrite Hnil in Hperm. simpl in Hperm.
    apply Permutation_sym, Permutation_nil in Hperm.
    rewrite Hperm, Hnil. reflexivity.
Qed.

(** X21.  How the start of the extension ends, for a page without foreign
    panel, with the modules loaded and not yet initialised, and an empty
    search term.  Without operation block nothing is done.  When the tag of
    an extracted operation is the name of an inherited property, the panel
    stays in its loading state, and the mutation handler is not initialised:
    the page gets no star and is not observed.  In every other case the panel
    is rendered from the operations and the starred set, the observer is
    connected and the stars are injected, after which every block of the page
    is one that the injection skips; the panel shows its empty state exactly
    when no operation lies in a tag section with a header. *)
Theorem initialize_outcome (w : World) :
  SidebarUI.sidebarElement (sidebar w) = None ->
  SidebarUI.searchTerm (sidebar w) = "" ->
  isInitialized (vars w) = false ->
  windowSidebarUI w = true ->
  document_some (hasId SidebarUI.SIDEBAR_ID) (document w) = false ->
  let d := document w in
  let ops := extractAllOperations d in
  (blocks d = [] -> ContentScript.initialize w = Some w) /\
  (blocks d <> [] ->
   (exists op, In op ops /\ JSObject.isInherited (SidebarUI.tagOf op) = true) ->
   exists w',
     ContentScript.initialize w = Some w' /\
     SidebarUI.sidebarElement (sidebar w') = Some SidebarUI.LoadingState /\
     vars w' = vars w /\ document w' = d /\ calls w' = calls w) /\
  (blocks d <> [] ->
   Forall (fun op => JSObject.isInherited (SidebarUI.tagOf op) = false) ops ->
   exists w',
     ContentScript.initialize w = Some w' /\
     observer (vars w') = true /\
     isInitialized (vars w') = true /\
     document w' = injectStarsIntoOperations (storage w) d /\
     Forall (fun b => settled b = true) (blocks (document w')) /\
     SidebarUI.allOperations (sidebar w') = ops /\
     SidebarUI.starredRouteKeys (sidebar w')
     = StorageManager.getStarredRoutes (storage w) /\
     (SidebarUI.sidebarElement (sidebar w') = Some SidebarUI.EmptyState <->
      ops = [])).
Proof.
  intros Hpanel Hterm Hini Hui Hforeign d ops.
  unfold ContentScript.initialize. fold d.
  change (document_querySelectorAll (ByClass "opblock") d) with (blocks d).
  rewrite Hui.
  assert (Hinit :
            SidebarUI.init d (storage w) (sidebar w)
            = let s := SidebarUI.withList
                         {| SidebarUI.sidebarElement :=
                              SidebarUI.sidebarElement (sidebar w);
                            SidebarUI.isCollapsed :=
                              SidebarUI.isCollapsed (sidebar w);
                            SidebarUI.activeTagId :=
                              SidebarUI.activeTagId (sidebar w);
                            SidebarUI.searchTerm :=
                              SidebarUI.searchTerm (sidebar w);
                            SidebarUI.allOperations :=
                              SidebarUI.allOperations (sidebar w);
                            SidebarUI.starredRouteKeys :=
                              StorageManager.getStarredRoutes (storage w) |}
                         SidebarUI.LoadingState in
              match SidebarUI.refreshOperations d (storage w) s with
              | Some s' => Some (SidebarUI.Resolved s')
              | None =>
                  Some (SidebarUI.Rejected
                          (SidebarUI.refreshed d (storage w) s))
              end).
  { unfold SidebarUI.init, SidebarUI.createSidebar. rewrite Hpanel.
    cbn zeta. fold d. unfold d at 1. now rewrite Hforeign. }
  cbn zeta in Hinit. rewrite Hinit. clear Hinit.
  set (panel := SidebarUI.withList _ SidebarUI.LoadingState).
  assert (Hshown : SidebarUI.filterOperations
                     (SidebarUI.allOperations
                        (SidebarUI.refreshed d (storage w) panel))
                     (SidebarUI.searchTerm
                        (SidebarUI.refreshed d (storage w) panel)) = ops).
  { cbn [SidebarUI.refreshed SidebarUI.allOperations SidebarUI.searchTerm
         SidebarUI.withList panel]. now rewrite Hterm. }
  split; [|split].
  - intros Hnone. now rewrite Hnone.
  - intros Hsome Hbad.
    destruct (blocks d) as [|b0 bs]; [contradiction|].
    assert (Hgroup : SidebarUI.groupOperationsByTag ops = None).
    { rewrite groupOperationsByTag_fold.
      apply groupStep_raises; [constructor | exact Hbad]. }
    assert (Hr : SidebarUI.refreshOperations d (storage w) panel = None).
    { unfold SidebarUI.refreshOperations, SidebarUI.renderOperations.
      rewrite Hshown, Hgroup. reflexivity. }
    rewrite Hr. eexists. split; [reflexivity|]. now repeat split.
  - intros Hsome Hok.
    destruct (blocks d) as [|b0 bs] eqn:Eb; [contradiction|].
    destruct (groupOperationsByTag_total ops Hok) as [g Hg].
    destruct (SidebarUI.refreshOperations d (storage w) panel) as [s'|] eqn:Er.
    + rewrite (init_eq (ContentScript.withSidebar w s') Hini).
      eexists. split; [reflexivity|].
      cbn [ContentScript.withSidebar vars observer isInitialized document
           storage sidebar].
      unfold SidebarUI.refreshOperations in Er.
      pose proof (renderOperations_empty_iff _ _ _ Er) as Hempty.
      rewrite Hshown in Hempty.
      destruct (renderOperations_sections _ _ s' Er) as (g' & _ & Hs').
      cbn zeta in Hs'.
      split; [reflexivity|]. split; [reflexivity|]. split; [reflexivity|].
      split; [apply injectStars_settled|].
      split; [now rewrite Hs'|]. split; [now rewrite Hs'|]. exact Hempty.
    + exfalso.
      unfold SidebarUI.refreshOperations, SidebarUI.renderOperations in Er.
      rewrite Hshown, Hg in Er. discriminate.
Qed.

Lemma initialize_outcome_witness :
  let w := Pages.startWorld petsPageDoc petsStore in
  let bad := Pages.startWorld Pages.constructorPageDoc [] in
  (exists w',
      ContentScript.initialize w = Some w' /\
      observer (vars w') = true /\
      isInitialized (vars w') = true /\
      document w' = injectStarsIntoOperations petsStore petsPageDoc /\
      Forall (fun b => settled b = true) (blocks (document w')) /\
      SidebarUI.allOperations (sidebar w') = extractAllOperations petsPageDoc /\
      SidebarUI.starredRouteKeys (sidebar w')
      = StorageManager.getStarredRoutes petsStore /\
      (SidebarUI.sidebarElement (sidebar w') = Some SidebarUI.EmptyState <->
       extractAllOperations petsPageDoc = [])) /\
  (exists w',
      ContentScript.initialize bad = Some w' /\
      SidebarUI.sidebarElement (sidebar w') = Some SidebarUI.LoadingState /\
      vars w' = vars bad /\
      document w' = Pages.constructorPageDoc /\
      calls w' = calls bad) /\
  ContentScript.initialize (Pages.startWorld petsDoc [])
  = Some (Pages.startWorld petsDoc []).
Proof.
  intros w bad. split; [|split].
  - apply (proj2 (proj2 (initialize_outcome w eq_refl eq_refl eq_refl eq_refl
                           eq_refl))).
    + intros H. vm_compute in H. discriminate H.
    + apply forallb_Forall_false. vm_compute. reflexivity.
  - apply (proj1 (proj2 (initialize_outcome bad eq_refl eq_refl eq_refl eq_refl
                           eq_refl))).
    + intros H. vm_compute in H. discriminate H.
    + eexists. split; [vm_compute; right; left; reflexivity | reflexivity].
  - apply (proj1 (initialize_outcome (Pages.startWorld petsDoc []) eq_refl
                    eq_refl eq_refl eq_refl eq_refl)).
    reflexivity.
Defined.

Lemma advanceTo_pending_due (w : World) (i due T : nat) :
  pending (timers w) = [(i, due)] ->
  due <= T ->
  let w' := advanceTo T w in
  injectTimes w' = injectTimes w ++ [Nat.max (now (timers w)) due] /\
  pending (timers w') = [] /\
  vars w' = vars w /\
  document w' = injectStarsIntoOperations (storage w) (document w).
Proof.
  intros Hp Hle w'. unfold w', advanceTo, dueAt. rewrite Hp.
  cbn [filter snd].
  replace (due <=? T) with true by (symmetry; apply Nat.leb_le; exact Hle).
  cbn [fold_left insertByDue]. unfold fire. rewrite Hp.
  cbn [existsb fst snd filter]. rewrite Nat.eqb_refl. cbn [orb negb].
  match goal with
  | |- context [reinit ?x] =>
      destruct (reinit_calls x) as (extra & Hc & Hi & _ & Ht & Hd);
      pose proof (reinit_vars x) as Hv;
      set (fired := reinit x) in *
  end.
  cbn [setVars setTimers timers pending now vars calls document storage
       windowSidebarUI] in Hc, Ht, Hd, Hv.
  cbn [setVars setTimers timers pending now vars calls document].
  split; [|split; [|split]].
  - unfold injectTimes, setTimers. cbn [calls]. rewrite Hc, filter_app, map_app.
    cbn [filter snd map fst]. rewrite (filter_none _ extra); [reflexivity|].
    apply (Forall_impl _ (P := fun c => snd c <> CallInjectStars)); [|exact Hi].
    intros [n c] Hn. simpl in *. now destruct c.
  - now rewrite Ht.
  - exact Hv.
  - exact Hd.
Qed.

Lemma advanceTo_pending_early (w : World) (i due T : nat) :
  pending (timers w) = [(i, due)] ->
  T < due ->
  calls (advanceTo T w) = calls w /\
  pending (timers (advanceTo T w)) = [(i, due)] /\
  document (advanceTo T w) = document w.
Proof.
  intros Hp Hlt. unfold advanceTo, dueAt. rewrite Hp. cbn [filter snd].
  replace (due <=? T) with false by (symmetry; apply Nat.leb_gt; exact Hlt).
  cbn [fold_left setTimers timers pending calls document].
  now rewrite Hp.
Qed.

Lemma advanceTo_idle (w : World) (T : nat) :
  pending (timers w) = [] ->
  calls (advanceTo T w) = calls w /\
  pending (timers (advanceTo T w)) = [] /\
  vars (advanceTo T w) = vars w /\
  document (advanceTo T w) = document w.
Proof.
  intros Hp. unfold advanceTo, dueAt. rewrite Hp.
  cbn [filter fold_left setTimers timers pending calls document vars].
  now rewrite Hp.
Qed.

(** X22.  [destroy] leaves the timers alone, in every state: a
    reconciliation that is pending when the module is destroyed still runs
    when it is due, with the observer disconnected, and injects the stars
    into the page; it is the last one, since the observer callbacks that
    could schedule another no longer arrive. *)
Theorem destroy_leaves_timer (w : World) (i due T : nat)
        (later : list (nat * list MutationRecord)) :
  pending (timers w) = [(i, due)] ->
  timers (destroy w) = timers w /\
  (T < due ->
   calls (advanceTo T (destroy w)) = calls w /\
   pending (timers (advanceTo T (destroy w))) = [(i, due)]) /\
  (due <= T ->
   let w' := advanceTo T (destroy w) in
   injectTimes w' = injectTimes w ++ [Nat.max (now (timers w)) due] /\
   document w' = injectStarsIntoOperations (storage w) (document w) /\
   observer (vars w') = false /\
   pending (timers w') = [] /\
   injectTimes (run (callbacks later) w') = injectTimes w' /\
   pending (timers (run (callbacks later) w')) = []).
Proof.
  intros Hp. split; [reflexivity|]. split.
  - intros Hlt.
    destruct (advanceTo_pending_early (destroy w) i due T Hp Hlt) as (Hc & Hq & _).
    now split.
  - intros Hle w'.
    destruct (advanceTo_pending_due (destroy w) i due T Hp Hle)
      as (Hi & Hq & Hv & Hd).
    fold w' in Hi, Hq, Hv, Hd.
    assert (Hobs : observer (vars w') = false) by now rewrite Hv.
    split; [exact Hi|]. split; [exact Hd|]. split; [exact Hobs|].
    split; [exact Hq|].
    assert (Hrun : forall l v,
               observer (vars v) = false -> pending (timers v) = [] ->
               calls (run (callbacks l) v) = calls v /\
               pending (timers (run (callbacks l) v)) = []).
    { induction l as [|[t ms] l IH]; intros v Ho Hpv; [now split|].
      change (run (callbacks ((t, ms) :: l)) v)
        with (run (callbacks l) (step v (t, ObserverCallback ms))).
      destruct (advanceTo_idle v t Hpv) as (Hc & Hq' & Hv' & _).
      assert (Hstep : step v (t, ObserverCallback ms) = advanceTo t v).
      { unfold step. cbn [fst snd handle]. now rewrite Hv', Ho. }
      rewrite Hstep.
      destruct (IH (advanceTo t v)) as [Hc2 Hq2];
        [now rewrite Hv' | exact Hq'|].
      split; [now rewrite Hc2 | exact Hq2]. }
    destruct (Hrun later w' Hobs Hq) as [Hc Hq2].
    split; [|exact Hq2]. unfold injectTimes. now rewrite Hc.
Qed.

Lemma destroy_leaves_timer_witness :
  let w := armed idleWorld 1 0 in
  injectTimes (advanceTo 1000 (destroy w)) = [300] /\
  observer (vars (advanceTo 1000 (destroy w))) = false.
Proof.
  intros w.
  destruct (destroy_leaves_timer w 1 300 1000 [] eq_refl) as (_ & _ & H).
  destruct H as (Hi & _ & Ho & _).
  - unfold DEBOUNCE_DELAY. lia.
  - split; [exact Hi | exact Ho].
Defined.

(** X23.  [init] and [destroy] of the panel, on a page without foreign
    panel.  [init] on a module that has its panel does nothing.  [destroy]
    followed by [init] ends as [refreshOperations] on the module before the
    [destroy] ends: the new panel is rendered from the operations of the page
    and the stored starred set under the search term that the module had,
    which [destroy] does not reset. *)
Theorem sidebar_init_destroy (d : Document) (st : Chrome.storage)
        (s : SidebarUI.State) :
  document_some (hasId SidebarUI.SIDEBAR_ID) d = false ->
  SidebarUI.sidebarElement s <> None ->
  SidebarUI.init d st s = Some (SidebarUI.Resolved s) /\
  SidebarUI.init d st (SidebarUI.destroy s)
  = Some (match SidebarUI.refreshOperations d st s with
          | Some s' => SidebarUI.Resolved s'
          | None =>
              SidebarUI.Rejected
                (SidebarUI.refreshed d st
                   (SidebarUI.withList s SidebarUI.LoadingState))
          end) /\
  (forall s', SidebarUI.init d st (SidebarUI.destroy s)
              = Some (SidebarUI.Resolved s') ->
              SidebarUI.searchTerm s' = SidebarUI.searchTerm s /\
              SidebarUI.renderOperations d (SidebarUI.refreshed d st s)
              = Some s').
Proof.
  intros Hforeign Hpanel.
  assert (Hguard : SidebarUI.init d st s = Some (SidebarUI.Resolved s)).
  { unfold SidebarUI.init. now destruct (SidebarUI.sidebarElement s). }
  assert (Hrender :
            SidebarUI.refreshOperations d st
              (SidebarUI.withList
                 {| SidebarUI.sidebarElement :=
                      SidebarUI.sidebarElement (SidebarUI.destroy s);
                    SidebarUI.isCollapsed :=
                      SidebarUI.isCollapsed (SidebarUI.destroy s);
                    SidebarUI.activeTagId :=
                      SidebarUI.activeTagId (SidebarUI.destroy s);
                    SidebarUI.searchTerm :=
                      SidebarUI.searchTerm (SidebarUI.destroy s);
                    SidebarUI.allOperations :=
                      SidebarUI.allOperations (SidebarUI.destroy s);
                    SidebarUI.starredRouteKeys :=
                      StorageManager.getStarredRoutes st |}
                 SidebarUI.LoadingState)
            = SidebarUI.refreshOperations d st s).
  { unfold SidebarUI.refreshOperations.
    rewrite <- (renderOperations_ignores_list d (SidebarUI.refreshed d st s)
                  SidebarUI.LoadingState) by exact Hpanel.
    reflexivity. }
  assert (Hinit :
            SidebarUI.init d st (SidebarUI.destroy s)
            = Some (match SidebarUI.refreshOperations d st s with
                    | Some s' => SidebarUI.Resolved s'
                    | None =>
                        SidebarUI.Rejected
                          (SidebarUI.refreshed d st
                             (SidebarUI.withList s SidebarUI.LoadingState))
                    end)).
  { unfold SidebarUI.init, SidebarUI.createSidebar.
    cbn [SidebarUI.destroy SidebarUI.sidebarElement]. cbn zeta.
    rewrite Hforeign.
    cbn [SidebarUI.destroy SidebarUI.sidebarElement SidebarUI.isCollapsed
         SidebarUI.activeTagId SidebarUI.searchTerm SidebarUI.allOperations]
      in Hrender |- *.
    rewrite Hrender.
    now destruct (SidebarUI.refreshOperations d st s). }
  split; [exact Hguard | split; [exact Hinit|]].
  intros s' H. rewrite Hinit in H.
  destruct (SidebarUI.refreshOperations d st s) as [s0|] eqn:Er;
    [|discriminate].
  injection H as <-. unfold SidebarUI.refreshOperations in Er.
  split; [|exact Er].
  destruct (renderOperations_sections _ _ s0 Er) as (g & _ & ->).
  reflexivity.
Qed.

Lemma sidebar_init_destroy_witness :
  let s := Pages.searchingPanel in
  let shown :=
    match SidebarUI.refreshOperations petsPageDoc petsStore s with
    | Some s' => s'
    | None => s
    end in
  SidebarUI.init petsPageDoc petsStore s = Some (SidebarUI.Resolved s) /\
  SidebarUI.init petsPageDoc petsStore (SidebarUI.destroy s)
  = Some (SidebarUI.Resolved shown) /\
  SidebarUI.searchTerm shown = "create" /\
  SidebarUI.renderOperations petsPageDoc
    (SidebarUI.refreshed petsPageDoc petsStore s) = Some shown /\
  map (fun op => (method op, path op))
      (SidebarUI.filterOperations (SidebarUI.allOperations shown)
                                  (SidebarUI.searchTerm shown))
  = [("POST", "/pets")].
Proof.
  intros s shown.
  assert (Hforeign :
            document_some (hasId SidebarUI.SIDEBAR_ID) petsPageDoc = false)
    by reflexivity.
  assert (Hpanel : SidebarUI.sidebarElement s <> None) by discriminate.
  destruct (sidebar_init_destroy petsPageDoc petsStore s Hforeign Hpanel)
    as (Hguard & Hinit & Hall).
  assert (E : SidebarUI.refreshOperations petsPageDoc petsStore s = Some shown)
    by (vm_compute; reflexivity).
  rewrite E in Hinit.
  destruct (Hall shown Hinit) as [Hterm Hrender].
  split; [exact Hguard | split; [exact Hinit | split; [exact Hterm|]]].
  split; [exact Hrender | vm_compute; reflexivity].
Defined.

End Startup.

(** ** The fields that a search term is matched against *)

Section SearchFields.
Import DOMParser SidebarUI Examples.




















End SearchFields.
